(** * anterajaSdk: the request / response / error pipeline of the client

    A shallow embedding of [src/errors.ts] and of the client class
    ([Client.request]), with the platform operations the code calls
    ([JSON.parse], [JSON.stringify], [decodeURIComponent], the query
    serializer of [URLSearchParams]) written out as executable functions.
    The URL parser of the platform ([new URL]), the default transport and
    the package version are parameters of the client.

    Conventions.
    - A string is a Rocq [string]: the UTF-8 bytes of the JavaScript string.
    - A JavaScript number is a double ([Number.number]): a sign, a
      significand and a binary exponent, with [Number::toString] and the
      rounding of decimal literals written out.  The status of a response
      and the [timeoutMs] of a client, which are integers, are in [Z].
    - A plain object is the list of its own enumerable properties in the
      order in which the platform enumerates them.
    - A promise is what it eventually does: stay pending, fulfil or reject;
      a promise raced against the timer also has the time at which it
      settles, in milliseconds.
    - [Client] is the client seen by one call; [Session] puts the objects
      that calls share (the auth object, the headers object of each call)
      in a store and runs calls one after the other. *)

From Stdlib Require Import ZArith NArith String Ascii List Bool Lia.
From Stdlib Require Import Decimal DecimalString DecimalFacts DecimalN DecimalZ.
From stdpp Require Import base option strings gmap.
Import ListNotations.

Local Open Scope Z_scope.
Local Open Scope string_scope.

(** ** Thrown values and control flow *)

Module Js.

(** A foreign error object: one that is not an instance of the client's own
    base class.  It is identified by its constructor name and message. *)
Record Error := mkError { error_name : string; error_message : string }.

(** The completion of a synchronous step: a value, or a thrown value of
    type [E]. *)
Inductive completion (E A : Type) : Type :=
| Normal (a : A)
| Throw (e : E).
Arguments Normal {E A} a.
Arguments Throw {E A} e.

Definition bind {E A B} (c : completion E A) (k : A -> completion E B)
  : completion E B :=
  match c with
  | Normal a => k a
  | Throw e => Throw e
  end.

(** How a promise settles. *)
Inductive settlement (E A : Type) : Type :=
| Fulfilled (a : A)
| Rejected (e : E).
Arguments Fulfilled {E A} a.
Arguments Rejected {E A} e.

(** A promise seen from outside: it never settles, or it settles once. *)
Inductive promise (E A : Type) : Type :=
| Pending
| Settled (s : settlement E A).
Arguments Pending {E A}.
Arguments Settled {E A} s.

End Js.

Notation "'let*' x ':=' c 'in' k" := (Js.bind c (fun x => k))
  (at level 10, x name, c at level 100, k at level 200).

(** ** Characters *)

Module Chars.

Local Open Scope N_scope.

Definition code (c : ascii) : N := N_of_ascii c.

Definition is_digit (c : ascii) : bool :=
  (48 <=? code c)%N && (code c <=? 57)%N.

Definition is_upper (c : ascii) : bool :=
  (65 <=? code c)%N && (code c <=? 90)%N.

Definition is_lower (c : ascii) : bool :=
  (97 <=? code c)%N && (code c <=? 122)%N.

Definition is_alnum (c : ascii) : bool :=
  is_digit c || is_upper c || is_lower c.

(** Value of a hexadecimal digit, either case. *)
Definition hex_val (c : ascii) : option N :=
  let n := code c in
  if is_digit c then Some (n - 48)%N
  else if (65 <=? n)%N && (n <=? 70)%N then Some (n - 55)%N
  else if (97 <=? n)%N && (n <=? 102)%N then Some (n - 87)%N
  else None.

Definition hex_digit_of (upper : bool) (n : N) : ascii :=
  if (n <? 10)%N then ascii_of_N (48 + n)
  else ascii_of_N ((if upper then 55 else 87) + n).

(** [String.prototype.toUpperCase] on the ASCII letters. *)
Definition to_upper (c : ascii) : ascii :=
  if is_lower c then ascii_of_N (code c - 32) else c.

Fixpoint toUpperCase (s : string) : string :=
  match s with
  | EmptyString => EmptyString
  | String c s' => String (to_upper c) (toUpperCase s')
  end.

(** Decimal rendering of an integer, as [String(n)] and template literals
    print an integer-valued number. *)
Definition string_of_N (n : N) : string :=
  NilEmpty.string_of_uint (N.to_uint n).

Definition string_of_Z (z : Z) : string :=
  if (z <? 0)%Z then String "-" (string_of_N (Z.abs_N z))
  else string_of_N (Z.abs_N z).

(** Strings of decimal digits and the number they denote. *)
Fixpoint all_digits (s : string) : bool :=
  match s with
  | EmptyString => true
  | String c s' => is_digit c && all_digits s'
  end.

Fixpoint digits_value (acc : N) (s : string) : N :=
  match s with
  | EmptyString => acc
  | String c s' => digits_value (10 * acc + (code c - 48))%N s'
  end.

(** The UTF-8 encoding of a code point; a lone surrogate is written in the
    same three-byte form. *)
Definition utf8_encode (cp : N) : string :=
  let b (n : N) := ascii_of_N n in
  if (cp <? 128)%N then String (b cp) EmptyString
  else if (cp <? 2048)%N then
    String (b (192 + cp / 64)) (String (b (128 + cp mod 64)) EmptyString)
  else if (cp <? 65536)%N then
    String (b (224 + cp / 4096))
      (String (b (128 + (cp / 64) mod 64))
         (String (b (128 + cp mod 64)) EmptyString))
  else
    String (b (240 + cp / 262144))
      (String (b (128 + (cp / 4096) mod 64))
         (String (b (128 + (cp / 64) mod 64))
            (String (b (128 + cp mod 64)) EmptyString))).

End Chars.

(** ** Numbers *)

Module Number.

Import Chars.

Local Open Scope Z_scope.

(** A Number value: an IEEE 754 double.  [Finite negative m e] is the
    value [m * 2 ^ e], negated when [negative] is set. *)
Inductive number : Type :=
| NaN
| Infinity (negative : bool)
| Zero (negative : bool)
| Finite (negative : bool) (m : positive) (e : Z).

Definition number_eq_dec (x y : number) : {x = y} + {x <> y}.
Proof.
  decide equality; try apply Z.eq_dec; try apply Pos.eq_dec; apply bool_dec.
Defined.

(** The pairs [(m, e)] that denote a double, each double once: a
    significand of 53 bits, normalized unless the exponent is the least. *)
Definition canonical (m : positive) (e : Z) : bool :=
  (-1074 <=? e) && (e <=? 971) && (Z.pos m <? 2 ^ 53)
  && ((2 ^ 52 <=? Z.pos m) || (e =? -1074)).

Definition negate (x : number) : number :=
  match x with
  | NaN => NaN
  | Infinity s => Infinity (negb s)
  | Zero s => Zero (negb s)
  | Finite s m e => Finite (negb s) m e
  end.

Definition is_finite (x : number) : bool :=
  match x with
  | Zero _ | Finite _ _ _ => true
  | NaN | Infinity _ => false
  end.

(** *** The Number value for a rational: round to nearest, ties to even *)

(** [P / Q] rounded to an integer, a tie going to the even neighbour. *)
Definition half_even (P Q : Z) : Z :=
  let m := P / Q in
  match 2 * (P mod Q) ?= Q with
  | Lt => m
  | Gt => m + 1
  | Eq => if Z.even m then m else m + 1
  end.

(** [2 ^ k <= p / q], for an exponent of either sign. *)
Definition ge_pow2 (k p q : Z) : bool :=
  if 0 <=? k then q * 2 ^ k <=? p else q <=? p * 2 ^ (- k).

(** The integer part of the binary logarithm of [p / q]. *)
Definition floor_log2 (p q : Z) : Z :=
  let k := Z.log2 p - Z.log2 q in
  if ge_pow2 k p q then k else k - 1.

(** [(p / q) / 2 ^ e] as a fraction. *)
Definition scale (e p q : Z) : Z * Z :=
  if 0 <=? e then (p, q * 2 ^ e) else (p * 2 ^ (- e), q).

(** The double nearest to [p / q], for positive [p] and [q]: the
    significand is the quotient by the power of two that leaves 53 bits
    (fewer near zero), rounded; above the largest double the result is
    infinite, below half the least it is zero. *)
Definition nearest_double (p q : Z) : number :=
  let e := Z.max (floor_log2 p q - 52) (-1074) in
  let (P, Q) := scale e p q in
  let m := half_even P Q in
  if m =? 0 then Zero false
  else if m =? 2 ^ 53 then
    if 971 <? e + 1 then Infinity false
    else Finite false (Z.to_pos (2 ^ 52)) (e + 1)
  else if 971 <? e then Infinity false
  else Finite false (Z.to_pos m) e.

(** The Number value of a decimal literal with the digits [digits] (as an
    integer) scaled by [10 ^ exponent]. *)
Definition of_decimal (negative : bool) (digits exponent : Z) : number :=
  let x :=
    if digits <=? 0 then Zero false
    else if 0 <=? exponent then nearest_double (digits * 10 ^ exponent) 1
    else nearest_double digits (10 ^ (- exponent)) in
  if negative then negate x else x.

(** The Number value of an integer. *)
Definition of_Z (z : Z) : number := of_decimal (z <? 0) (Z.abs z) 0.

(** *** [Number::toString] *)

(** The number of decimal digits of a positive integer. *)
Definition ndigits (s : Z) : Z :=
  Z.of_nat (String.length (string_of_N (Z.to_N s))).

(** [m * 2 ^ e] written out in full: digits and a power of ten. *)
Definition exact_decimal (m : positive) (e : Z) : Z * Z :=
  if 0 <=? e then (Z.pos m * 2 ^ e, 0) else (Z.pos m * 5 ^ (- e), e).

(** A candidate [(s, n)] stands for the decimal [0.s * 10 ^ n]; it reads
    as [x] when [x] is the Number value of that decimal. *)
Definition reads_as (x : number) (c : Z * Z) : bool :=
  (0 <? fst c)
  && if number_eq_dec (of_decimal false (fst c) (snd c - ndigits (fst c))) x
     then true else false.

(** The shortest digits that read as [x]: with [S0] the [d] digits of the
    full expansion of [x] and [n] the place of its decimal point, try [k]
    digits for [k = 1, 2, ...]: the first [k] digits of [S0], or those
    plus one.  When both read as [x], the nearer is taken, the even one on
    a tie. *)
Fixpoint shortest_from (x : number) (S0 d n : Z) (fuel : nat) (k : Z)
  : Z * Z :=
  match fuel with
  | O => (S0, n)
  | S fuel' =>
      let unit := 10 ^ (d - k) in
      let lo := (S0 / unit, n) in
      let hi :=
        if S0 / unit + 1 =? 10 ^ k then (1, n + 1) else (S0 / unit + 1, n) in
      match reads_as x lo, reads_as x hi with
      | true, true =>
          match 2 * (S0 mod unit) ?= unit with
          | Lt => lo
          | Gt => hi
          | Eq => if Z.even (fst lo) then lo else hi
          end
      | true, false => lo
      | false, true => hi
      | false, false => shortest_from x S0 d n fuel' (k + 1)
      end
  end.

Definition shortest (m : positive) (e : Z) : Z * Z :=
  let (S0, E0) := exact_decimal m e in
  let d := ndigits S0 in
  shortest_from (Finite false m e) S0 d (d + E0) (Z.to_nat d) 1.

Fixpoint zeros (n : nat) : string :=
  match n with
  | O => EmptyString
  | S n' => String "0" (zeros n')
  end.

Fixpoint take (n : nat) (s : string) : string :=
  match n, s with
  | S n', String c s' => String c (take n' s')
  | _, _ => EmptyString
  end.

Fixpoint drop (n : nat) (s : string) : string :=
  match n, s with
  | S n', String c s' => drop n' s'
  | _, _ => s
  end.

(** The text of the decimal [0.s * 10 ^ n]: plain digits up to 21 places
    before the point and 6 zeros after it, exponential notation beyond. *)
Definition format (s n : Z) : string :=
  let ds := string_of_N (Z.to_N s) in
  let k := Z.of_nat (String.length ds) in
  if (k <=? n) && (n <=? 21) then (ds ++ zeros (Z.to_nat (n - k)))%string
  else if (0 <? n) && (n <=? 21) then
    (take (Z.to_nat n) ds ++ "." ++ drop (Z.to_nat n) ds)%string
  else if (-6 <? n) && (n <=? 0) then
    ("0." ++ zeros (Z.to_nat (- n)) ++ ds)%string
  else
    let sign := if 0 <? n - 1 then "+" else "-" in
    let ex := (sign ++ string_of_N (Z.abs_N (n - 1)))%string in
    if k =? 1 then (ds ++ "e" ++ ex)%string
    else (take 1 ds ++ "." ++ drop 1 ds ++ "e" ++ ex)%string.

(** [Number::toString(x)] in radix 10, which [String(x)], template
    literals and [JSON.stringify] use for a number. *)
Definition toString (x : number) : string :=
  match x with
  | NaN => "NaN"
  | Infinity false => "Infinity"
  | Infinity true => "-Infinity"
  | Zero _ => "0"
  | Finite negative m e =>
      let (s, n) := shortest m e in
      if negative then String "-" (format s n) else format s n
  end.

(** [exact e p q m]: the fraction [p / q] is [m * 2 ^ e]. *)
Definition exact (e p q m : Z) : Prop :=
  if 0 <=? e then p = m * 2 ^ e * q else p * 2 ^ (- e) = m * q.

End Number.

(** ** JavaScript values and JSON *)

Module JSON.

Import Js Chars Number.

(** The values a request body may hold and [JSON.parse] may produce.
    [JUndefined] and [JBigInt] occur in bodies only: [JSON.parse] never
    produces them. *)
#[local] Unset Elimination Schemes.
Inductive value : Type :=
| JUndefined
| JNull
| JBool (b : bool)
| JNumber (x : number)
| JBigInt (z : Z)
| JString (s : string)
| JArray (items : list value)
| JObject (fields : list (string * value)).
#[local] Set Elimination Schemes.

(** The induction principle that reaches inside arrays and objects. *)
Section nested_induction.
Variable P : value -> Prop.
Hypothesis Hundef : P JUndefined.
Hypothesis Hnull : P JNull.
Hypothesis Hbool : forall b, P (JBool b).
Hypothesis Hnum : forall x, P (JNumber x).
Hypothesis Hbig : forall z, P (JBigInt z).
Hypothesis Hstr : forall s, P (JString s).
Hypothesis Harr : forall items, Forall P items -> P (JArray items).
Hypothesis Hobj :
  forall fields, Forall (fun kv => P (snd kv)) fields -> P (JObject fields).

Fixpoint value_ind (v : value) : P v :=
  match v with
  | JUndefined => Hundef
  | JNull => Hnull
  | JBool b => Hbool b
  | JNumber x => Hnum x
  | JBigInt z => Hbig z
  | JString s => Hstr s
  | JArray items =>
      Harr items
        ((fix go (l : list value) : Forall P l :=
            match l with
            | [] => @List.Forall_nil _ P
            | x :: l' => @List.Forall_cons _ P x l' (value_ind x) (go l')
            end) items)
  | JObject fields =>
      Hobj fields
        ((fix go (l : list (string * value))
            : Forall (fun kv => P (snd kv)) l :=
            match l with
            | [] => @List.Forall_nil _ _
            | kv :: l' =>
                @List.Forall_cons _ (fun kv => P (snd kv)) kv l'
                  (value_ind (snd kv)) (go l')
            end) fields)
  end.
End nested_induction.

(** The [typeof] operator. *)
Definition typeof (v : value) : string :=
  match v with
  | JUndefined => "undefined"
  | JNull => "object"
  | JBool _ => "boolean"
  | JNumber _ => "number"
  | JBigInt _ => "bigint"
  | JString _ => "string"
  | JArray _ | JObject _ => "object"
  end.

(** Own data property of a plain object, by key. *)
Fixpoint lookup_field (k : string) (fields : list (string * value))
  : option value :=
  match fields with
  | [] => None
  | (k', v) :: rest => if String.eqb k k' then Some v else lookup_field k rest
  end.

(** [v[k]] for a key that [Object.prototype], [Array.prototype] and the
    string wrapper do not define (such as "message" and "code"): the own
    property when [v] is a plain object that has it, [undefined] otherwise.
    The read throws on [null] and [undefined]; callers guard against those. *)
Definition get (v : value) (k : string) : value :=
  match v with
  | JObject fields =>
      match lookup_field k fields with
      | Some x => x
      | None => JUndefined
      end
  | _ => JUndefined
  end.

(** The property names every plain object inherits from [Object.prototype]. *)
Definition Object_prototype_keys : list string :=
  [ "constructor"; "__defineGetter__"; "__defineSetter__"; "hasOwnProperty";
    "__lookupGetter__"; "__lookupSetter__"; "isPrototypeOf";
    "propertyIsEnumerable"; "toString"; "valueOf"; "__proto__";
    "toLocaleString" ].

Definition mem_string (k : string) (l : list string) : bool :=
  existsb (String.eqb k) l.

(** [k in o] for an object literal [o] whose own keys are [own]: the [in]
    operator follows the prototype chain. *)
Definition has_property (own : list string) (k : string) : bool :=
  mem_string k own || mem_string k Object_prototype_keys.

(** *** Property order of plain objects *)

(** A canonical array index: the decimal form, without leading zero, of an
    integer below 2^32 - 1.  The platform enumerates such keys first, in
    ascending numeric order. *)
Definition array_index (k : string) : option N :=
  match k with
  | EmptyString => None
  | String c rest =>
      if all_digits k
         && (negb (Ascii.eqb c "0") || String.eqb rest EmptyString)
         && (digits_value 0 k <? 4294967295)%N
      then Some (digits_value 0 k)
      else None
  end.

(** Insert a new integer-indexed property: before the first property that
    is not an index or is a larger index. *)
Fixpoint insert_index (i : N) (k : string) (v : value)
    (fields : list (string * value)) : list (string * value) :=
  match fields with
  | [] => [(k, v)]
  | (k', v') :: rest =>
      match array_index k' with
      | Some j =>
          if (j <? i)%N then (k', v') :: insert_index i k v rest
          else (k, v) :: fields
      | None => (k, v) :: fields
      end
  end.

(** Overwrite the value of an existing property, keeping its place. *)
Fixpoint replace_field (k : string) (v : value)
    (fields : list (string * value)) : list (string * value) :=
  match fields with
  | [] => []
  | (k', v') :: rest =>
      if String.eqb k k' then (k, v) :: rest
      else (k', v') :: replace_field k v rest
  end.

(** [CreateDataProperty(o, k, v)] on a plain object. *)
Definition set_field (k : string) (v : value)
    (fields : list (string * value)) : list (string * value) :=
  match lookup_field k fields with
  | Some _ => replace_field k v fields
  | None =>
      match array_index k with
      | Some i => insert_index i k v fields
      | None => fields ++ [(k, v)]
      end
  end.

Definition build_object (members : list (string * value))
  : list (string * value) :=
  fold_left (fun o kv => set_field (fst kv) (snd kv) o) members [].

(** Keys in the order in which the platform enumerates the properties
    of a plain object: the array indices, ascending, then the other keys,
    each once. *)
Fixpoint plain_keys (ks : list string) : bool :=
  match ks with
  | [] => true
  | k :: rest =>
      match array_index k with
      | Some _ => false
      | None => negb (mem_string k rest) && plain_keys rest
      end
  end.

Fixpoint enumeration_order (above : option N) (ks : list string) : bool :=
  match ks with
  | [] => true
  | k :: rest =>
      match array_index k with
      | Some i =>
          match above with
          | Some j => (j <? i)%N
          | None => true
          end && enumeration_order (Some i) rest
      | None => plain_keys ks
      end
  end.

(** The numbers that a JSON text denotes and gives back: the finite
    doubles, negative zero apart (it is written as [0]). *)
Definition json_number (x : number) : bool :=
  match x with
  | Zero negative => negb negative
  | Finite _ m e => canonical m e
  | NaN | Infinity _ => false
  end.

(** The JSON-serializable values, which JSON represents exactly: null,
    booleans, strings, the numbers above, arrays and plain objects of
    such; no [undefined], no BigInt.  The properties of an object are
    listed in the order in which the platform enumerates them, as in any
    object there is. *)
Fixpoint serializable (v : value) : bool :=
  match v with
  | JNull | JBool _ | JString _ => true
  | JNumber x => json_number x
  | JArray items => forallb serializable items
  | JObject fields =>
      enumeration_order None (map fst fields)
      && forallb (fun kv => serializable (snd kv)) fields
  | JUndefined | JBigInt _ => false
  end.

(** *** [JSON.stringify] *)

Definition dquote : ascii := Eval cbv in ascii_of_N 34.
Definition backslash : ascii := Eval cbv in ascii_of_N 92.

Definition TypeError (msg : string) : Error := mkError "TypeError" msg.
Definition SyntaxError (msg : string) : Error := mkError "SyntaxError" msg.

(** One character of [QuoteJSONString]. *)
Definition quote_char (c : ascii) : string :=
  let n := code c in
  if (n =? 8)%N then String backslash "b"
  else if (n =? 9)%N then String backslash "t"
  else if (n =? 10)%N then String backslash "n"
  else if (n =? 12)%N then String backslash "f"
  else if (n =? 13)%N then String backslash "r"
  else if (n =? 34)%N then String backslash (String dquote EmptyString)
  else if (n =? 92)%N then String backslash (String backslash EmptyString)
  else if (n <? 32)%N then
    String backslash
      (String "u" (String "0" (String "0"
         (String (hex_digit_of false (n / 16))
            (String (hex_digit_of false (n mod 16)) EmptyString)))))
  else String c EmptyString.

Fixpoint quote_chars (s : string) : string :=
  match s with
  | EmptyString => EmptyString
  | String c s' => quote_char c ++ quote_chars s'
  end.

Definition QuoteJSONString (s : string) : string :=
  String dquote (quote_chars s ++ String dquote EmptyString).

Fixpoint join (sep : string) (parts : list string) : string :=
  match parts with
  | [] => EmptyString
  | [p] => p
  | p :: rest => p ++ sep ++ join sep rest
  end.

(** [SerializeJSONProperty]: [None] stands for [undefined] (the property
    is skipped in an object and printed as null in an array). *)
Fixpoint SerializeJSONProperty (v : value) : completion Error (option string) :=
  match v with
  | JUndefined => Normal None
  | JNull => Normal (Some "null")
  | JBool true => Normal (Some "true")
  | JBool false => Normal (Some "false")
  | JNumber x =>
      Normal (Some (if is_finite x then Number.toString x else "null"))
  | JBigInt _ => Throw (TypeError "Do not know how to serialize a BigInt")
  | JString s => Normal (Some (QuoteJSONString s))
  | JArray items =>
      let fix elements (l : list value) : completion Error (list string) :=
        match l with
        | [] => Normal []
        | x :: l' =>
            let* o := SerializeJSONProperty x in
            let* r := elements l' in
            Normal (match o with Some t => t | None => "null" end :: r)
        end in
      let* parts := elements items in
      Normal (Some ("[" ++ join "," parts ++ "]"))
  | JObject fields =>
      let fix members (l : list (string * value))
          : completion Error (list string) :=
        match l with
        | [] => Normal []
        | kv :: l' =>
            let* o := SerializeJSONProperty (snd kv) in
            let* r := members l' in
            Normal (match o with
                    | Some t => (QuoteJSONString (fst kv) ++ ":" ++ t) :: r
                    | None => r
                    end)
        end in
      let* parts := members fields in
      Normal (Some ("{" ++ join "," parts ++ "}"))
  end.

(** The two local loops of [SerializeJSONProperty], by name. *)
Definition serialize_elements : list value -> completion Error (list string) :=
  fix elements (l : list value) : completion Error (list string) :=
    match l with
    | [] => Normal []
    | x :: l' =>
        let* o := SerializeJSONProperty x in
        let* r := elements l' in
        Normal (match o with Some t => t | None => "null" end :: r)
    end.

Definition serialize_members
  : list (string * value) -> completion Error (list string) :=
  fix members (l : list (string * value)) : completion Error (list string) :=
    match l with
    | [] => Normal []
    | kv :: l' =>
        let* o := SerializeJSONProperty (snd kv) in
        let* r := members l' in
        Normal (match o with
                | Some t => (QuoteJSONString (fst kv) ++ ":" ++ t) :: r
                | None => r
                end)
    end.

(** [JSON.stringify(v)]: a string, [undefined] ([None]), or a throw. *)
Definition stringify (v : value) : completion Error (option string) :=
  SerializeJSONProperty v.

(** *** [JSON.parse] *)

(** Result of a parsing function: a value and the unread input, a syntax
    error, or not enough fuel. *)
Inductive presult (A : Type) : Type :=
| POk (a : A) (rest : string)
| PErr
| PFuel.
Arguments POk {A} a rest.
Arguments PErr {A}.
Arguments PFuel {A}.

Definition is_ws (c : ascii) : bool :=
  let n := code c in
  (n =? 32)%N || (n =? 9)%N || (n =? 10)%N || (n =? 13)%N.

Fixpoint skip_ws (s : string) : string :=
  match s with
  | String c s' => if is_ws c then skip_ws s' else s
  | EmptyString => s
  end.

Definition is_empty (s : string) : bool :=
  match s with
  | EmptyString => true
  | _ => false
  end.

(** The longest prefix of digits, and what follows. *)
Fixpoint scan_digits (s : string) : string * string :=
  match s with
  | String c s' =>
      if is_digit c then
        let (d, r) := scan_digits s' in (String c d, r)
      else (EmptyString, s)
  | EmptyString => (EmptyString, s)
  end.

(** The integer part of a JSON number: one digit, or no leading zero. *)
Definition int_part_ok (d : string) : bool :=
  match d with
  | EmptyString => false
  | String c r => negb (Ascii.eqb c "0") || is_empty r
  end.

(** The digits of the fraction; none when there is no fraction. *)
Definition scan_fraction (s : string) : option (string * string) :=
  match s with
  | String c s' =>
      if Ascii.eqb c "." then
        let (d, r) := scan_digits s' in
        if is_empty d then None else Some (d, r)
      else Some (EmptyString, s)
  | EmptyString => Some (EmptyString, s)
  end.

(** A sign: whether it is a minus, and what follows. *)
Definition scan_sign (s : string) : bool * string :=
  match s with
  | String c s' =>
      if Ascii.eqb c "+" then (false, s')
      else if Ascii.eqb c "-" then (true, s')
      else (false, s)
  | EmptyString => (false, s)
  end.

(** The exponent; zero when there is none. *)
Definition scan_exponent (s : string) : option (Z * string) :=
  match s with
  | String c s' =>
      if Ascii.eqb c "e" || Ascii.eqb c "E" then
        let (negative, s1) := scan_sign s' in
        let (d, r) := scan_digits s1 in
        if is_empty d then None
        else
          let n := Z.of_N (digits_value 0 d) in
          Some (if negative then - n else n, r)
      else Some (0, s)
  | EmptyString => Some (0, s)
  end.

(** A number token: sign, integer part, fraction and exponent.  It
    denotes the Number value of the decimal it writes. *)
Definition parse_number (s : string) : option (value * string) :=
  let (negative, s1) :=
    match s with
    | String c r => if Ascii.eqb c "-" then (true, r) else (false, s)
    | EmptyString => (false, s)
    end in
  let (ip, s2) := scan_digits s1 in
  if int_part_ok ip then
    match scan_fraction s2 with
    | None => None
    | Some (fp, s3) =>
        match scan_exponent s3 with
        | None => None
        | Some (ex, s4) =>
            Some (JNumber
                    (of_decimal negative
                       (Z.of_N (digits_value 0 (ip ++ fp)))
                       (ex - Z.of_nat (String.length fp))), s4)
        end
    end
  else None.

Definition hex4 (a b c d : ascii) : option N :=
  match hex_val a, hex_val b, hex_val c, hex_val d with
  | Some x, Some y, Some z, Some w => Some (4096 * x + 256 * y + 16 * z + w)%N
  | _, _, _, _ => None
  end.

Definition is_high_surrogate (u : N) : bool :=
  (55296 <=? u)%N && (u <=? 56319)%N.

Definition is_low_surrogate (u : N) : bool :=
  (56320 <=? u)%N && (u <=? 57343)%N.

Definition surrogate_pair (hi lo : N) : N :=
  (65536 + (hi - 55296) * 1024 + (lo - 56320))%N.

(** The character a two-character escape stands for. *)
Definition simple_escape (e : ascii) : option ascii :=
  let n := code e in
  if (n =? 34)%N then Some dquote
  else if (n =? 92)%N then Some backslash
  else if (n =? 47)%N then Some "/"%char
  else if (n =? 98)%N then Some (ascii_of_N 8)
  else if (n =? 102)%N then Some (ascii_of_N 12)
  else if (n =? 110)%N then Some (ascii_of_N 10)
  else if (n =? 114)%N then Some (ascii_of_N 13)
  else if (n =? 116)%N then Some (ascii_of_N 9)
  else None.

Definition prepend (p : string) (r : option (string * string))
  : option (string * string) :=
  match r with
  | Some (s, rest) => Some (p ++ s, rest)
  | None => None
  end.

(** The low half of a surrogate pair written as an escape at the head of
    [s], and what follows it. *)
Definition low_surrogate_escape (s : string) : option N :=
  match s with
  | String b (String u (String l1 (String l2 (String l3 (String l4 _))))) =>
      if Ascii.eqb b backslash && Ascii.eqb u "u" then
        match hex4 l1 l2 l3 l4 with
        | Some lo => if is_low_surrogate lo then Some lo else None
        | None => None
        end
      else None
  | _ => None
  end.

(** The characters of a string token after its opening quote, up to and
    including the closing quote. *)
Fixpoint parse_string_body (s : string) : option (string * string) :=
  match s with
  | EmptyString => None
  | String c rest =>
      if Ascii.eqb c dquote then Some (EmptyString, rest)
      else if Ascii.eqb c backslash then
        match rest with
        | EmptyString => None
        | String e rest1 =>
            if Ascii.eqb e "u" then
              match rest1 with
              | String h1 (String h2 (String h3 (String h4 rest2))) =>
                  match hex4 h1 h2 h3 h4 with
                  | None => None
                  | Some u =>
                      match rest2 with
                      | String _ (String _ (String _ (String _
                          (String _ (String _ rest3))))) =>
                          match
                            (if is_high_surrogate u
                             then low_surrogate_escape rest2 else None)
                          with
                          | Some lo =>
                              prepend (utf8_encode (surrogate_pair u lo))
                                (parse_string_body rest3)
                          | None =>
                              prepend (utf8_encode u) (parse_string_body rest2)
                          end
                      | _ => prepend (utf8_encode u) (parse_string_body rest2)
                      end
                  end
              | _ => None
              end
            else
              match simple_escape e with
              | Some ch =>
                  prepend (String ch EmptyString) (parse_string_body rest1)
              | None => None
              end
        end
      else if (code c <? 32)%N then None
      else prepend (String c EmptyString) (parse_string_body rest)
  end.

(** [strip_prefix p s]: [s] without its prefix [p], when it has it. *)
Fixpoint strip_prefix (p s : string) : option string :=
  match p with
  | EmptyString => Some s
  | String a p' =>
      match s with
      | String b s' => if Ascii.eqb a b then strip_prefix p' s' else None
      | EmptyString => None
      end
  end.

Definition parse_keyword (kw : string) (v : value) (s : string)
  : presult value :=
  match strip_prefix kw s with
  | Some rest => POk v rest
  | None => PErr
  end.

(** The recursive-descent parser.  [parse_elements] reads the elements of
    a non-empty array up to its closing bracket, [parse_members] the
    members of a non-empty object up to its closing brace, in text order. *)
Fixpoint parse_value (fuel : nat) (s : string) {struct fuel} : presult value :=
  match fuel with
  | O => PFuel
  | S fuel' =>
      match skip_ws s with
      | EmptyString => PErr
      | String c rest =>
          if Ascii.eqb c "{" then
            match skip_ws rest with
            | EmptyString => PErr
            | String c' rest' =>
                if Ascii.eqb c' "}" then POk (JObject []) rest'
                else
                  match parse_members fuel' rest with
                  | POk ms r => POk (JObject (build_object ms)) r
                  | PErr => PErr
                  | PFuel => PFuel
                  end
            end
          else if Ascii.eqb c "[" then
            match skip_ws rest with
            | EmptyString => PErr
            | String c' rest' =>
                if Ascii.eqb c' "]" then POk (JArray []) rest'
                else
                  match parse_elements fuel' rest with
                  | POk vs r => POk (JArray vs) r
                  | PErr => PErr
                  | PFuel => PFuel
                  end
            end
          else if Ascii.eqb c dquote then
            match parse_string_body rest with
            | Some (str, r) => POk (JString str) r
            | None => PErr
            end
          else if Ascii.eqb c "t" then parse_keyword "rue" (JBool true) rest
          else if Ascii.eqb c "f" then parse_keyword "alse" (JBool false) rest
          else if Ascii.eqb c "n" then parse_keyword "ull" JNull rest
          else
            match parse_number (String c rest) with
            | Some (v, r) => POk v r
            | None => PErr
            end
      end
  end
with parse_elements (fuel : nat) (s : string) {struct fuel}
  : presult (list value) :=
  match fuel with
  | O => PFuel
  | S fuel' =>
      match parse_value fuel' s with
      | POk v rest =>
          match skip_ws rest with
          | EmptyString => PErr
          | String c rest' =>
              if Ascii.eqb c "," then
                match parse_elements fuel' rest' with
                | POk vs r => POk (v :: vs) r
                | PErr => PErr
                | PFuel => PFuel
                end
              else if Ascii.eqb c "]" then POk [v] rest'
              else PErr
          end
      | PErr => PErr
      | PFuel => PFuel
      end
  end
with parse_members (fuel : nat) (s : string) {struct fuel}
  : presult (list (string * value)) :=
  match fuel with
  | O => PFuel
  | S fuel' =>
      match skip_ws s with
      | EmptyString => PErr
      | String c rest =>
          if Ascii.eqb c dquote then
            match parse_string_body rest with
            | None => PErr
            | Some (k, rest1) =>
                match skip_ws rest1 with
                | EmptyString => PErr
                | String c1 rest2 =>
                    if Ascii.eqb c1 ":" then
                      match parse_value fuel' rest2 with
                      | POk v rest3 =>
                          match skip_ws rest3 with
                          | EmptyString => PErr
                          | String c3 rest4 =>
                              if Ascii.eqb c3 "," then
                                match parse_members fuel' rest4 with
                                | POk ms r => POk ((k, v) :: ms) r
                                | PErr => PErr
                                | PFuel => PFuel
                                end
                              else if Ascii.eqb c3 "}" then POk [(k, v)] rest4
                              else PErr
                          end
                      | PErr => PErr
                      | PFuel => PFuel
                      end
                    else PErr
                end
            end
          else PErr
      end
  end.

(** Fuel that is enough for any text of this length. *)
Definition parse_fuel (text : string) : nat := S (2 * String.length text).

(** [JSON.parse(text)]: one value between optional white space.  The
    error is a [SyntaxError]; its message, which differs from one engine
    to the next, stands for any. *)
Definition parse (text : string) : completion Error value :=
  match parse_value (parse_fuel text) text with
  | POk v rest =>
      if is_empty (skip_ws rest) then Normal v
      else Throw (SyntaxError "Unexpected non-whitespace character after JSON")
  | PErr => Throw (SyntaxError "Unexpected token in JSON")
  | PFuel => Throw (mkError "RangeError" "Maximum call stack size exceeded")
  end.


(** *** Notions used to state the properties of the parser *)

(** The three parsing functions never run out of fuel when the fuel
    exceeds twice the length of the input, and they consume input. *)
Definition fuel_ok {A} (slack : nat) (f : nat -> string -> presult A)
    (fuel : nat) : Prop :=
  forall s, (2 * String.length s + slack <= fuel)%nat ->
    f fuel s <> PFuel /\
    forall a r, f fuel s = POk a r -> (String.length r < String.length s)%nat.

(** The input that may follow a number token: not a character that would
    extend it. *)
Definition delimited (rest : string) : bool :=
  match rest with
  | EmptyString => true
  | String c _ =>
      negb (is_digit c || Ascii.eqb c "." || Ascii.eqb c "e" || Ascii.eqb c "E")
  end.

(** [reads_back s v]: followed by anything that cannot extend a number,
    the text [s] is read as the value [v], given fuel. *)
Definition reads_back (s : string) (v : value) : Prop :=
  forall fuel rest, delimited rest = true ->
    parse_value fuel (s ++ rest) = PFuel \/
    parse_value fuel (s ++ rest) = POk v rest.

(** The characters a value can start with. *)
Definition value_start (c : ascii) : bool :=
  is_digit c || Ascii.eqb c "-" || Ascii.eqb c dquote || Ascii.eqb c "["
  || Ascii.eqb c "{" || Ascii.eqb c "t" || Ascii.eqb c "f" || Ascii.eqb c "n".

Definition starts_value (s : string) : Prop :=
  exists c r, s = String c r /\ value_start c = true.

(** The parts of a number token after its integer part: a fraction
    (none for no digits) and an exponent. *)
Definition fraction_text (fp : string) : string :=
  if is_empty fp then EmptyString else String "." fp.

Definition exponent_text (ex : option Z) : string :=
  match ex with
  | None => EmptyString
  | Some z =>
      let sign := if (0 <? z)%Z then "+" else "-" in
      String "e" (sign ++ string_of_N (Z.abs_N z))%string
  end.

Definition exponent_value (ex : option Z) : Z :=
  match ex with
  | None => 0%Z
  | Some z => z
  end.

(** The text of one member of an object. *)
Definition member_text (k t : string) : string :=
  QuoteJSONString k ++ ":" ++ t.

(** What the serializer writes for a serializable value. *)
Definition writes (v : value) (s : string) : Prop :=
  SerializeJSONProperty v = Normal (Some s) /\ reads_back s v /\ starts_value s.

End JSON.

(** ** Percent-encoding and URLs *)

Module URI.

Import Js Chars.

Definition URIError : Error := mkError "URIError" "URI malformed".

(** State of the decoder: between characters, or inside a multi-byte
    character with [need] continuation bytes still to come. *)
Inductive decoder : Type :=
| Idle
| Inside (octets : list N) (need : nat).

(** Number of continuation bytes a lead byte announces. *)
Definition continuation_count (b : N) : option nat :=
  if (b <? 192)%N then None
  else if (b <? 224)%N then Some 1%nat
  else if (b <? 240)%N then Some 2%nat
  else if (b <? 248)%N then Some 3%nat
  else None.

Definition is_continuation (b : N) : bool :=
  (128 <=? b)%N && (b <? 192)%N.

(** The octets are the UTF-8 encoding of a code point: shortest form, no
    surrogate, at most U+10FFFF. *)
Definition valid_utf8 (octets : list N) : bool :=
  match octets with
  | [b0; b1] =>
      (128 <=? (b0 - 192) * 64 + (b1 - 128))%N
  | [b0; b1; b2] =>
      let cp := ((b0 - 224) * 4096 + (b1 - 128) * 64 + (b2 - 128))%N in
      (2048 <=? cp)%N && negb ((55296 <=? cp)%N && (cp <=? 57343)%N)
  | [b0; b1; b2; b3] =>
      let cp := ((b0 - 240) * 262144 + (b1 - 128) * 4096
                 + (b2 - 128) * 64 + (b3 - 128))%N in
      (65536 <=? cp)%N && (cp <=? 1114111)%N
  | _ => false
  end.

Fixpoint string_of_octets (octets : list N) : string :=
  match octets with
  | [] => EmptyString
  | b :: rest => String (ascii_of_N b) (string_of_octets rest)
  end.

Definition option_prepend (p : string) (r : option string) : option string :=
  match r with
  | Some s => Some (p ++ s)
  | None => None
  end.

Fixpoint decode (st : decoder) (s : string) : option string :=
  match s with
  | EmptyString =>
      match st with
      | Idle => Some EmptyString
      | Inside _ _ => None
      end
  | String c rest =>
      if Ascii.eqb c "%" then
        match rest with
        | String h1 (String h2 rest') =>
            match hex_val h1, hex_val h2 with
            | Some a, Some b =>
                let byte := (16 * a + b)%N in
                match st with
                | Idle =>
                    if (byte <? 128)%N then
                      option_prepend (String (ascii_of_N byte) EmptyString)
                        (decode Idle rest')
                    else
                      match continuation_count byte with
                      | Some n => decode (Inside [byte] n) rest'
                      | None => None
                      end
                | Inside octets need =>
                    if is_continuation byte then
                      match need with
                      | O => None
                      | S O =>
                          if valid_utf8 (octets ++ [byte]) then
                            option_prepend
                              (string_of_octets (octets ++ [byte]))
                              (decode Idle rest')
                          else None
                      | S need' => decode (Inside (octets ++ [byte])%list need') rest'
                      end
                    else None
                end
            | _, _ => None
            end
        | _ => None
        end
      else
        match st with
        | Idle => option_prepend (String c EmptyString) (decode Idle rest)
        | Inside _ _ => None
        end
  end.

(** [decodeURIComponent(s)]. *)
Definition decodeURIComponent (s : string) : completion Error string :=
  match decode Idle s with
  | Some r => Normal r
  | None => Throw URIError
  end.

(** The [application/x-www-form-urlencoded] byte serializer. *)
Definition urlencode_byte (c : ascii) : string :=
  let n := code c in
  if is_alnum c || (n =? 42)%N || (n =? 45)%N || (n =? 46)%N || (n =? 95)%N
  then String c EmptyString
  else if (n =? 32)%N then "+"
  else
    String "%"
      (String (hex_digit_of true (n / 16))
         (String (hex_digit_of true (n mod 16)) EmptyString)).

Fixpoint urlencode (s : string) : string :=
  match s with
  | EmptyString => EmptyString
  | String c s' => urlencode_byte c ++ urlencode s'
  end.

Fixpoint urlencoded_serialize (l : list (string * string)) : string :=
  match l with
  | [] => EmptyString
  | [(k, v)] => urlencode k ++ "=" ++ urlencode v
  | (k, v) :: rest =>
      urlencode k ++ "=" ++ urlencode v ++ "&" ++ urlencoded_serialize rest
  end.

(** A parsed URL: everything before the query as it is serialized, the
    query, the list of the URL's [searchParams] object, the fragment. *)
Record URL : Type := mkURL {
  url_prefix : string;
  url_query : option string;
  url_searchParams : list (string * string);
  url_fragment : option string
}.

(** [url.searchParams.append(name, value)]: the pair goes to the end of
    the list and the URL's query becomes the serialization of the list. *)
Definition searchParams_append (name value : string) (u : URL) : URL :=
  let l := (url_searchParams u ++ [(name, value)])%list in
  let q := urlencoded_serialize l in
  {| url_prefix := url_prefix u;
     url_query := if String.eqb q EmptyString then None else Some q;
     url_searchParams := l;
     url_fragment := url_fragment u |}.

(** [url.toString()]. *)
Definition toString (u : URL) : string :=
  url_prefix u
    ++ match url_query u with
       | Some q => String "?" q
       | None => EmptyString
       end
    ++ match url_fragment u with
       | Some f => String "#" f
       | None => EmptyString
       end.

End URI.

(** ** [src/errors.ts] *)

Module Errors.

Import Js Chars JSON.

Inductive APIErrorCode : Type :=
| Unauthorized
| RestrictedResource
| ObjectNotFound
| RateLimited
| InvalidJSON
| InvalidRequestURL
| InvalidRequest
| ValidationError
| ConflictError
| InternalServerError
| ServiceUnavailable.

(** The string each member of the enum stands for. *)
Definition APIErrorCode_value (c : APIErrorCode) : string :=
  match c with
  | Unauthorized => "unauthorized"
  | RestrictedResource => "restricted_resource"
  | ObjectNotFound => "object_not_found"
  | RateLimited => "rate_limited"
  | InvalidJSON => "invalid_json"
  | InvalidRequestURL => "invalid_request_url"
  | InvalidRequest => "invalid_request"
  | ValidationError => "validation_error"
  | ConflictError => "conflict_error"
  | InternalServerError => "internal_server_error"
  | ServiceUnavailable => "service_unavailable"
  end.

Inductive ClientErrorCode : Type :=
| RequestTimeout
| ResponseError.

Definition ClientErrorCode_value (c : ClientErrorCode) : string :=
  match c with
  | RequestTimeout => "request_timeout"
  | ResponseError => "response_error"
  end.

(** Modelled from the spec: the header collection of a response
    ([SupportedResponse["headers"]] of [src/types/fetch-types], which is
    not among the sources).  This layer only carries it along. *)
Definition Headers : Type := list (string * string).

(** The fields of an [HTTPResponseError]. *)
Record HTTPResponseError : Type := mkHTTPResponseError {
  code : string;
  err_status : Z;
  message : string;
  err_headers : Headers;
  body : string
}.

(** The instances of [clientBaseError], by class. *)
Inductive clientError : Type :=
| RequestTimeoutError (msg : string)
| UnknownHTTPResponseError (e : HTTPResponseError)
| APIResponseError (e : HTTPResponseError).

(** The [name] and the [code] of an instance. *)
Definition name (e : clientError) : string :=
  match e with
  | RequestTimeoutError _ => "RequestTimeoutError"
  | UnknownHTTPResponseError _ => "UnknownHTTPResponseError"
  | APIResponseError _ => "APIResponseError"
  end.

Definition error_code (e : clientError) : string :=
  match e with
  | RequestTimeoutError _ => ClientErrorCode_value RequestTimeout
  | UnknownHTTPResponseError f | APIResponseError f => code f
  end.

(** Anything that can be thrown: an error of the client, or a foreign
    error object. *)
Inductive thrown : Type :=
| ClientError (e : clientError)
| Foreign (e : Error).

(** Modelled from the spec: [SupportedResponse] of [src/types/fetch-types],
    which is not among the sources: a success indicator, a numeric status,
    a header collection and an asynchronous text-read operation.  [text]
    is what the promise returned by [response.text()] does. *)
Record SupportedResponse : Type := mkResponse {
  ok : bool;
  status : Z;
  headers : Headers;
  text : promise thrown string
}.

(** [isObject(error) && error instanceof clientBaseError]. *)
Definition isClientError (error : thrown) : bool :=
  match error with
  | ClientError _ => true
  | Foreign _ => false
  end.

(** [isClientError(error) && error.code in codes], for a table [codes]
    given by its own keys. *)
Definition isClientErrorWithCode (error : thrown) (codes : list string) : bool :=
  match error with
  | ClientError e => has_property codes (error_code e)
  | Foreign _ => false
  end.

Definition all_APIErrorCode : list APIErrorCode :=
  [ Unauthorized; RestrictedResource; ObjectNotFound; RateLimited; InvalidJSON;
    InvalidRequestURL; InvalidRequest; ValidationError; ConflictError;
    InternalServerError; ServiceUnavailable ].

(** Own keys of the table [apiErrorCodes]. *)
Definition apiErrorCodes : list string :=
  map APIErrorCode_value all_APIErrorCode.

(** Own keys of the table [httpResponseErrorCodes]. *)
Definition httpResponseErrorCodes : list string :=
  ClientErrorCode_value ResponseError :: apiErrorCodes.

Definition isHTTPResponseError (error : thrown) : bool :=
  if negb (isClientErrorWithCode error httpResponseErrorCodes) then false
  else true.

(** [UnknownHTTPResponseError.isUnknownHTTPResponseError] and
    [APIResponseError.isAPIResponseError]. *)
Definition isUnknownHTTPResponseError (error : thrown) : bool :=
  isClientErrorWithCode error [ClientErrorCode_value ResponseError].

Definition isAPIResponseError (error : thrown) : bool :=
  isClientErrorWithCode error apiErrorCodes.

(** Constructor of [UnknownHTTPResponseError]. *)
Definition new_UnknownHTTPResponseError (status : Z) (message : option string)
    (headers : Headers) (rawBodyText : string) : clientError :=
  UnknownHTTPResponseError
    {| code := ClientErrorCode_value ResponseError;
       err_status := status;
       message :=
         match message with
         | Some m => m
         | None => "Request failed with status: " ++ string_of_Z status
         end;
       err_headers := headers;
       body := rawBodyText |}.

(** Constructor of [APIResponseError] (inherited from [HTTPResponseError]). *)
Definition new_APIResponseError (code : string) (message : string)
    (headers : Headers) (status : Z) (rawBodyText : string) : clientError :=
  APIResponseError
    {| code := code;
       err_status := status;
       message := message;
       err_headers := headers;
       body := rawBodyText |}.

(** Modelled from the spec: [isObject] of [src/utils/utils], which is not
    among the sources.  The spec calls what it accepts a plain key-value
    mapping. *)
Definition isObject (v : value) : bool :=
  match v with
  | JObject _ => true
  | _ => false
  end.

(** [typeof code === "string" && code in apiErrorCodes]. *)
Definition isAPIErrorCode (code : value) : bool :=
  match code with
  | JString c => has_property apiErrorCodes c
  | _ => false
  end.

(** What [parseAPIErrorResponseBody] returns on a match: the parsed object
    spread, with its [code] and [message]. *)
Record APIErrorResponseBody : Type := mkAPIErrorResponseBody {
  parsed_fields : list (string * value);
  parsed_code : string;
  parsed_message : string
}.

(** [parseAPIErrorResponseBody]: [None] stands for [undefined].  The
    argument is any value, as the function tests its type first; a parse
    error is caught and gives no match. *)
Definition parseAPIErrorResponseBody (body : value)
  : option APIErrorResponseBody :=
  match body with
  | JString text =>
      match JSON.parse text with
      | Throw parseError => None
      | Normal parsed =>
          if negb (isObject parsed)
             || negb (String.eqb (typeof (get parsed "message")) "string")
             || negb (isAPIErrorCode (get parsed "code"))
          then None
          else
            match parsed, get parsed "code", get parsed "message" with
            | JObject fields, JString c, JString m =>
                Some {| parsed_fields := fields;
                        parsed_code := c;
                        parsed_message := m |}
            | _, _, _ => None
            end
      end
  | _ => None
  end.

Definition buildRequestError (response : SupportedResponse)
    (bodyText : string) : clientError :=
  match parseAPIErrorResponseBody (JString bodyText) with
  | Some apiErrorResponseBody =>
      new_APIResponseError
        (parsed_code apiErrorResponseBody)
        (parsed_message apiErrorResponseBody)
        (headers response) (status response) bodyText
  | None =>
      new_UnknownHTTPResponseError (status response) None
        (headers response) bodyText
  end.

(** *** The timeout race *)

(** What the event loop delivers to one call of [rejectAfterTimeout]: the
    delay of the timer has elapsed, or the raced promise has settled. *)
Inductive event (A : Type) : Type :=
| DelayElapsed
| PromiseSettles (s : settlement thrown A).
Arguments DelayElapsed {A}.
Arguments PromiseSettles {A} s.

(** A promise handed to the race, by the millisecond in which it settles,
    counted from the call of [rejectAfterTimeout]: [0] for a promise that
    is settled already, [ms] for one that settles in the course of
    millisecond number [ms], the time that has passed rounded up. *)
Inductive timed (A : Type) : Type :=
| NeverSettles
| SettlesAt (ms : Z) (s : settlement thrown A).
Arguments NeverSettles {A}.
Arguments SettlesAt {A} ms s.

(** [setTimeout(callback, delay)] on Node.js, the platform of the
    transport and of the connection agent: a delay below 1 or above
    2^31 - 1 is replaced by 1. *)
Definition TIMEOUT_MAX : Z := 2147483647.

Definition timer_delay (delay : Z) : Z :=
  if ((1 <=? delay)%Z && (delay <=? TIMEOUT_MAX)%Z)%bool then delay else 1.

(** [settles_within ms p]: the promise is settled when [ms] milliseconds
    have passed. *)
Definition settles_within {A} (ms : Z) (p : timed A) : bool :=
  match p with
  | NeverSettles => false
  | SettlesAt at_ms _ => (at_ms <=? ms)%Z
  end.

(** State of one race: the promise handed back to the caller ([None] while
    pending) and the timer ([Some ms] while armed with delay [ms]). *)
Record race (A : Type) : Type := mkRace {
  outer : option (settlement thrown A);
  timer : option Z
}.
Arguments mkRace {A} outer timer.
Arguments outer {A} r.
Arguments timer {A} r.

(** [resolve] and [reject] of the promise constructor: the first call
    settles the promise, later calls do nothing. *)
Definition resolve {A} (v : A) (r : race A) : race A :=
  match outer r with
  | None => mkRace (Some (Fulfilled v)) (timer r)
  | Some _ => r
  end.

Definition reject {A} (e : thrown) (r : race A) : race A :=
  match outer r with
  | None => mkRace (Some (Rejected e)) (timer r)
  | Some _ => r
  end.

Definition clearTimeout {A} (r : race A) : race A :=
  mkRace (outer r) None.

Definition new_RequestTimeoutError : clientError :=
  RequestTimeoutError "Request has timed out".

(** The timer callback runs only while the timer is armed, and once. *)
Definition on_delay_elapsed {A} (r : race A) : race A :=
  match timer r with
  | Some _ => reject (ClientError new_RequestTimeoutError) (mkRace (outer r) None)
  | None => r
  end.

(** [promise.then(resolve).catch(reject).then(() => clearTimeout(timeoutId))] *)
Definition on_promise_settles {A} (s : settlement thrown A) (r : race A)
  : race A :=
  clearTimeout
    match s with
    | Fulfilled v => resolve v r
    | Rejected e => reject e r
    end.

(** One event of the race. *)
Definition step {A} (r : race A) (ev : event A) : race A :=
  match ev with
  | DelayElapsed => on_delay_elapsed r
  | PromiseSettles s => on_promise_settles s r
  end.

(** The events of a call, in the order of their dispatch. *)
Definition dispatch {A} (evs : list (event A)) (r : race A) : race A :=
  fold_left step evs r.

(** The race as the promise constructor leaves it: the promise handed back
    is pending and the timer is armed with the delay that [setTimeout]
    makes of [timeoutMS]. *)
Definition armed {A} (timeoutMS : Z) : race A :=
  mkRace None (Some (timer_delay timeoutMS)).

(** The order in which the event loop delivers the events of a race: the
    reactions of the promise come when the promise settles, the callback
    of the timer no earlier than the delay it is armed with.  A promise
    that settles in the course of the last millisecond of the delay comes
    before the timer. *)
Definition schedule {A} (r : race A) (p : timed A) : list (event A) :=
  match timer r, p with
  | Some delay, SettlesAt ms s =>
      if (ms <=? delay)%Z then [PromiseSettles s; DelayElapsed]
      else [DelayElapsed; PromiseSettles s]
  | Some _, NeverSettles => [DelayElapsed]
  | None, SettlesAt _ s => [PromiseSettles s]
  | None, NeverSettles => []
  end.

(** [RequestTimeoutError.rejectAfterTimeout(promise, timeoutMS)]: the state
    of the race once the event loop has delivered the events. *)
Definition rejectAfterTimeout {A} (promise : timed A) (timeoutMS : Z) : race A :=
  let r := armed timeoutMS in
  dispatch (schedule r promise) r.

(** What [await] sees of the promise handed back. *)
Definition await {A} (r : race A) : Js.promise thrown A :=
  match outer r with
  | Some s => Settled s
  | None => Pending
  end.

End Errors.

(** ** The client class *)

Module Client.

Import Js Chars JSON URI Errors.

(** The connection-agent handle ([Agent] of the http module): opaque to
    this layer. *)
Record Agent : Type := mkAgent { agent_id : nat }.

(** The options handed to the transport. *)
Record RequestInit : Type := mkRequestInit {
  init_method : string;
  init_headers : gmap string string;
  init_body : option string;
  init_agent : option Agent
}.

(** Modelled from the spec: [SupportedFetch] of [src/types/fetch-types],
    which is not among the sources: a function of a URL string and of the
    request options to a promise of a response.  A call of the transport
    throws at once, or returns a promise; the promise is given by the time
    at which it settles and by how it settles. *)
Inductive fetch_result : Type :=
| FetchThrows (e : thrown)
| FetchPromise (p : timed SupportedResponse).

Definition SupportedFetch : Type := string -> RequestInit -> fetch_result.

Record Options : Type := mkOptions {
  opt_auth : option (gmap string string);
  opt_timeoutMs : option Z;
  opt_baseUrl : option string;
  opt_fetch : option SupportedFetch;
  opt_agent : option Agent
}.

Inductive Method : Type :=
| Get
| Post
| Patch
| Delete.

Definition Method_value (m : Method) : string :=
  match m with
  | Get => "get"
  | Post => "post"
  | Patch => "patch"
  | Delete => "delete"
  end.

(** A value of a query record: [string | number | string[]], or absent. *)
Inductive QueryValue : Type :=
| QUndefined
| QString (s : string)
| QNumber (n : Number.number)
| QArray (vals : list string).

(** [QueryParams]: a record, given by its entries in enumeration order, or
    a [URLSearchParams] instance, given by the pairs it holds. *)
Inductive QueryParams : Type :=
| QRecord (entries : list (string * QueryValue))
| QURLSearchParams (pairs : list (string * string)).

(** [Object.entries(query)]: the own enumerable string-keyed properties.
    A [URLSearchParams] instance has none: its pairs are internal state. *)
Definition Object_entries (query : QueryParams) : list (string * QueryValue) :=
  match query with
  | QRecord entries => entries
  | QURLSearchParams _ => []
  end.

Record RequestParameters : Type := mkRequestParameters {
  path : string;
  method : Method;
  query : option QueryParams;
  body : option (list (string * value));
  auth : option (string * string)
}.

(** The private fields of a client. *)
Record Client : Type := mkClient {
  c_auth : option (gmap string string);
  c_prefixUrl : string;
  c_timeoutMs : Z;
  c_fetch : SupportedFetch;
  c_agent : option Agent;
  c_userAgent : string
}.

Definition or_default {A} (o : option A) (d : A) : A :=
  match o with
  | Some a => a
  | None => d
  end.

(** What [request] hands to the transport. *)
Record WireRequest : Type := mkWireRequest {
  wire_url : string;
  wire_init : RequestInit
}.

Section WithPlatform.

(** [new URL(s)]: the parser of the platform, which throws on a string
    that is not an absolute URL. *)
Variable new_URL : string -> completion Error URL.

(** The default transport and the version in [package.json]. *)
Variable nodeFetch : SupportedFetch.
Variable PACKAGE_VERSION : string.

Definition constructor (options : option Options) : Client :=
  {| c_auth := match options with Some o => opt_auth o | None => None end;
     c_prefixUrl :=
       or_default (match options with Some o => opt_baseUrl o | None => None end)
         EmptyString;
     c_timeoutMs :=
       or_default (match options with Some o => opt_timeoutMs o | None => None end)
         60000;
     c_fetch :=
       or_default (match options with Some o => opt_fetch o | None => None end)
         nodeFetch;
     c_agent := match options with Some o => opt_agent o | None => None end;
     c_userAgent := "anteraja-client/" ++ PACKAGE_VERSION |}.

(** Lines 49-52: the body as a JSON string, or [undefined]. *)
Definition bodyAsJsonString (body : option (list (string * value)))
  : completion Error (option string) :=
  match body with
  | None => Normal None
  | Some fields =>
      if (List.length fields =? 0)%nat then Normal None
      else JSON.stringify (JObject fields)
  end.

(** Lines 60-62: [value.forEach(val => url.searchParams.append(key,
    decodeURIComponent(val)))]. *)
Fixpoint append_array (key : string) (vals : list string) (url : URL)
  : completion Error URL :=
  match vals with
  | [] => Normal url
  | val :: rest =>
      let* decoded := decodeURIComponent val in
      append_array key rest (searchParams_append key decoded url)
  end.

(** Lines 58-66: one entry of the query. *)
Definition append_entry (url : URL) (entry : string * QueryValue)
  : completion Error URL :=
  let (key, value) := entry in
  match value with
  | QUndefined => Normal url
  | QArray vals => append_array key vals url
  | QString s => Normal (searchParams_append key s url)
  | QNumber n => Normal (searchParams_append key (Number.toString n) url)
  end.

Fixpoint append_entries (entries : list (string * QueryValue)) (url : URL)
  : completion Error URL :=
  match entries with
  | [] => Normal url
  | entry :: rest =>
      let* url' := append_entry url entry in
      append_entries rest url'
  end.

(** Lines 56-68. *)
Definition append_query (query : option QueryParams) (url : URL)
  : completion Error URL :=
  match query with
  | Some q => append_entries (Object_entries q) url
  | None => Normal url
  end.

(** Lines 70-77. *)
Definition build_headers (c : Client) (bodyAsJsonString : option string)
  : gmap string string :=
  let headers : gmap string string :=
    <["user-agent" := c_userAgent c]> (or_default (c_auth c) ∅) in
  match bodyAsJsonString with
  | Some _ => <["content-type" := "application/json"]> headers
  | None => headers
  end.

(** Lines 54-68: the URL object, with the query appended. *)
Definition assemble_url (c : Client) (p : RequestParameters)
  : completion Error URL :=
  let* url := new_URL (c_prefixUrl c ++ path p) in
  append_query (query p) url.

(** Lines 49-86: the request as it is handed to the transport. *)
Definition build_request (c : Client) (p : RequestParameters)
  : completion Error WireRequest :=
  let* bodyAsJsonString := bodyAsJsonString (body p) in
  let* url := assemble_url c p in
  let headers := build_headers c bodyAsJsonString in
  Normal
    {| wire_url := toString url;
       wire_init :=
         {| init_method := toUpperCase (Method_value (method p));
            init_headers := headers;
            init_body := bodyAsJsonString;
            init_agent := c_agent c |} |}.

(** Lines 80-97: the body of the [try] block. *)
Definition attempt (c : Client) (w : WireRequest) : promise thrown value :=
  match c_fetch c (wire_url w) (wire_init w) with
  | FetchThrows e => Settled (Rejected e)
  | FetchPromise p =>
      match await (rejectAfterTimeout p (c_timeoutMs c)) with
      | Pending => Pending
      | Settled (Rejected e) => Settled (Rejected e)
      | Settled (Fulfilled response) =>
          match text response with
          | Pending => Pending
          | Settled (Rejected e) => Settled (Rejected e)
          | Settled (Fulfilled responseText) =>
              if negb (ok response) then
                Settled (Rejected
                  (ClientError (buildRequestError response responseText)))
              else
                match JSON.parse responseText with
                | Throw e => Settled (Rejected (Foreign e))
                | Normal responseJson => Settled (Fulfilled responseJson)
                end
          end
      end
  end.

(** The [catch] block of lines 98-104. *)
Definition rethrow (p : promise thrown value) : promise thrown value :=
  match p with
  | Settled (Rejected error) =>
      if negb (isClientError error) then Settled (Rejected error)
      else Settled (Rejected error)
  | _ => p
  end.

(** [Client.request]. *)
Definition request (c : Client) (p : RequestParameters)
  : promise thrown value :=
  match build_request c p with
  | Throw e => Settled (Rejected (Foreign e))
  | Normal w => rethrow (attempt c w)
  end.

End WithPlatform.

End Client.

(** ** Calls in sequence *)

(** The client with the objects it shares with its caller and with its own
    calls held in a store, by reference, and with a transport that has a
    memory.  A call is a step from one state to the next. *)
Module Session.

Import Js Chars JSON URI Errors Client.

(** An object with string properties is reached through a reference; the
    store holds what each reference points to. *)
Abbreviation ref := positive (only parsing).

Abbreviation store := (gmap positive (gmap string string)) (only parsing).

Definition get_object (r : ref) (objects : store) : gmap string string :=
  default ∅ (objects !! r).

(** An object literal: a new object, under a reference not in use. *)
Definition new_object (properties : gmap string string) (objects : store)
  : ref * store :=
  let r := fresh (dom objects : gset ref) in
  (r, <[r := properties]> objects).

(** [o[k] = v]: a write into the object that [r] points to. *)
Definition set_property (r : ref) (k v : string) (objects : store) : store :=
  <[r := <[k := v]> (get_object r objects)]> objects.

(** The state between calls: the objects, and the requests handed to the
    transport so far. *)
Record state : Type := mkState {
  objects : store;
  handed : list WireRequest
}.

(** A transport whose answer may depend on the requests it was handed
    before. *)
Definition Transport : Type := list WireRequest -> SupportedFetch.

(** The private fields of a client: [#auth] is a reference to the object
    given to the constructor. *)
Record ClientObject : Type := mkClientObject {
  o_auth : option ref;
  o_prefixUrl : string;
  o_timeoutMs : Z;
  o_fetch : Transport;
  o_agent : option Agent;
  o_userAgent : string
}.

(** The client as one call sees it: the properties the auth object has at
    the time of the call, and the transport as it answers then. *)
Definition view (c : ClientObject) (st : state) : Client.Client :=
  {| c_auth :=
       match o_auth c with
       | Some a => Some (get_object a (objects st))
       | None => None
       end;
     c_prefixUrl := o_prefixUrl c;
     c_timeoutMs := o_timeoutMs c;
     c_fetch := o_fetch c (handed st);
     c_agent := o_agent c;
     c_userAgent := o_userAgent c |}.

Section WithPlatform.

Variable new_URL : string -> completion Error URL.

(** Lines 70-77: [headers] is a new object that receives the properties of
    the auth object and the user agent, and then, for a call with a body,
    the content type. *)
Definition make_headers (c : ClientObject) (bodyAsJsonString : option string)
    (objects : store) : ref * store :=
  let spread :=
    match o_auth c with
    | Some a => get_object a objects
    | None => ∅
    end in
  let (headers, objects1) :=
    new_object (<["user-agent" := o_userAgent c]> spread) objects in
  match bodyAsJsonString with
  | Some _ =>
      (headers, set_property headers "content-type" "application/json" objects1)
  | None => (headers, objects1)
  end.

(** [Client.request] as a step: the outcome of the call and the state it
    leaves.  The transport is handed the URL and the options, whose
    headers are the object made for this call. *)
Definition request (c : ClientObject) (p : RequestParameters) (st : state)
  : promise thrown value * state :=
  match bodyAsJsonString (body p) with
  | Throw e => (Settled (Rejected (Foreign e)), st)
  | Normal bodyAsJsonString =>
      match assemble_url new_URL (view c st) p with
      | Throw e => (Settled (Rejected (Foreign e)), st)
      | Normal url =>
          let (headers, objects1) :=
            make_headers c bodyAsJsonString (objects st) in
          let w :=
            {| wire_url := toString url;
               wire_init :=
                 {| init_method := toUpperCase (Method_value (method p));
                    init_headers := get_object headers objects1;
                    init_body := bodyAsJsonString;
                    init_agent := o_agent c |} |} in
          (rethrow (attempt (view c st) w),
           {| objects := objects1; handed := (handed st ++ [w])%list |})
      end
  end.

(** Two calls with the same descriptor, one after the other:
    [await client.request(p); await client.request(p)]. *)
Definition request_twice (c : ClientObject) (p : RequestParameters)
    (st : state)
  : promise thrown value * promise thrown value * state :=
  let (first, st1) := request c p st in
  let (second, st2) := request c p st1 in
  (first, second, st2).

End WithPlatform.

(** The transport, asked after the requests [history], hands the response
    [r] to the call: its promise fulfils with [r] before the timer of the
    call fires. *)
Definition hands (c : ClientObject) (history : list WireRequest)
    (w : WireRequest) (r : SupportedResponse) : Prop :=
  exists ms,
    o_fetch c history (wire_url w) (wire_init w)
    = FetchPromise (SettlesAt ms (Fulfilled r)) /\
    (ms <= timer_delay (o_timeoutMs c))%Z.

(** The outcome that the classification of the response [r] gives, field
    by field. *)
Definition classification (r : SupportedResponse) : promise thrown value :=
  match text r with
  | Pending => Pending
  | Settled (Rejected e) => Settled (Rejected e)
  | Settled (Fulfilled bodyText) =>
      if ok r then
        match JSON.parse bodyText with
        | Normal parsed => Settled (Fulfilled parsed)
        | Throw e => Settled (Rejected (Foreign e))
        end
      else
        Settled (Rejected (ClientError
          match parseAPIErrorResponseBody (JString bodyText) with
          | Some matched =>
              APIResponseError
                {| code := parsed_code matched;
                   err_status := status r;
                   message := parsed_message matched;
                   err_headers := headers r;
                   Errors.body := bodyText |}
          | None =>
              UnknownHTTPResponseError
                {| code := "response_error";
                   err_status := status r;
                   message :=
                     "Request failed with status: " ++ string_of_Z (status r);
                   err_headers := headers r;
                   Errors.body := bodyText |}
          end))
  end.

End Session.

(** ** Notions used to state the properties of a call *)

Module Notions.

Import Js Chars JSON URI Errors Client.


(** The promise of the transport settles with [s] before the timer of the
    call fires: within the delay that the timer makes of the [timeoutMs]
    of the client. *)
Definition settles_before_timer (c : Client) (w : WireRequest)
    (s : settlement thrown SupportedResponse) : Prop :=
  exists ms,
    c_fetch c (wire_url w) (wire_init w) = FetchPromise (SettlesAt ms s) /\
    ms <= timer_delay (c_timeoutMs c).

(** The response the transport hands to the call: its promise fulfils
    before the timer of the call fires. *)
Definition delivers (c : Client) (w : WireRequest) (r : SupportedResponse)
  : Prop :=
  settles_before_timer c w (Fulfilled r).

(** The transport fails with [e]: the call of the transport throws [e], or
    its promise rejects with [e] before the timer fires. *)
Definition transport_fails (c : Client) (w : WireRequest) (e : thrown) : Prop :=
  c_fetch c (wire_url w) (wire_init w) = FetchThrows e \/
  settles_before_timer c w (Rejected e).

(** An element of an array value of the query that [decodeURIComponent]
    rejects with [e]. *)
Definition decoding_fails (q : option QueryParams) (e : Error) : Prop :=
  exists entries key vals val,
    q = Some (QRecord entries) /\ In (key, QArray vals) entries /\
    In val vals /\ decodeURIComponent val = Throw e.


(** The structured-error match in the words of the specification, to be
    compared with [parseAPIErrorResponseBody]: the body text parses to a
    plain mapping with a string [message] and a [code] that is one of the
    eleven enumerated API error codes. *)
Definition enumerated_code (c : string) : option APIErrorCode :=
  List.find (fun code => String.eqb (APIErrorCode_value code) c) all_APIErrorCode.

Definition structured_error_match (bodyText : string)
  : option (APIErrorCode * string) :=
  match JSON.parse bodyText with
  | Normal (JObject fields) =>
      match lookup_field "message" fields, lookup_field "code" fields with
      | Some (JString m), Some (JString c) =>
          match enumerated_code c with
          | Some code => Some (code, m)
          | None => None
          end
      | _, _ => None
      end
  | _ => None
  end.


(** The pairs of a list whose name is [key], in order. *)
Definition entries_for (key : string) (l : list (string * string))
  : list (string * string) :=
  List.filter (fun kv => String.eqb (fst kv) key) l.

(** [array.map(decodeURIComponent)], failing at the first element that
    does not decode. *)
Fixpoint decode_all (vals : list string) : completion Error (list string) :=
  match vals with
  | [] => Normal []
  | val :: rest =>
      let* d := decodeURIComponent val in
      let* ds := decode_all rest in
      Normal (d :: ds)
  end.

(** The pairs one entry of the query contributes, following the words of
    the specification: nothing for an absent value, one pair per element
    of an array, decoded, and one pair for a string or a number. *)
Definition entry_pairs (entry : string * QueryValue)
  : completion Error (list (string * string)) :=
  match snd entry with
  | QUndefined => Normal []
  | QArray vals =>
      let* ds := decode_all vals in
      Normal (map (fun d => (fst entry, d)) ds)
  | QString s => Normal [(fst entry, s)]
  | QNumber n => Normal [(fst entry, Number.toString n)]
  end.

Fixpoint query_pairs (entries : list (string * QueryValue))
  : completion Error (list (string * string)) :=
  match entries with
  | [] => Normal []
  | entry :: rest =>
      let* ps := entry_pairs entry in
      let* qs := query_pairs rest in
      Normal (ps ++ qs)%list
  end.

(** [searchParams.append] for each pair of a list, in order. *)
Definition append_pairs (pairs : list (string * string)) (u : URL) : URL :=
  fold_left (fun u kv => searchParams_append (fst kv) (snd kv) u) pairs u.

(** Two clients with the same configuration, the transport apart. *)
Definition same_configuration (c1 c2 : Client) : Prop :=
  c_auth c1 = c_auth c2 /\ c_prefixUrl c1 = c_prefixUrl c2 /\
  c_timeoutMs c1 = c_timeoutMs c2 /\ c_agent c1 = c_agent c2 /\
  c_userAgent c1 = c_userAgent c2.

(** The request descriptor with another query. *)
Definition with_query (p : RequestParameters) (q : option QueryParams)
  : RequestParameters :=
  {| path := path p; method := method p; query := q; body := body p;
     auth := auth p |}.

End Notions.

(** ** Concrete platforms, clients and calls *)

Module Examples.

Import Js Chars JSON URI Errors Client.

(** A string between double quotes. *)
Definition q (s : string) : string :=
  String dquote (s ++ String dquote EmptyString).

(** The text [JSON.stringify] gives for a value. *)
Definition json_text (v : value) : string :=
  match stringify v with
  | Normal (Some s) => s
  | _ => EmptyString
  end.

(** [s] starts with a scheme: a letter, then letters, digits, plus, minus
    and dots up to a colon. *)
Fixpoint scheme_rest (s : string) : bool :=
  match s with
  | EmptyString => false
  | String c r =>
      if Ascii.eqb c ":" then true
      else (is_alnum c || Ascii.eqb c "+" || Ascii.eqb c "-" || Ascii.eqb c ".")
           && scheme_rest r
  end.

Definition has_scheme (s : string) : bool :=
  match s with
  | EmptyString => false
  | String c r => (is_upper c || is_lower c) && scheme_rest r
  end.

(** [s] up to the first [d], and what follows that [d] if there is one. *)
Fixpoint split_first (d : ascii) (s : string) : string * option string :=
  match s with
  | EmptyString => (EmptyString, None)
  | String c r =>
      if Ascii.eqb c d then (EmptyString, Some r)
      else let (a, b) := split_first d r in (String c a, b)
  end.

Fixpoint split_all (d : ascii) (s : string) : list string :=
  match s with
  | EmptyString => [EmptyString]
  | String c r =>
      if Ascii.eqb c d then EmptyString :: split_all d r
      else
        match split_all d r with
        | x :: xs => String c x :: xs
        | [] => [String c EmptyString]
        end
  end.

Definition query_pairs_of (q : option string) : list (string * string) :=
  match q with
  | None => []
  | Some q =>
      flat_map
        (fun piece =>
           if String.eqb piece EmptyString then []
           else
             let (name, value) := split_first "=" piece in
             [(name, match value with Some v => v | None => EmptyString end)])
        (split_all "&" q)
  end.

(** A reader of absolute URLs that agrees with the parser of the platform
    on URLs that are already in serialized form and whose query uses no
    percent-encoding: scheme, then everything up to the query, the query,
    the fragment.  Like the platform, it rejects a string with no scheme. *)
Definition URL_ref (s : string) : completion Error URL :=
  if has_scheme s then
    let (before, fragment) := split_first "#" s in
    let (prefix, q) := split_first "?" before in
    Normal {| url_prefix := prefix;
              url_query := q;
              url_searchParams := query_pairs_of q;
              url_fragment := fragment |}
  else Throw (TypeError "Invalid URL").

(** A transport that answers every call the same way. *)
Definition constant_fetch (r : fetch_result) : SupportedFetch :=
  fun _ _ => r.

Definition client_of (auth : option (gmap string string)) (r : fetch_result)
  : Client.Client :=
  {| c_auth := auth;
     c_prefixUrl := "https://api.example.com";
     c_timeoutMs := 60000;
     c_fetch := constant_fetch r;
     c_agent := None;
     c_userAgent := "anteraja-client/1.0.0" |}.

Definition access_keys : gmap string string :=
  <["access-key-id" := "id"]> (<["secret-access-key" := "secret"]> ∅).

(** The call of the README, without and with a query. *)
Definition serviceRates_body : list (string * value) :=
  [ ("origin", JString "31.73.06");
    ("destination", JString "31.73.06");
    ("weight", JNumber (Number.of_Z 2000)) ].

Definition serviceRates : RequestParameters :=
  {| path := "/serviceRates"; method := Post; query := None;
     body := Some serviceRates_body; auth := None |}.

(** A call whose body holds numbers that are no integers ([2.5], [12.5],
    [0.1], [-3e21]), an array and a null. *)
Definition parcel_body : list (string * value) :=
  [ ("weight", JNumber (Number.of_decimal false 25 (-1)));
    ("insured", JBool true);
    ("size", JArray [ JNumber (Number.of_decimal false 125 (-1));
                      JNumber (Number.of_decimal false 1 (-1));
                      JNumber (Number.of_decimal true 3 21) ]);
    ("note", JNull) ].

Definition parcel : RequestParameters :=
  {| path := "/parcels"; method := Post; query := None;
     body := Some parcel_body; auth := None |}.

Definition call (path : string) (q : option QueryParams) : RequestParameters :=
  {| path := path; method := Get; query := q; body := None; auth := None |}.

Definition response_of (ok : bool) (status : Z) (bodyText : string)
  : SupportedResponse :=
  {| ok := ok; status := status;
     headers := [("content-type", "application/json")];
     text := Settled (Fulfilled bodyText) |}.

(** The body [{"code":"object_not_found","message":"not found"}]. *)
Definition not_found_text : string :=
  json_text (JObject [ ("code", JString "object_not_found");
                       ("message", JString "not found") ]).

(** The body [{"code":"toString","message":"x"}]. *)
Definition toString_text : string :=
  json_text (JObject [ ("code", JString "toString"); ("message", JString "x") ]).

(** A transport that answers one URL and refuses every other. *)
Definition fetch_only (url : string) (r : fetch_result) : SupportedFetch :=
  fun u _ =>
    if String.eqb u url then r
    else FetchThrows (Foreign (mkError "Error" "connection refused")).

(** A transport promise that fulfils with [r] after 120 ms. *)
Definition hands_over (r : SupportedResponse) : fetch_result :=
  FetchPromise (SettlesAt 120 (Fulfilled r)).

(** The body [{"ok":true}]. *)
Definition ok_true_text : string :=
  json_text (JObject [ ("ok", JBool true) ]).

(** A transport promise that fulfils with [{"ok":true}] after [ms]
    milliseconds. *)
Definition slow_transport (ms : Z) : fetch_result :=
  FetchPromise (SettlesAt ms (Fulfilled (response_of true 200 ok_true_text))).

(** The client that the constructor makes of a [timeoutMs], a base URL and
    a transport that answers every call the same way. *)
Definition client_with_timeoutMs (timeoutMs : Z) (r : fetch_result)
  : Client.Client :=
  constructor (constant_fetch r) "1.0.0"
    (Some {| opt_auth := None;
             opt_timeoutMs := Some timeoutMs;
             opt_baseUrl := Some "https://api.example.com";
             opt_fetch := Some (constant_fetch r);
             opt_agent := None |}).

(** A query with an array, an absent value and a number. *)
Definition tags_query : QueryParams :=
  QRecord [ ("tag", QArray ["a%20b"; "c"]);
            ("skip", QUndefined);
            ("limit", QNumber (Number.of_Z 7)) ].

(** A query with an array element that is not percent-encoded text. *)
Definition malformed_query : QueryParams :=
  QRecord [ ("k", QArray ["%"]) ].

(** A client object whose auth object is the first object of the store,
    and a transport that hands over the same response each time, sooner
    the second time. *)
Definition steady (r : SupportedResponse) : Session.Transport :=
  fun history _ _ =>
    match history with
    | [] => FetchPromise (SettlesAt 120 (Fulfilled r))
    | _ => FetchPromise (SettlesAt 80 (Fulfilled r))
    end.

Definition client_object (r : SupportedResponse) : Session.ClientObject :=
  {| Session.o_auth := Some 1%positive;
     Session.o_prefixUrl := "https://api.example.com";
     Session.o_timeoutMs := 60000;
     Session.o_fetch := steady r;
     Session.o_agent := None;
     Session.o_userAgent := "anteraja-client/1.0.0" |}.

Definition first_state : Session.state :=
  {| Session.objects := {[ 1%positive := access_keys ]};
     Session.handed := [] |}.

End Examples.

(** ** Shapes of queries and descriptors *)

Module Shapes.

Import Js Chars JSON URI Errors Client.

(** A string with no percent sign. *)
Fixpoint no_percent (s : string) : bool :=
  match s with
  | EmptyString => true
  | String c s' => negb (Ascii.eqb c "%") && no_percent s'
  end.

(** A value for which the loop over the query calls [append] not once: an
    absent value, or an array with no element. *)
Definition adds_nothing (v : QueryValue) : bool :=
  match v with
  | QUndefined => true
  | QArray [] => true
  | _ => false
  end.

(** The request descriptor with another per-call auth. *)
Definition with_auth (p : RequestParameters) (a : option (string * string))
  : RequestParameters :=
  {| path := path p; method := method p; query := query p; body := body p;
     auth := a |}.

(** A query with a string that looks percent-encoded and a number. *)
Definition scalar_query : QueryParams :=
  QRecord [ ("q", QString "a%20b"); ("limit", QNumber (Number.of_Z 7)) ].

(** A query that holds no value. *)
Definition hollow_query : QueryParams :=
  QRecord [ ("a", QUndefined); ("b", QArray []) ].

End Shapes.

(** * Properties *)

(** ** Strings *)
Module StringFacts.

Lemma append_String c (a b : string) : String c a ++ b = String c (a ++ b).
Proof. reflexivity. Qed.

Lemma append_empty_l (b : string) : EmptyString ++ b = b.
Proof. reflexivity. Qed.

Lemma append_assoc (a b c : string) : (a ++ b) ++ c = a ++ (b ++ c).
Proof.
  induction a as [|x a IH]; [reflexivity|].
  rewrite !append_String. now rewrite IH.
Qed.

Lemma append_nil_r (a : string) : a ++ EmptyString = a.
Proof.
  induction a as [|x a IH]; [reflexivity|].
  rewrite append_String. now rewrite IH.
Qed.

Lemma append_length (a b : string) :
  String.length (a ++ b) = (String.length a + String.length b)%nat.
Proof.
  induction a as [|x a IH]; [reflexivity|].
  rewrite append_String. cbn [String.length]. now rewrite IH.
Qed.

End StringFacts.

Ltac norm_append :=
  repeat (rewrite StringFacts.append_assoc || rewrite StringFacts.append_String
          || rewrite StringFacts.append_empty_l).

(** ** Numbers: the digits of a number read as the number *)

Module NumberFacts.

Import Chars Number StringFacts.

Local Open Scope Z_scope.

(** *** The nearest double of a double is that double *)

Lemma ge_pow2_shift k p q B :
  0 < q -> 0 <= B -> 0 <= k + B ->
  ge_pow2 k p q = true <-> q * 2 ^ (k + B) <= p * 2 ^ B.
Proof.
  intros Hq HB HkB. unfold ge_pow2.
  assert (H2B : 0 < 2 ^ B) by (apply Z.pow_pos_nonneg; lia).
  destruct (Z.leb_spec 0 k) as [Hk|Hk].
  - rewrite Z.pow_add_r by lia. rewrite Z.leb_le.
    split; intros H; [nia|].
    apply Z.mul_le_mono_pos_r with (p := 2 ^ B); [exact H2B|]. lia.
  - rewrite Z.leb_le.
    replace B with (- k + (k + B)) at 2 by lia.
    rewrite (Z.pow_add_r 2 (- k) (k + B)) by lia.
    assert (H2 : 0 < 2 ^ (k + B)) by (apply Z.pow_pos_nonneg; lia).
    split; intros H; [nia|].
    apply Z.mul_le_mono_pos_r with (p := 2 ^ (k + B)); [exact H2|]. lia.
Qed.

Lemma ge_pow2_antitone a b p q :
  0 < p -> 0 < q -> a <= b -> ge_pow2 b p q = true -> ge_pow2 a p q = true.
Proof.
  intros Hp Hq Hab H.
  apply (ge_pow2_shift a p q (Z.max 0 (- a)) Hq); [lia|lia|].
  apply (ge_pow2_shift b p q (Z.max 0 (- a)) Hq) in H; [|lia|lia].
  etransitivity; [|exact H].
  apply Z.mul_le_mono_nonneg_l; [lia|].
  apply Z.pow_le_mono_r; lia.
Qed.

Lemma ge_pow2_unique a b p q :
  0 < p -> 0 < q ->
  ge_pow2 a p q = true -> ge_pow2 (a + 1) p q = false ->
  ge_pow2 b p q = true -> ge_pow2 (b + 1) p q = false ->
  a = b.
Proof.
  intros Hp Hq Ha Ha' Hb Hb'.
  destruct (Z.lt_trichotomy a b) as [H|[H|H]]; [|exact H|].
  - rewrite (ge_pow2_antitone (a + 1) b p q Hp Hq ltac:(lia) Hb) in Ha'.
    discriminate.
  - rewrite (ge_pow2_antitone (b + 1) a p q Hp Hq ltac:(lia) Ha) in Hb'.
    discriminate.
Qed.

(** [floor_log2 p q] is the exponent of the power of two just below
    [p / q]. *)
Lemma floor_log2_spec p q :
  0 < p -> 0 < q ->
  ge_pow2 (floor_log2 p q) p q = true /\
  ge_pow2 (floor_log2 p q + 1) p q = false.
Proof.
  intros Hp Hq.
  destruct (Z.log2_spec p Hp) as [Hp1 Hp2].
  destruct (Z.log2_spec q Hq) as [Hq1 Hq2].
  pose proof (Z.log2_nonneg p) as Hlp. pose proof (Z.log2_nonneg q) as Hlq.
  set (lp := Z.log2 p) in *. set (lq := Z.log2 q) in *.
  assert (Hlow : ge_pow2 (lp - lq - 1) p q = true).
  { apply (ge_pow2_shift _ p q (lq + 1) Hq); [lia|lia|].
    replace (lp - lq - 1 + (lq + 1)) with lp by lia.
    replace (Z.succ lq) with (lq + 1) in Hq2 by lia.
    assert (0 < 2 ^ lp) by (apply Z.pow_pos_nonneg; lia). nia. }
  assert (Hhigh : ge_pow2 (lp - lq + 1) p q = false).
  { apply not_true_is_false. intros H.
    apply (ge_pow2_shift _ p q lq Hq) in H; [|lia|lia].
    replace (lp - lq + 1 + lq) with (lp + 1) in H by lia.
    replace (Z.succ lp) with (lp + 1) in Hp2 by lia.
    assert (0 < 2 ^ lq) by (apply Z.pow_pos_nonneg; lia). nia. }
  unfold floor_log2. fold lp lq.
  destruct (ge_pow2 (lp - lq) p q) eqn:E.
  - split; [exact E|exact Hhigh].
  - split; [exact Hlow|]. now replace (lp - lq - 1 + 1) with (lp - lq) by lia.
Qed.

Lemma exact_shift e p q m B :
  0 <= B -> 0 <= e + B -> exact e p q m -> p * 2 ^ B = m * q * 2 ^ (e + B).
Proof.
  intros HB HeB. unfold exact. destruct (Z.leb_spec 0 e) as [He|He]; intros H.
  - rewrite Z.pow_add_r by lia. rewrite H. ring.
  - replace B with (- e + (e + B)) at 1 by lia.
    rewrite (Z.pow_add_r 2 (- e) (e + B)) by lia.
    rewrite Z.mul_assoc, H. ring.
Qed.

Lemma floor_log2_exact e p q m :
  0 < p -> 0 < q -> 0 < m -> exact e p q m ->
  floor_log2 p q = Z.log2 m + e.
Proof.
  intros Hp Hq Hm Hex.
  destruct (floor_log2_spec p q Hp Hq) as [H1 H2].
  destruct (Z.log2_spec m Hm) as [Hm1 Hm2].
  pose proof (Z.log2_nonneg m) as Hlm. set (lm := Z.log2 m) in *.
  replace (Z.succ lm) with (lm + 1) in Hm2 by lia.
  set (B := Z.max 0 (- e)).
  pose proof (exact_shift e p q m B ltac:(lia) ltac:(lia) Hex) as HB.
  assert (H2e : 0 < 2 ^ (e + B)) by (apply Z.pow_pos_nonneg; lia).
  apply (ge_pow2_unique _ _ p q Hp Hq H1 H2).
  - apply (ge_pow2_shift _ p q B Hq); [lia|lia|]. rewrite HB.
    replace (lm + e + B) with (lm + (e + B)) by lia.
    rewrite Z.pow_add_r by lia. nia.
  - apply not_true_is_false. intros H.
    apply (ge_pow2_shift _ p q B Hq) in H; [|lia|lia]. rewrite HB in H.
    replace (lm + e + 1 + B) with ((lm + 1) + (e + B)) in H by lia.
    rewrite Z.pow_add_r in H by lia. nia.
Qed.

Lemma canonical_spec m e :
  canonical m e = true ->
  -1074 <= e <= 971 /\ Z.pos m < 2 ^ 53 /\ (2 ^ 52 <= Z.pos m \/ e = -1074).
Proof.
  unfold canonical. rewrite !andb_true_iff, orb_true_iff.
  rewrite !Z.leb_le, Z.ltb_lt, Z.eqb_eq. tauto.
Qed.

Lemma nearest_double_exact p q m e :
  0 < p -> 0 < q -> canonical m e = true -> exact e p q (Z.pos m) ->
  nearest_double p q = Finite false m e.
Proof.
  intros Hp Hq Hc Hex. apply canonical_spec in Hc.
  destruct Hc as (He & Hm & Hn).
  unfold nearest_double.
  rewrite (floor_log2_exact e p q (Z.pos m) Hp Hq ltac:(lia) Hex).
  assert (Hlog : Z.log2 (Z.pos m) <= 52).
  { apply Z.lt_succ_r. apply Z.log2_lt_pow2; lia. }
  assert (Hmax : Z.max (Z.log2 (Z.pos m) + e - 52) (-1074) = e).
  { destruct Hn as [Hn| ->]; [|lia].
    assert (Z.log2 (Z.pos m) = 52); [|lia].
    apply Z.log2_unique; lia. }
  rewrite Hmax.
  assert (Hs : exists Q, 0 < Q /\ scale e p q = (Z.pos m * Q, Q)).
  { unfold scale. unfold exact in Hex. destruct (Z.leb_spec 0 e) as [H0|H0].
    - exists (q * 2 ^ e).
      split; [apply Z.mul_pos_pos; [lia|apply Z.pow_pos_nonneg; lia]|].
      rewrite Hex. f_equal. ring.
    - exists q. split; [lia|]. now rewrite Hex. }
  destruct Hs as (Q & HQ & ->).
  unfold half_even. rewrite Z.div_mul by lia. rewrite Z.mod_mul by lia.
  replace (2 * 0 ?= Q) with Lt by (symmetry; apply Z.compare_lt_iff; lia).
  replace (Z.pos m =? 0) with false by (symmetry; apply Z.eqb_neq; lia).
  replace (Z.pos m =? 2 ^ 53) with false by (symmetry; apply Z.eqb_neq; lia).
  replace (971 <? e) with false by (symmetry; apply Z.ltb_ge; lia).
  reflexivity.
Qed.

(** The full expansion of a double reads as the double. *)
Lemma of_decimal_exact_decimal m e :
  canonical m e = true ->
  0 < fst (exact_decimal m e) /\
  of_decimal false (fst (exact_decimal m e)) (snd (exact_decimal m e))
  = Finite false m e.
Proof.
  intros Hc. unfold exact_decimal, of_decimal.
  destruct (Z.leb_spec 0 e) as [He|He]; cbn [fst snd].
  - assert (Hpos : 0 < Z.pos m * 2 ^ e)
      by (apply Z.mul_pos_pos; [lia|apply Z.pow_pos_nonneg; lia]).
    split; [exact Hpos|].
    replace (Z.pos m * 2 ^ e <=? 0) with false by (symmetry; apply Z.leb_gt; lia).
    cbn [Z.leb Z.compare]. rewrite Z.pow_0_r, Z.mul_1_r.
    apply nearest_double_exact; [lia|lia|exact Hc|].
    unfold exact. replace (0 <=? e) with true by (symmetry; apply Z.leb_le; lia).
    ring.
  - assert (Hpos : 0 < Z.pos m * 5 ^ (- e))
      by (apply Z.mul_pos_pos; [lia|apply Z.pow_pos_nonneg; lia]).
    split; [exact Hpos|].
    replace (Z.pos m * 5 ^ (- e) <=? 0) with false
      by (symmetry; apply Z.leb_gt; lia).
    replace (0 <=? e) with false by (symmetry; apply Z.leb_gt; lia).
    apply nearest_double_exact;
      [lia|apply Z.pow_pos_nonneg; lia|exact Hc|].
    unfold exact. replace (0 <=? e) with false by (symmetry; apply Z.leb_gt; lia).
    replace 10 with (5 * 2) by reflexivity. rewrite Z.pow_mul_l. ring.
Qed.

Lemma reads_as_true x c :
  reads_as x c = true ->
  0 < fst c /\ of_decimal false (fst c) (snd c - ndigits (fst c)) = x.
Proof.
  unfold reads_as. rewrite andb_true_iff, Z.ltb_lt.
  destruct (number_eq_dec _ x); [tauto|]. intros [_ H]. discriminate H.
Qed.

(** Whatever the search returns reads as the number, once the full
    expansion does. *)
Lemma shortest_from_reads_as x S0 d n fuel : forall k,
  reads_as x (S0, n) = true ->
  reads_as x (shortest_from x S0 d n fuel k) = true.
Proof.
  induction fuel as [|fuel IH]; intros k H0; [exact H0|].
  cbn [shortest_from].
  destruct (reads_as x (S0 / 10 ^ (d - k), n)) eqn:Hlo;
    destruct (reads_as x (if S0 / 10 ^ (d - k) + 1 =? 10 ^ k
                          then (1, n + 1) else (S0 / 10 ^ (d - k) + 1, n)))
      eqn:Hhi.
  - destruct (2 * (S0 mod 10 ^ (d - k)) ?= 10 ^ (d - k)); try assumption.
    destruct (Z.even _); assumption.
  - assumption.
  - assumption.
  - now apply IH.
Qed.

(** The digits that [Number::toString] chooses read as the number. *)
Theorem shortest_reads_as m e :
  canonical m e = true ->
  0 < fst (shortest m e) /\
  of_decimal false (fst (shortest m e))
    (snd (shortest m e) - ndigits (fst (shortest m e)))
  = Finite false m e.
Proof.
  intros Hc. apply reads_as_true. unfold shortest.
  destruct (of_decimal_exact_decimal m e Hc) as [Hpos Hex].
  destruct (exact_decimal m e) as [S0 E0]. cbn [fst snd] in *.
  apply shortest_from_reads_as.
  unfold reads_as. cbn [fst snd].
  replace (0 <? S0) with true by (symmetry; apply Z.ltb_lt; lia).
  replace (ndigits S0 + E0 - ndigits S0) with E0 by lia.
  rewrite Hex. cbn [andb]. destruct (number_eq_dec _ _); congruence.
Qed.

End NumberFacts.

(** ** Digits and number tokens *)

Module DigitFacts.

Import Chars Number JSON StringFacts.

Local Open Scope Z_scope.

Lemma all_digits_string_of_uint d : all_digits (NilEmpty.string_of_uint d) = true.
Proof. induction d; cbn [NilEmpty.string_of_uint all_digits]; auto. Qed.

Lemma of_lu_revapp_digits d : forall d',
  DecimalPos.Unsigned.of_lu (revapp d d')
  = digits_value (DecimalPos.Unsigned.of_lu d') (NilEmpty.string_of_uint d).
Proof.
  induction d; intros d'; cbn [revapp NilEmpty.string_of_uint digits_value];
    [reflexivity| ..]; rewrite IHd; cbn [DecimalPos.Unsigned.of_lu];
    f_equal; unfold code; cbn [N_of_ascii N_of_digits]; lia.
Qed.

Lemma digits_value_string_of_uint d :
  digits_value 0 (NilEmpty.string_of_uint d) = N.of_uint d.
Proof.
  unfold N.of_uint. rewrite DecimalPos.Unsigned.of_uint_alt. unfold Decimal.rev.
  now rewrite of_lu_revapp_digits.
Qed.

Lemma digits_value_string_of_N n : digits_value 0 (string_of_N n) = n.
Proof.
  unfold string_of_N. rewrite digits_value_string_of_uint.
  apply DecimalN.Unsigned.of_to.
Qed.

Lemma all_digits_string_of_N n : all_digits (string_of_N n) = true.
Proof. apply all_digits_string_of_uint. Qed.

Lemma to_uint_unorm n : N.to_uint n = unorm (N.to_uint n).
Proof.
  rewrite <- (DecimalN.Unsigned.of_to n) at 1.
  now rewrite DecimalN.Unsigned.to_of.
Qed.

Lemma int_part_ok_unorm d : int_part_ok (NilEmpty.string_of_uint (unorm d)) = true.
Proof.
  induction d; try reflexivity.
  rewrite unorm_D0. assumption.
Qed.

Lemma int_part_ok_string_of_N n : int_part_ok (string_of_N n) = true.
Proof. unfold string_of_N. rewrite to_uint_unorm. apply int_part_ok_unorm. Qed.

Lemma unorm_head d :
  N.of_uint d <> 0%N ->
  exists c r, NilEmpty.string_of_uint (unorm d) = String c r /\
    is_digit c = true /\ Ascii.eqb c "0" = false.
Proof.
  induction d; intros H;
    try (eexists _, _; split; [reflexivity|split; reflexivity]).
  - now destruct H.
  - rewrite unorm_D0. apply IHd. exact H.
Qed.

(** The decimal form of a positive integer starts with a digit that is
    not zero. *)
Lemma string_of_N_head_nonzero n :
  (0 < n)%N ->
  exists c r, string_of_N n = String c r /\
    is_digit c = true /\ Ascii.eqb c "0" = false.
Proof.
  intros H. unfold string_of_N. rewrite to_uint_unorm. apply unorm_head.
  rewrite DecimalN.Unsigned.of_to. lia.
Qed.

Lemma digits_value_app a : forall acc b,
  digits_value acc (a ++ b) = digits_value (digits_value acc a) b.
Proof.
  induction a as [|c a IH]; intros acc b; [reflexivity|].
  rewrite append_String. cbn [digits_value]. apply IH.
Qed.

Lemma digits_value_acc s : forall acc,
  digits_value acc s
  = (acc * 10 ^ N.of_nat (String.length s) + digits_value 0 s)%N.
Proof.
  induction s as [|c s IH]; intros acc.
  - cbn. lia.
  - cbn [digits_value String.length]. rewrite IH, (IH (10 * 0 + _)%N).
    rewrite Nat2N.inj_succ, N.pow_succ_r'. lia.
Qed.

Lemma all_digits_app a b :
  all_digits (a ++ b) = all_digits a && all_digits b.
Proof.
  induction a as [|c a IH]; [reflexivity|].
  rewrite append_String. cbn [all_digits]. rewrite IH. now rewrite andb_assoc.
Qed.

Lemma zeros_length n : String.length (zeros n) = n.
Proof. induction n; cbn; congruence. Qed.

Lemma all_digits_zeros n : all_digits (zeros n) = true.
Proof. induction n; [reflexivity|]. cbn [zeros all_digits]. now rewrite IHn. Qed.

Lemma digits_value_zeros n : forall acc,
  digits_value acc (zeros n) = (acc * 10 ^ N.of_nat n)%N.
Proof.
  induction n as [|n IH]; intros acc.
  - cbn. lia.
  - cbn [zeros digits_value]. rewrite IH. unfold code. cbn [N_of_ascii N_of_digits].
    rewrite Nat2N.inj_succ, N.pow_succ_r'. lia.
Qed.

Lemma take_drop n : forall s, take n s ++ drop n s = s.
Proof.
  induction n as [|n IH]; intros s; [reflexivity|].
  destruct s as [|c s]; [reflexivity|].
  cbn [take drop]. rewrite append_String. now rewrite IH.
Qed.

Lemma take_length n : forall s,
  (n <= String.length s)%nat -> String.length (take n s) = n.
Proof.
  induction n as [|n IH]; intros s H; [reflexivity|].
  destruct s as [|c s]; cbn in H; [lia|].
  cbn [take String.length]. rewrite IH; lia.
Qed.

Lemma drop_length n : forall s,
  String.length (drop n s) = (String.length s - n)%nat.
Proof.
  induction n as [|n IH]; intros s; [cbn; lia|].
  destruct s as [|c s]; [reflexivity|]. cbn [drop String.length]. apply IH.
Qed.

Lemma all_digits_take_drop n s :
  all_digits s = true -> all_digits (take n s) = true /\ all_digits (drop n s) = true.
Proof.
  intros H. rewrite <- (take_drop n s), all_digits_app in H.
  now apply andb_true_iff in H.
Qed.

(** [no_digit_head s]: [s] does not go on with a digit. *)
Lemma scan_digits_app a : forall rest,
  all_digits a = true ->
  match rest with
  | EmptyString => True
  | String c _ => is_digit c = false
  end ->
  scan_digits (a ++ rest) = (a, rest).
Proof.
  induction a as [|c a IH]; intros rest Ha Hr.
  - rewrite append_empty_l. destruct rest as [|c r]; [reflexivity|].
    cbn [scan_digits]. now rewrite Hr.
  - cbn [all_digits] in Ha. apply andb_true_iff in Ha. destruct Ha as [Hc Ha].
    rewrite append_String. cbn [scan_digits]. rewrite Hc.
    now rewrite (IH rest Ha Hr).
Qed.

End DigitFacts.

Module TokenFacts.

Import Chars Number JSON StringFacts DigitFacts.

Local Open Scope Z_scope.

Lemma delimited_head rest :
  delimited rest = true ->
  match rest with
  | EmptyString => True
  | String c _ =>
      is_digit c = false /\ Ascii.eqb c "." = false /\
      Ascii.eqb c "e" = false /\ Ascii.eqb c "E" = false
  end.
Proof.
  destruct rest as [|c r]; [trivial|]. cbn [delimited].
  rewrite negb_true_iff, !orb_false_iff. tauto.
Qed.

Lemma exponent_text_head ex rest :
  delimited rest = true ->
  match (exponent_text ex ++ rest)%string with
  | EmptyString => True
  | String c _ => is_digit c = false /\ Ascii.eqb c "." = false
  end.
Proof.
  intros Hr. destruct ex as [z|]; cbn [exponent_text].
  - rewrite append_String. split; reflexivity.
  - rewrite append_empty_l. apply delimited_head in Hr.
    destruct rest; [trivial|tauto].
Qed.

Lemma scan_exponent_text ex rest :
  delimited rest = true ->
  scan_exponent (exponent_text ex ++ rest) = Some (exponent_value ex, rest).
Proof.
  intros Hr. pose proof (delimited_head rest Hr) as Hh.
  destruct ex as [z|]; cbn [exponent_text exponent_value].
  - rewrite append_String. cbn [scan_exponent].
    replace (Ascii.eqb "e" "e" || Ascii.eqb "e" "E") with true by reflexivity.
    assert (Hd : scan_digits (string_of_N (Z.abs_N z) ++ rest)
                 = (string_of_N (Z.abs_N z), rest)).
    { apply scan_digits_app; [apply all_digits_string_of_N|].
      destruct rest; [trivial|tauto]. }
    assert (Hne : is_empty (string_of_N (Z.abs_N z)) = false).
    { pose proof (int_part_ok_string_of_N (Z.abs_N z)) as H.
      destruct (string_of_N (Z.abs_N z)); [discriminate H|reflexivity]. }
    destruct (Z.ltb_spec 0 z) as [Hz|Hz]; rewrite append_assoc, append_String,
      append_empty_l; cbn [scan_sign];
      [replace (Ascii.eqb "+" "+") with true by reflexivity
      |replace (Ascii.eqb "-" "+") with false by reflexivity;
       replace (Ascii.eqb "-" "-") with true by reflexivity];
      rewrite Hd, Hne, digits_value_string_of_N; do 2 f_equal; lia.
  - rewrite append_empty_l. destruct rest as [|c r]; [reflexivity|].
    cbn [scan_exponent]. destruct Hh as (_ & _ & -> & ->). reflexivity.
Qed.

Lemma scan_fraction_text fp tail :
  all_digits fp = true ->
  match tail with
  | EmptyString => True
  | String c _ => is_digit c = false /\ Ascii.eqb c "." = false
  end ->
  scan_fraction (fraction_text fp ++ tail) = Some (fp, tail).
Proof.
  intros Hfp Ht. unfold fraction_text. destruct fp as [|c fp].
  - cbn [is_empty]. rewrite append_empty_l.
    destruct tail as [|c r]; [reflexivity|]. cbn [scan_fraction].
    now destruct Ht as [_ ->].
  - cbn [is_empty]. rewrite append_String. cbn [scan_fraction].
    replace (Ascii.eqb "." ".") with true by reflexivity.
    rewrite scan_digits_app; [reflexivity|exact Hfp|].
    destruct tail; [trivial|tauto].
Qed.

Lemma digit_not_minus c : is_digit c = true -> Ascii.eqb c "-" = false.
Proof. destruct c as [[] [] [] [] [] [] [] []]; vm_compute; congruence. Qed.

Lemma int_part_ok_head ip :
  int_part_ok ip = true -> all_digits ip = true ->
  exists c r, ip = String c r /\ is_digit c = true.
Proof.
  destruct ip as [|c r]; [discriminate|]. intros _ H.
  cbn [all_digits] in H. apply andb_true_iff in H. destruct H as [H _]. eauto.
Qed.

(** A token made of an integer part, a fraction and an exponent is read
    as the number it writes. *)
Theorem parse_number_text (negative : bool) ip fp ex rest :
  all_digits ip = true -> int_part_ok ip = true -> all_digits fp = true ->
  delimited rest = true ->
  parse_number ((if negative then String "-" ip else ip)
                  ++ fraction_text fp ++ exponent_text ex ++ rest)
  = Some (JNumber
            (of_decimal negative (Z.of_N (digits_value 0 (ip ++ fp)))
               (exponent_value ex - Z.of_nat (String.length fp))), rest).
Proof.
  intros Hip Hok Hfp Hr.
  destruct (int_part_ok_head ip Hok Hip) as (c & r & Hc & Hd).
  pose proof (exponent_text_head ex rest Hr) as Hex.
  set (tail := (exponent_text ex ++ rest)%string) in *.
  assert (Hscan : scan_digits (ip ++ fraction_text fp ++ tail)
                  = (ip, (fraction_text fp ++ tail)%string)).
  { apply scan_digits_app; [exact Hip|]. unfold fraction_text.
    destruct (is_empty fp).
    - rewrite append_empty_l. destruct tail; [trivial|tauto].
    - rewrite append_String. reflexivity. }
  assert (Hbody :
    (let (ip0, s2) := scan_digits (ip ++ fraction_text fp ++ tail) in
     if int_part_ok ip0 then
       match scan_fraction s2 with
       | None => None
       | Some (fp0, s3) =>
           match scan_exponent s3 with
           | None => None
           | Some (ex0, s4) =>
               Some (JNumber
                       (of_decimal negative
                          (Z.of_N (digits_value 0 (ip0 ++ fp0)))
                          (ex0 - Z.of_nat (String.length fp0))), s4)
           end
       end
     else None)
    = Some (JNumber
              (of_decimal negative (Z.of_N (digits_value 0 (ip ++ fp)))
                 (exponent_value ex - Z.of_nat (String.length fp))), rest)).
  { rewrite Hscan, Hok, (scan_fraction_text fp tail Hfp Hex).
    subst tail. now rewrite (scan_exponent_text ex rest Hr). }
  unfold parse_number. destruct negative.
  - rewrite append_String.
    replace (Ascii.eqb "-" "-") with true by reflexivity. exact Hbody.
  - rewrite Hc in *. rewrite append_String in *.
    rewrite (digit_not_minus c Hd). exact Hbody.
Qed.

End TokenFacts.


Module FormatFacts.

Import Chars Number JSON StringFacts DigitFacts TokenFacts NumberFacts.

Local Open Scope Z_scope.

Lemma of_decimal_scale negative s j :
  0 < s -> 0 <= j ->
  of_decimal negative (s * 10 ^ j) 0 = of_decimal negative s j.
Proof.
  intros Hs Hj. unfold of_decimal.
  assert (0 < s * 10 ^ j) by (apply Z.mul_pos_pos; [lia|apply Z.pow_pos_nonneg; lia]).
  replace (s * 10 ^ j <=? 0) with false by (symmetry; apply Z.leb_gt; lia).
  replace (s <=? 0) with false by (symmetry; apply Z.leb_gt; lia).
  replace (0 <=? j) with true by (symmetry; apply Z.leb_le; lia).
  cbn [Z.leb Z.compare]. now rewrite Z.pow_0_r, Z.mul_1_r.
Qed.

Lemma is_empty_length s : is_empty s = false <-> (0 < String.length s)%nat.
Proof. destruct s; cbn; split; intros; (lia || congruence). Qed.

Lemma fraction_text_nonempty fp :
  (0 < String.length fp)%nat -> fraction_text fp = String "." fp.
Proof.
  intros H. unfold fraction_text. apply is_empty_length in H. now rewrite H.
Qed.

(** The five shapes of the text of a decimal. *)
Lemma format_cases s n :
  let ds := string_of_N (Z.to_N s) in
  let k := Z.of_nat (String.length ds) in
  (k <= n <= 21 /\ format s n = (ds ++ zeros (Z.to_nat (n - k)))%string) \/
  (0 < n < k /\ n <= 21 /\
   format s n = (take (Z.to_nat n) ds ++ "." ++ drop (Z.to_nat n) ds)%string) \/
  (-6 < n <= 0 /\ format s n = ("0." ++ zeros (Z.to_nat (- n)) ++ ds)%string) \/
  ((n <= -6 \/ 21 < n) /\ k = 1 /\
   format s n = (ds ++ exponent_text (Some (n - 1)))%string) \/
  ((n <= -6 \/ 21 < n) /\ k <> 1 /\
   format s n = (take 1 ds ++ "." ++ drop 1 ds
                    ++ exponent_text (Some (n - 1)))%string).
Proof.
  cbv zeta. unfold format.
  set (ds := string_of_N (Z.to_N s)). set (k := Z.of_nat (String.length ds)).
  destruct (Z.leb_spec k n), (Z.leb_spec n 21), (Z.ltb_spec 0 n),
    (Z.ltb_spec (-6) n), (Z.leb_spec n 0), (Z.eqb_spec k 1);
    cbn [andb]; try lia;
    first [ solve [left; repeat split; first [lia|reflexivity]]
          | solve [right; left; repeat split; first [lia|reflexivity]]
          | solve [right; right; left; repeat split; first [lia|reflexivity]]
          | solve [right; right; right; left; repeat split;
                   first [lia|reflexivity]]
          | solve [right; right; right; right; repeat split;
                   first [lia|reflexivity]] ].
Qed.

(** The text of a decimal is a number token that writes that decimal. *)
Lemma format_text s n :
  0 < s ->
  exists ip fp ex,
    format s n = (ip ++ fraction_text fp ++ exponent_text ex)%string /\
    all_digits ip = true /\ int_part_ok ip = true /\ all_digits fp = true /\
    forall negative,
      of_decimal negative (Z.of_N (digits_value 0 (ip ++ fp)))
        (exponent_value ex - Z.of_nat (String.length fp))
      = of_decimal negative s (n - ndigits s).
Proof.
  intros Hs. unfold ndigits.
  pose proof (all_digits_string_of_N (Z.to_N s)) as Hall.
  pose proof (digits_value_string_of_N (Z.to_N s)) as Hval.
  destruct (string_of_N_head_nonzero (Z.to_N s) ltac:(lia))
    as (c & r & Hds & Hc & Hc0).
  pose proof (format_cases s n) as Hcases. cbv zeta in Hcases.
  set (ds := string_of_N (Z.to_N s)) in *.
  assert (Hlen : (1 <= String.length ds)%nat) by (rewrite Hds; cbn; lia).
  set (k := Z.of_nat (String.length ds)) in *.
  assert (Hv : Z.of_N (digits_value 0 ds) = s) by (rewrite Hval; lia).
  destruct Hcases as [(Hn & ->)|[(Hn & Hn21 & ->)|[(Hn & ->)|
                      [(Hn & Hk1 & ->)|(Hn & Hk1 & ->)]]]].
  - (* digits followed by zeros *)
    exists (ds ++ zeros (Z.to_nat (n - k)))%string, EmptyString, None.
    split; [now rewrite append_empty_l, append_nil_r|].
    split; [now rewrite all_digits_app, Hall, all_digits_zeros|].
    split; [rewrite Hds, append_String; cbn [int_part_ok]; now rewrite Hc0|].
    split; [reflexivity|]. intros negative.
    rewrite append_nil_r, digits_value_app, digits_value_zeros.
    cbn [exponent_value String.length].
    rewrite N2Z.inj_mul, N2Z.inj_pow, Hv, nat_N_Z, Z2Nat.id by lia.
    cbn [Z.of_N Z.of_nat]. rewrite Z.sub_0_r.
    apply of_decimal_scale; lia.
  - (* point inside the digits *)
    exists (take (Z.to_nat n) ds), (drop (Z.to_nat n) ds), None.
    destruct (all_digits_take_drop (Z.to_nat n) ds Hall) as [Ht Hd].
    pose proof (drop_length (Z.to_nat n) ds) as Hdl.
    split; [rewrite fraction_text_nonempty by lia;
            cbn [exponent_text]; now rewrite append_nil_r|].
    split; [exact Ht|].
    split.
    { rewrite Hds. destruct (Z.to_nat n) as [|n'] eqn:En; [lia|].
      cbn [take int_part_ok]. now rewrite Hc0. }
    split; [exact Hd|]. intros negative.
    rewrite take_drop, Hv. cbn [exponent_value]. f_equal. lia.
  - (* zeros after the point *)
    exists "0"%string, (zeros (Z.to_nat (- n)) ++ ds)%string, None.
    assert (Hl : String.length (zeros (Z.to_nat (- n)) ++ ds)
                 = (Z.to_nat (- n) + String.length ds)%nat)
      by now rewrite append_length, zeros_length.
    split; [rewrite fraction_text_nonempty by lia;
            cbn [exponent_text]; now rewrite append_nil_r|].
    split; [reflexivity|]. split; [reflexivity|].
    split; [now rewrite all_digits_app, all_digits_zeros|]. intros negative.
    rewrite append_String, append_empty_l. cbn [digits_value].
    rewrite digits_value_app, digits_value_zeros.
    replace ((10 * 0 + (code "0" - 48)) * 10 ^ N.of_nat (Z.to_nat (- n)))%N
      with 0%N by (unfold code; cbn [N_of_ascii N_of_digits]; lia).
    rewrite Hv, Hl. cbn [exponent_value]. f_equal. lia.
  - (* exponent, one digit *)
    exists ds, EmptyString, (Some (n - 1)).
    split; [cbn [fraction_text is_empty]; now rewrite append_empty_l|].
    split; [exact Hall|].
    split; [rewrite Hds; cbn [int_part_ok]; now rewrite Hc0|].
    split; [reflexivity|]. intros negative.
    rewrite append_nil_r, Hv. cbn [exponent_value String.length].
    f_equal. lia.
  - (* exponent, several digits *)
    exists (take 1 ds), (drop 1 ds), (Some (n - 1)).
    destruct (all_digits_take_drop 1 ds Hall) as [Ht Hd].
    pose proof (drop_length 1 ds) as Hdl.
    split; [now rewrite fraction_text_nonempty by lia|].
    split; [exact Ht|].
    split; [rewrite Hds; cbn [take int_part_ok]; now rewrite Hc0|].
    split; [exact Hd|]. intros negative.
    rewrite take_drop, Hv. cbn [exponent_value]. f_equal. lia.
Qed.

End FormatFacts.

(** ** The JSON parser terminates within its fuel *)

Module JSONFacts.

Import Js Chars Number JSON Examples StringFacts.

Local Abbreviation len := String.length.

Lemma skip_ws_length s : (len (skip_ws s) <= len s)%nat.
Proof.
  induction s as [|c s IH]; simpl; [lia|].
  destruct (is_ws c); simpl; lia.
Qed.

Lemma scan_digits_length s d r :
  scan_digits s = (d, r) ->
  (len r <= len s)%nat /\ (is_empty d = false -> (len r < len s)%nat).
Proof.
  revert d r. induction s as [|c s IH]; simpl; intros d r H.
  - inversion H; subst. simpl. split; [lia|discriminate].
  - destruct (is_digit c).
    + destruct (scan_digits s) as [d' r'] eqn:E. inversion H; subst.
      destruct (IH _ _ eq_refl) as [Hle _]. split; intros; lia.
    + inversion H; subst. simpl. split; [lia|discriminate].
Qed.

Lemma scan_fraction_length s fr r :
  scan_fraction s = Some (fr, r) -> (len r <= len s)%nat.
Proof.
  destruct s as [|c s]; simpl; intros H.
  - inversion H; subst; simpl; lia.
  - destruct (Ascii.eqb c ".").
    + destruct (scan_digits s) as [d r'] eqn:E.
      destruct (is_empty d); [discriminate|]. inversion H; subst.
      apply scan_digits_length in E. lia.
    + inversion H; subst; simpl; lia.
Qed.

Lemma scan_sign_length s sg r :
  scan_sign s = (sg, r) -> (len r <= len s)%nat.
Proof.
  destruct s as [|c s]; simpl; intros H.
  - inversion H; subst; simpl; lia.
  - destruct (Ascii.eqb c "+"); [inversion H; subst; simpl; lia|].
    destruct (Ascii.eqb c "-"); inversion H; subst; simpl; lia.
Qed.

Lemma scan_exponent_length s ex r :
  scan_exponent s = Some (ex, r) -> (len r <= len s)%nat.
Proof.
  destruct s as [|c s]; simpl; intros H.
  - inversion H; subst; simpl; lia.
  - destruct (Ascii.eqb c "e" || Ascii.eqb c "E").
    + destruct (scan_sign s) as [sg s1] eqn:Es.
      destruct (scan_digits s1) as [d r'] eqn:E.
      destruct (is_empty d); [discriminate|]. inversion H; subst.
      apply scan_digits_length in E. apply scan_sign_length in Es. lia.
    + inversion H; subst; simpl; lia.
Qed.

Lemma int_part_ok_not_empty d : int_part_ok d = true -> is_empty d = false.
Proof. destruct d; simpl; congruence. Qed.

Lemma parse_number_length s v r :
  parse_number s = Some (v, r) -> (len r < len s)%nat.
Proof.
  unfold parse_number. intros H.
  set (p := match s with
            | String c r0 => if Ascii.eqb c "-" then (true, r0) else (false, s)
            | EmptyString => (false, s)
            end) in H.
  assert (Hp : (len (snd p) <= len s)%nat).
  { subst p. destruct s as [|c s]; simpl; [lia|].
    destruct (Ascii.eqb c "-"); simpl; lia. }
  destruct p as [neg s1]. simpl in Hp.
  destruct (scan_digits s1) as [d s2] eqn:Ed.
  destruct (int_part_ok d) eqn:Hok; [|discriminate].
  apply int_part_ok_not_empty in Hok.
  apply scan_digits_length in Ed. destruct Ed as [_ Hlt]. specialize (Hlt Hok).
  destruct (scan_fraction s2) as [[fr s3]|] eqn:Ef; [|discriminate].
  destruct (scan_exponent s3) as [[ex s4]|] eqn:Ee; [|discriminate].
  apply scan_fraction_length in Ef. apply scan_exponent_length in Ee.
  inversion H; subst; lia.
Qed.

Lemma prepend_length p x s r :
  prepend p x = Some (s, r) -> exists s', x = Some (s', r).
Proof.
  destruct x as [[s' r']|]; simpl; [|discriminate].
  intros H; inversion H; subst. eauto.
Qed.

Lemma parse_string_body_length : forall n s x r,
  (len s <= n)%nat -> parse_string_body s = Some (x, r) -> (len r < len s)%nat.
Proof.
  induction n as [|n IH]; intros s x r Hn H.
  - destruct s; simpl in *; [discriminate|lia].
  - destruct s as [|c s]; simpl in H; [discriminate|].
    simpl in Hn.
    destruct (Ascii.eqb c dquote).
    { inversion H; subst. simpl. lia. }
    destruct (Ascii.eqb c backslash).
    2:{ destruct (code c <? 32)%N; [discriminate|].
        apply prepend_length in H. destruct H as [s' H].
        apply IH in H; simpl; lia. }
    destruct s as [|e s1]; [discriminate|].
    destruct (Ascii.eqb e "u").
    2:{ destruct (simple_escape e); [|discriminate].
        apply prepend_length in H. destruct H as [s' H].
        apply IH in H; simpl in *; lia. }
    destruct s1 as [|h1 [|h2 [|h3 [|h4 s2]]]]; try discriminate.
    destruct (hex4 h1 h2 h3 h4) as [u|]; [|discriminate].
    simpl in Hn.
    assert (Hplain : forall y, prepend (utf8_encode u) (parse_string_body s2)
                          = Some (y, r) -> (len r < len s2)%nat).
    { intros y Hy. apply prepend_length in Hy. destruct Hy as [s' Hy].
      apply IH in Hy; lia. }
    destruct s2 as [|a1 [|a2 [|a3 [|a4 [|a5 [|a6 s3]]]]]];
      try (apply Hplain in H; simpl in *; lia).
    destruct (if is_high_surrogate u then _ else None).
    + apply prepend_length in H. destruct H as [s' H].
      apply IH in H; simpl in *; lia.
    + apply Hplain in H; simpl in *; lia.
Qed.

Lemma strip_prefix_length p : forall s r,
  strip_prefix p s = Some r -> (len r <= len s)%nat.
Proof.
  induction p as [|a p IH]; simpl; intros s r H.
  - inversion H; lia.
  - destruct s as [|b s]; [discriminate|].
    destruct (Ascii.eqb a b); [|discriminate].
    apply IH in H. simpl. lia.
Qed.

Lemma parse_keyword_length kw v s v' r :
  parse_keyword kw v s = POk v' r -> (len r <= len s)%nat.
Proof.
  unfold parse_keyword. destruct (strip_prefix kw s) eqn:E; [|discriminate].
  intros H; inversion H; subst. eapply strip_prefix_length; eauto.
Qed.

Lemma parse_keyword_fuel kw v s : parse_keyword kw v s <> PFuel.
Proof. unfold parse_keyword. destruct (strip_prefix kw s); discriminate. Qed.

Lemma parse_fuel_ok : forall fuel,
  fuel_ok 1 parse_value fuel /\
  fuel_ok 2 parse_elements fuel /\
  fuel_ok 2 parse_members fuel.
Proof.
  induction fuel as [|fuel [IHv [IHe IHm]]].
  { unfold fuel_ok. split; [|split]; intros s Hs; lia. }
  assert (Hv : fuel_ok 1 parse_value (S fuel)).
  { intros s Hs. simpl.
    pose proof (skip_ws_length s) as Hws.
    destruct (skip_ws s) as [|c rest] eqn:Es; [split; [discriminate|discriminate]|].
    simpl in Hws.
    destruct (Ascii.eqb c "{").
    { pose proof (skip_ws_length rest) as Hws'.
      destruct (skip_ws rest) as [|c' rest'] eqn:Er; [split; discriminate|].
      simpl in Hws'.
      destruct (Ascii.eqb c' "}").
      { split; [discriminate|]. intros a r H; inversion H; subst; lia. }
      destruct (IHm rest) as [Hf Hl]; [lia|].
      destruct (parse_members fuel rest) as [ms r| |] eqn:Em;
        [|split; discriminate|congruence].
      split; [discriminate|]. intros a r' H; inversion H; subst.
      specialize (Hl _ _ eq_refl). lia. }
    destruct (Ascii.eqb c "[").
    { pose proof (skip_ws_length rest) as Hws'.
      destruct (skip_ws rest) as [|c' rest'] eqn:Er; [split; discriminate|].
      simpl in Hws'.
      destruct (Ascii.eqb c' "]").
      { split; [discriminate|]. intros a r H; inversion H; subst; lia. }
      destruct (IHe rest) as [Hf Hl]; [lia|].
      destruct (parse_elements fuel rest) as [vs r| |] eqn:Em;
        [|split; discriminate|congruence].
      split; [discriminate|]. intros a r' H; inversion H; subst.
      specialize (Hl _ _ eq_refl). lia. }
    destruct (Ascii.eqb c dquote).
    { destruct (parse_string_body rest) as [[str r]|] eqn:Eb;
        [|split; discriminate].
      split; [discriminate|]. intros a r' H; inversion H; subst.
      eapply parse_string_body_length in Eb; [|reflexivity]. lia. }
    destruct (Ascii.eqb c "t").
    { split; [apply parse_keyword_fuel|].
      intros a r H. apply parse_keyword_length in H. lia. }
    destruct (Ascii.eqb c "f").
    { split; [apply parse_keyword_fuel|].
      intros a r H. apply parse_keyword_length in H. lia. }
    destruct (Ascii.eqb c "n").
    { split; [apply parse_keyword_fuel|].
      intros a r H. apply parse_keyword_length in H. lia. }
    destruct (parse_number (String c rest)) as [[v r]|] eqn:En;
      [|split; discriminate].
    split; [discriminate|]. intros a r' H; inversion H; subst.
    apply parse_number_length in En. simpl in En. lia. }
  split; [exact Hv|]. split.
  - intros s Hs. simpl.
    destruct (IHv s) as [Hf Hl]; [lia|].
    destruct (parse_value fuel s) as [v rest| |] eqn:Ev;
      [|split; discriminate|congruence].
    specialize (Hl _ _ eq_refl).
    pose proof (skip_ws_length rest) as Hws.
    destruct (skip_ws rest) as [|c rest'] eqn:Er; [split; discriminate|].
    simpl in Hws.
    destruct (Ascii.eqb c ",").
    { destruct (IHe rest') as [Hf' Hl']; [lia|].
      destruct (parse_elements fuel rest') as [vs r| |] eqn:Ee;
        [|split; discriminate|congruence].
      split; [discriminate|]. intros a r' H; inversion H; subst.
      specialize (Hl' _ _ eq_refl). lia. }
    destruct (Ascii.eqb c "]"); [|split; discriminate].
    split; [discriminate|]. intros a r' H; inversion H; subst. lia.
  - intros s Hs. simpl.
    pose proof (skip_ws_length s) as Hws.
    destruct (skip_ws s) as [|c rest] eqn:Es; [split; discriminate|].
    simpl in Hws.
    destruct (Ascii.eqb c dquote); [|split; discriminate].
    destruct (parse_string_body rest) as [[k rest1]|] eqn:Eb;
      [|split; discriminate].
    eapply parse_string_body_length in Eb; [|reflexivity].
    pose proof (skip_ws_length rest1) as Hws1.
    destruct (skip_ws rest1) as [|c1 rest2] eqn:E1; [split; discriminate|].
    simpl in Hws1.
    destruct (Ascii.eqb c1 ":"); [|split; discriminate].
    destruct (IHv rest2) as [Hf Hl]; [lia|].
    destruct (parse_value fuel rest2) as [v rest3| |] eqn:Ev;
      [|split; discriminate|congruence].
    specialize (Hl _ _ eq_refl).
    pose proof (skip_ws_length rest3) as Hws3.
    destruct (skip_ws rest3) as [|c3 rest4] eqn:E3; [split; discriminate|].
    simpl in Hws3.
    destruct (Ascii.eqb c3 ",").
    { destruct (IHm rest4) as [Hf' Hl']; [lia|].
      destruct (parse_members fuel rest4) as [ms r| |] eqn:Ee;
        [|split; discriminate|congruence].
      split; [discriminate|]. intros a r' H; inversion H; subst.
      specialize (Hl' _ _ eq_refl). lia. }
    destruct (Ascii.eqb c3 "}"); [|split; discriminate].
    split; [discriminate|]. intros a r' H; inversion H; subst. lia.
Qed.

(** [JSON.parse] never stops for lack of fuel. *)
Lemma parse_value_enough_fuel text :
  parse_value (parse_fuel text) text <> PFuel.
Proof.
  destruct (parse_fuel_ok (parse_fuel text)) as [Hv _].
  apply Hv. unfold parse_fuel. lia.
Qed.

(** ** What [JSON.stringify] writes, [JSON.parse] reads back *)

Lemma parse_string_body_quote_char c rest :
  parse_string_body (quote_char c ++ rest)
  = prepend (String c EmptyString) (parse_string_body rest).
Proof.
  destruct c as [[] [] [] [] [] [] [] []]; try reflexivity;
    destruct rest as [|a1 [|a2 [|a3 [|a4 [|a5 [|a6 rest]]]]]]; reflexivity.
Qed.

Lemma parse_string_body_quote s rest :
  parse_string_body (quote_chars s ++ String dquote rest) = Some (s, rest).
Proof.
  induction s as [|c s IH]; [reflexivity|].
  cbn [quote_chars]. rewrite append_assoc, parse_string_body_quote_char, IH.
  reflexivity.
Qed.

(** *** Objects in enumeration order are rebuilt as they are *)

Lemma mem_string_app k l1 l2 :
  mem_string k (l1 ++ l2)%list = mem_string k l1 || mem_string k l2.
Proof. unfold mem_string. apply existsb_app. Qed.

Lemma mem_string_false k l : mem_string k l = false -> ~ In k l.
Proof.
  unfold mem_string. intros H Hin.
  assert (existsb (String.eqb k) l = true).
  { apply existsb_exists. exists k. split; [assumption|apply String.eqb_refl]. }
  congruence.
Qed.

Lemma plain_keys_prefix l1 l2 :
  plain_keys (l1 ++ l2)%list = true -> plain_keys l1 = true.
Proof.
  induction l1 as [|k l1 IH]; simpl; [reflexivity|].
  destruct (array_index k); [discriminate|].
  rewrite mem_string_app. intros H.
  apply andb_true_iff in H. destruct H as [Hm Hp].
  apply negb_true_iff, orb_false_iff in Hm. destruct Hm as [Hm _].
  rewrite Hm, (IH Hp). reflexivity.
Qed.

Lemma enumeration_order_prefix l1 l2 : forall above,
  enumeration_order above (l1 ++ l2)%list = true ->
  enumeration_order above l1 = true.
Proof.
  induction l1 as [|k l1 IH]; intros above; [reflexivity|].
  change ((k :: l1) ++ l2)%list with (k :: (l1 ++ l2))%list.
  cbn [enumeration_order].
  destruct (array_index k) as [i|] eqn:Ek.
  - intros H. apply andb_true_iff in H. destruct H as [Ha Ho].
    rewrite Ha, (IH _ Ho). reflexivity.
  - intros H. change (plain_keys ((k :: l1) ++ l2)%list = true) in H.
    apply plain_keys_prefix in H. exact H.
Qed.

Lemma plain_keys_enumeration_order l above :
  plain_keys l = true -> enumeration_order above l = true.
Proof.
  destruct l as [|k l]; [reflexivity|]. intros H.
  pose proof H as H'. cbn [plain_keys] in H.
  destruct (array_index k) eqn:Ek; [discriminate|].
  cbn [enumeration_order]. rewrite Ek. exact H'.
Qed.

Lemma plain_keys_last ks k :
  plain_keys (ks ++ [k])%list = true ->
  array_index k = None /\ ~ In k ks.
Proof.
  induction ks as [|k' ks IH]; simpl.
  - destruct (array_index k); [discriminate|]. intros _. split; [reflexivity|tauto].
  - destruct (array_index k') eqn:Ek'; [discriminate|].
    rewrite mem_string_app. intros H.
    apply andb_true_iff in H. destruct H as [Hm Hp].
    apply negb_true_iff, orb_false_iff in Hm. destruct Hm as [_ Hm].
    destruct (IH Hp) as [Hk Hnin]. split; [assumption|].
    intros [Heq|Hin]; [|tauto]. subst k'.
    simpl in Hm. rewrite String.eqb_refl in Hm. discriminate.
Qed.

(** Every key before an index key is a smaller index. *)
Lemma enumeration_order_last_index ks k i : forall above,
  enumeration_order above (ks ++ [k])%list = true ->
  array_index k = Some i ->
  match above with Some j => (j < i)%N | None => True end /\
  Forall (fun k' => exists j, array_index k' = Some j /\ (j < i)%N) ks.
Proof.
  induction ks as [|k' ks IH]; intros above H Hk.
  - simpl in H. rewrite Hk in H. rewrite andb_true_r in H.
    split; [|constructor]. destruct above; [|exact I]. now apply N.ltb_lt.
  - change ((k' :: ks) ++ [k])%list with (k' :: (ks ++ [k]))%list in H.
    cbn [enumeration_order] in H.
    destruct (array_index k') as [j|] eqn:Ek'.
    + apply andb_true_iff in H. destruct H as [Ha Ho].
      destruct (IH _ Ho Hk) as [Hji Hall]. split.
      * destruct above as [a|]; [|exact I]. apply N.ltb_lt in Ha. lia.
      * constructor; [eauto|assumption].
    + change (plain_keys ((k' :: ks) ++ [k])%list = true) in H.
      apply plain_keys_last in H. destruct H as [H _]. congruence.
Qed.

(** No key before a plain key is that key. *)
Lemma enumeration_order_last_plain ks k : forall above,
  enumeration_order above (ks ++ [k])%list = true ->
  array_index k = None -> ~ In k ks.
Proof.
  induction ks as [|k' ks IH]; intros above H Hk; [simpl; tauto|].
  change ((k' :: ks) ++ [k])%list with (k' :: (ks ++ [k]))%list in H.
  cbn [enumeration_order] in H.
  destruct (array_index k') as [j|] eqn:Ek'.
  - apply andb_true_iff in H. destruct H as [_ Ho].
    intros [Heq|Hin]; [congruence|]. exact (IH _ Ho Hk Hin).
  - change (plain_keys ((k' :: ks) ++ [k])%list = true) in H.
    apply plain_keys_last in H. tauto.
Qed.

Lemma lookup_field_not_in k fields :
  ~ In k (map fst fields) -> lookup_field k fields = None.
Proof.
  induction fields as [|[k' v] fields IH]; simpl; [reflexivity|].
  intros H. destruct (String.eqb_spec k k') as [->|Hne]; [tauto|].
  apply IH. tauto.
Qed.

Lemma insert_index_last i k v fields :
  Forall (fun k' => exists j, array_index k' = Some j /\ (j < i)%N)
    (map fst fields) ->
  insert_index i k v fields = (fields ++ [(k, v)])%list.
Proof.
  induction fields as [|[k' v'] fields IH]; simpl; [reflexivity|].
  intros H. inversion H as [|? ? (j & Hj & Hlt) Hrest]; subst.
  rewrite Hj. apply N.ltb_lt in Hlt. rewrite Hlt, (IH Hrest). reflexivity.
Qed.

Lemma set_field_last k v fields :
  enumeration_order None (map fst (fields ++ [(k, v)]))%list = true ->
  set_field k v fields = (fields ++ [(k, v)])%list.
Proof.
  rewrite map_app. simpl map. intros H. unfold set_field.
  destruct (array_index k) as [i|] eqn:Ek.
  - destruct (enumeration_order_last_index _ _ _ _ H Ek) as [_ Hall].
    rewrite lookup_field_not_in.
    + apply insert_index_last. assumption.
    + intros Hin. rewrite List.Forall_forall in Hall.
      destruct (Hall _ Hin) as (j & Hj & Hlt).
      rewrite Ek in Hj. inversion Hj; subst. lia.
  - rewrite lookup_field_not_in; [reflexivity|].
    eapply enumeration_order_last_plain; eassumption.
Qed.

Lemma fold_set_field l : forall acc,
  enumeration_order None (map fst (acc ++ l))%list = true ->
  fold_left (fun o kv => set_field (fst kv) (snd kv) o) l acc
  = (acc ++ l)%list.
Proof.
  induction l as [|[k v] l IH]; intros acc H; simpl.
  - now rewrite app_nil_r.
  - replace (acc ++ (k, v) :: l)%list with ((acc ++ [(k, v)]) ++ l)%list in *
      by (rewrite <- app_assoc; reflexivity).
    rewrite set_field_last.
    + apply IH. assumption.
    + rewrite map_app in H. eapply enumeration_order_prefix. eassumption.
Qed.

Lemma build_object_ordered fields :
  enumeration_order None (map fst fields) = true ->
  build_object fields = fields.
Proof. intros H. unfold build_object. now rewrite fold_set_field. Qed.

(** *** The round trip *)

Lemma value_start_not_ws c :
  value_start c = true ->
  is_ws c = false /\ Ascii.eqb c "]" = false /\ Ascii.eqb c "}" = false.
Proof. destruct c as [[] [] [] [] [] [] [] []]; vm_compute; intuition congruence. Qed.

Lemma number_start_dispatch c :
  is_digit c || Ascii.eqb c "-" = true ->
  is_ws c = false /\ Ascii.eqb c "{" = false /\ Ascii.eqb c "[" = false /\
  Ascii.eqb c dquote = false /\ Ascii.eqb c "t" = false /\
  Ascii.eqb c "f" = false /\ Ascii.eqb c "n" = false /\ value_start c = true.
Proof. destruct c as [[] [] [] [] [] [] [] []]; vm_compute; intuition congruence. Qed.

Lemma parse_value_number fuel c r :
  is_digit c || Ascii.eqb c "-" = true ->
  parse_value (S fuel) (String c r)
  = match parse_number (String c r) with
    | Some (v, r') => POk v r'
    | None => PErr
    end.
Proof.
  intros H. destruct (number_start_dispatch c H)
    as (H1 & H2 & H3 & H4 & H5 & H6 & H7 & _).
  cbn [parse_value skip_ws]. rewrite H1, H2, H3, H4, H5, H6, H7. reflexivity.
Qed.

(** What [Number::toString] writes for a finite double, negative zero
    apart, is a number token that denotes the double. *)
Theorem toString_parse_number x rest :
  json_number x = true -> delimited rest = true ->
  parse_number (Number.toString x ++ rest) = Some (JNumber x, rest) /\
  exists c r, Number.toString x = String c r /\
    is_digit c || Ascii.eqb c "-" = true.
Proof.
  intros Hx Hr. destruct x as [|neg|neg|neg m e]; try discriminate Hx.
  - destruct neg; [discriminate Hx|]. cbn [Number.toString].
    split; [|eexists _, _; split; reflexivity].
    exact (TokenFacts.parse_number_text false "0" EmptyString None rest
             eq_refl eq_refl eq_refl Hr).
  - cbn [json_number] in Hx. cbn [Number.toString].
    destruct (NumberFacts.shortest_reads_as m e Hx) as [Hpos Hread].
    destruct (shortest m e) as [s n]. cbn [fst snd] in Hpos, Hread.
    destruct (FormatFacts.format_text s n Hpos)
      as (ip & fp & ex & Hf & Hip & Hok & Hfp & Hval).
    pose proof (TokenFacts.parse_number_text neg ip fp ex rest Hip Hok Hfp Hr)
      as Hp.
    rewrite (Hval neg) in Hp.
    assert (Hsign : of_decimal neg s (n - ndigits s) = Finite neg m e).
    { unfold of_decimal in *. destruct neg; [|exact Hread].
      cbv zeta in Hread. rewrite Hread. reflexivity. }
    rewrite Hsign in Hp.
    destruct (TokenFacts.int_part_ok_head ip Hok Hip) as (c & r & Hc & Hd).
    split.
    + rewrite <- Hp, Hf. destruct neg; norm_append; reflexivity.
    + rewrite Hf. destruct neg.
      * eexists _, _. split; reflexivity.
      * exists c. rewrite Hc, append_String. eexists. split; [reflexivity|].
        now rewrite Hd.
Qed.

Lemma reads_back_number x :
  json_number x = true -> reads_back (Number.toString x) (JNumber x).
Proof.
  intros Hx fuel rest Hr. destruct fuel as [|fuel]; [left; reflexivity|right].
  destruct (toString_parse_number x rest Hx Hr) as (Hp & c & r & Hs & Hc).
  rewrite Hs in *. rewrite append_String in *.
  rewrite (parse_value_number _ _ _ Hc), Hp. reflexivity.
Qed.

Lemma json_number_finite x : json_number x = true -> is_finite x = true.
Proof. destruct x; try discriminate; reflexivity. Qed.

Lemma reads_back_string s : reads_back (QuoteJSONString s) (JString s).
Proof.
  intros fuel rest _. destruct fuel as [|fuel]; [left; reflexivity|right].
  unfold QuoteJSONString. rewrite append_String, append_assoc, append_String,
    append_empty_l.
  cbn [parse_value skip_ws].
  replace (is_ws dquote) with false by reflexivity.
  replace (Ascii.eqb dquote "{") with false by reflexivity.
  replace (Ascii.eqb dquote "[") with false by reflexivity.
  replace (Ascii.eqb dquote dquote) with true by reflexivity.
  rewrite parse_string_body_quote. reflexivity.
Qed.

Lemma reads_back_null : reads_back "null" JNull.
Proof.
  intros fuel rest _. destruct fuel as [|fuel]; [left|right]; reflexivity.
Qed.

Lemma reads_back_bool (b : bool) :
  reads_back (if b then "true" else "false") (JBool b).
Proof.
  intros fuel rest _.
  destruct fuel as [|fuel]; [left; reflexivity|right].
  destruct b; reflexivity.
Qed.

(** Elements: [texts] are the texts of [items], one by one. *)
Lemma parse_elements_join texts items :
  Forall2 reads_back texts items -> items <> [] ->
  forall fuel rest,
    parse_elements fuel (join "," texts ++ String "]" rest) = PFuel \/
    parse_elements fuel (join "," texts ++ String "]" rest) = POk items rest.
Proof.
  induction 1 as [|t v texts items Hv Hrest IH]; [congruence|].
  intros _ fuel rest. destruct fuel as [|fuel]; [left; reflexivity|].
  destruct Hrest as [|t2 v2 texts items Hv2 Hrest].
  - cbn [join parse_elements].
    destruct (Hv fuel (String "]" rest) eq_refl) as [->| ->];
      [left; reflexivity|right]. reflexivity.
  - assert (Hj : join "," (t :: t2 :: texts) ++ String "]" rest
                 = t ++ String "," (join "," (t2 :: texts) ++ String "]" rest)).
    { cbn [join]. rewrite !append_assoc, append_String, append_empty_l.
      reflexivity. }
    rewrite Hj. cbn [parse_elements].
    destruct (Hv fuel (String "," (join "," (t2 :: texts) ++ String "]" rest))
                eq_refl) as [->| ->]; [left; reflexivity|].
    cbn [skip_ws]. replace (is_ws ",") with false by reflexivity.
    replace (Ascii.eqb "," ",") with true by reflexivity.
    destruct (IH ltac:(discriminate) fuel rest) as [->| ->];
      [left|right]; reflexivity.
Qed.

Lemma parse_members_join texts fields :
  Forall2 (fun t kv => reads_back (snd t) (snd kv) /\ fst t = fst kv)
    texts fields ->
  fields <> [] ->
  forall fuel rest,
    let text :=
      join "," (map (fun t => member_text (fst t) (snd t)) texts)
        ++ String "}" rest in
    parse_members fuel text = PFuel \/ parse_members fuel text = POk fields rest.
Proof.
  induction 1 as [|[k t] [k' v] texts fields [Hv Hk] Hrest IH]; [congruence|].
  simpl in Hv, Hk. subst k'.
  intros _ fuel rest. destruct fuel as [|fuel]; [left; reflexivity|].
  assert (Hstep : forall tail,
    parse_members (S fuel) (member_text k t ++ tail)
    = match parse_value fuel (t ++ tail) with
      | POk v rest3 =>
          match skip_ws rest3 with
          | EmptyString => PErr
          | String c3 rest4 =>
              if Ascii.eqb c3 "," then
                match parse_members fuel rest4 with
                | POk ms r => POk ((k, v) :: ms) r
                | PErr => PErr
                | PFuel => PFuel
                end
              else if Ascii.eqb c3 "}" then POk [(k, v)] rest4
              else PErr
          end
      | PErr => PErr
      | PFuel => PFuel
      end).
  { intros tail. unfold member_text, QuoteJSONString.
    rewrite !append_assoc, !append_String, !append_assoc, !append_String,
      !append_empty_l.
    cbn [parse_members skip_ws].
    replace (is_ws dquote) with false by reflexivity.
    replace (Ascii.eqb dquote dquote) with true by reflexivity.
    rewrite parse_string_body_quote. cbn [skip_ws].
    replace (is_ws ":") with false by reflexivity.
    replace (Ascii.eqb ":" ":") with true by reflexivity.
    reflexivity. }
  destruct Hrest as [|[k2 t2] kv2 texts fields Hv2 Hrest].
  - cbn [map join]. cbv zeta. rewrite Hstep.
    destruct (Hv fuel (String "}" rest) eq_refl) as [->| ->];
      [left; reflexivity|right]. reflexivity.
  - cbv zeta.
    assert (Hj : forall a b l,
      join "," (a :: b :: l) ++ String "}" rest
      = a ++ String "," (join "," (b :: l) ++ String "}" rest)).
    { intros a b l. cbn [join].
      rewrite !append_assoc, append_String, append_empty_l. reflexivity. }
    cbn [map]. rewrite Hj, Hstep.
    match goal with
    | |- context [parse_value fuel (t ++ ?tail)] =>
        destruct (Hv fuel tail eq_refl) as [->| ->]; [left; reflexivity|]
    end.
    cbn [skip_ws]. replace (is_ws ",") with false by reflexivity.
    replace (Ascii.eqb "," ",") with true by reflexivity.
    destruct (IH ltac:(discriminate) fuel rest) as [H|H];
      cbv zeta in H; cbn [map] in H; rewrite H; [left|right]; reflexivity.
Qed.

Lemma SerializeJSONProperty_array items :
  SerializeJSONProperty (JArray items)
  = (let* parts := serialize_elements items in
     Normal (Some ("[" ++ join "," parts ++ "]"))).
Proof. reflexivity. Qed.

Lemma SerializeJSONProperty_object fields :
  SerializeJSONProperty (JObject fields)
  = (let* parts := serialize_members fields in
     Normal (Some ("{" ++ join "," parts ++ "}"))).
Proof. reflexivity. Qed.

Lemma serialize_elements_cons x l :
  serialize_elements (x :: l)
  = (let* o := SerializeJSONProperty x in
     let* r := serialize_elements l in
     Normal (match o with Some t => t | None => "null" end :: r)).
Proof. reflexivity. Qed.

Lemma serialize_members_cons kv l :
  serialize_members (kv :: l)
  = (let* o := SerializeJSONProperty (snd kv) in
     let* r := serialize_members l in
     Normal (match o with
             | Some t => (QuoteJSONString (fst kv) ++ ":" ++ t) :: r
             | None => r
             end)).
Proof. reflexivity. Qed.

Lemma serialize_elements_writes items :
  Forall (fun v => serializable v = true -> exists s, writes v s) items ->
  forallb serializable items = true ->
  exists texts,
    serialize_elements items = Normal texts /\
    Forall2 reads_back texts items /\ Forall starts_value texts.
Proof.
  induction 1 as [|v items Hv _ IH]; intros Hs.
  - exists []. repeat split; constructor.
  - simpl in Hs. apply andb_true_iff in Hs. destruct Hs as [Hsv Hsl].
    destruct (Hv Hsv) as (t & Ht & Hrb & Hst).
    destruct (IH Hsl) as (texts & Htexts & Hall & Hstarts).
    exists (t :: texts). rewrite serialize_elements_cons, Ht, Htexts.
    repeat split; constructor; assumption.
Qed.

Lemma serialize_members_writes fields :
  Forall (fun kv => serializable (snd kv) = true -> exists s, writes (snd kv) s)
    fields ->
  forallb (fun kv => serializable (snd kv)) fields = true ->
  exists texts : list (string * string),
    serialize_members fields
    = Normal (map (fun t => member_text (fst t) (snd t)) texts) /\
    Forall2 (fun t kv => reads_back (snd t) (snd kv) /\ fst t = fst kv)
      texts fields.
Proof.
  induction 1 as [|[k v] fields Hv _ IH]; intros Hs.
  - exists []. split; constructor.
  - simpl in Hs. apply andb_true_iff in Hs. destruct Hs as [Hsv Hsl].
    destruct (Hv Hsv) as (t & Ht & Hrb & Hst).
    destruct (IH Hsl) as (texts & Htexts & Hall).
    exists ((k, t) :: texts). simpl in Ht.
    rewrite serialize_members_cons. simpl snd. simpl fst.
    rewrite Ht, Htexts.
    split; [reflexivity|]. constructor; [split; [assumption|reflexivity]|assumption].
Qed.

Lemma join_head sep c r texts :
  exists r', join sep (String c r :: texts) = String c r'.
Proof.
  destruct texts as [|t texts]; cbn [join].
  - eauto.
  - rewrite append_String. eauto.
Qed.

Theorem serializable_writes v :
  serializable v = true -> exists s, writes v s.
Proof.
  induction v as [| |b|x|z|s|items IH|fields IH] using value_ind;
    intros Hs; try discriminate Hs.
  - exists "null". repeat split; [apply reads_back_null|].
    eexists _, _. split; reflexivity.
  - exists (if b then "true" else "false").
    split; [destruct b; reflexivity|]. split; [apply reads_back_bool|].
    destruct b; eexists _, _; split; reflexivity.
  - exists (Number.toString x). cbn [serializable] in Hs.
    split; [cbn [SerializeJSONProperty]; now rewrite (json_number_finite x Hs)|].
    split; [apply reads_back_number; exact Hs|].
    destruct (toString_parse_number x EmptyString Hs eq_refl)
      as (_ & c & r & Hx & Hc).
    exists c, r. split; [assumption|].
    now destruct (number_start_dispatch c Hc) as (_ & _ & _ & _ & _ & _ & _ & H).
  - exists (QuoteJSONString s). split; [reflexivity|].
    split; [apply reads_back_string|]. eexists _, _. split; reflexivity.
  - simpl in Hs.
    destruct (serialize_elements_writes items IH Hs)
      as (texts & Htexts & Hall & Hstarts).
    exists ("[" ++ join "," texts ++ "]").
    split; [rewrite SerializeJSONProperty_array, Htexts; reflexivity|].
    split; [|eexists _, _; split; reflexivity].
    intros fuel rest _. destruct fuel as [|fuel]; [left; reflexivity|].
    norm_append.
    cbn [parse_value skip_ws]. replace (is_ws "[") with false by reflexivity.
    replace (Ascii.eqb "[" "{") with false by reflexivity.
    replace (Ascii.eqb "[" "[") with true by reflexivity.
    destruct Hall as [|t v texts items Hv Hrest].
    + right. reflexivity.
    + inversion Hstarts as [|? ? (c & r & -> & Hc) _]; subst.
      destruct (join_head "," c r texts) as (r' & Hj).
      destruct (value_start_not_ws c Hc) as (Hws & Hclose & _).
      rewrite Hj, append_String. cbn [skip_ws]. rewrite Hws, Hclose.
      rewrite <- append_String, <- Hj.
      destruct (parse_elements_join (String c r :: texts) (v :: items)
                  ltac:(constructor; assumption) ltac:(discriminate) fuel rest)
        as [->| ->]; [left|right]; reflexivity.
  - simpl in Hs. apply andb_true_iff in Hs. destruct Hs as [Hord Hs].
    pose proof (build_object_ordered _ Hord) as Hbuild. clear Hord.
    destruct (serialize_members_writes fields IH Hs) as (texts & Htexts & Hall).
    exists ("{" ++ join "," (map (fun t => member_text (fst t) (snd t)) texts)
              ++ "}").
    split; [rewrite SerializeJSONProperty_object, Htexts; reflexivity|].
    split; [|eexists _, _; split; reflexivity].
    intros fuel rest _. destruct fuel as [|fuel]; [left; reflexivity|].
    norm_append.
    cbn [parse_value skip_ws]. replace (is_ws "{") with false by reflexivity.
    replace (Ascii.eqb "{" "{") with true by reflexivity.
    destruct Hall as [|[k t] kv texts fields Hv Hrest].
    + right. reflexivity.
    + pose proof (parse_members_join ((k, t) :: texts) (kv :: fields)
                    ltac:(constructor; assumption) ltac:(discriminate)
                    fuel rest) as Hm.
      cbv zeta in Hm.
      destruct (join_head "," dquote
                  (quote_chars k ++ String dquote EmptyString ++ ":" ++ t)
                  (map (fun t => member_text (fst t) (snd t)) texts))
        as (r' & Hj).
      assert (Hmt : member_text k t
                    = String dquote (quote_chars k ++ String dquote EmptyString
                                       ++ ":" ++ t)).
      { unfold member_text, QuoteJSONString.
        rewrite append_String, append_assoc. reflexivity. }
      cbn [map fst snd] in *. rewrite Hmt in *. rewrite Hj, append_String in *.
      cbn [skip_ws]. replace (is_ws dquote) with false by reflexivity.
      replace (Ascii.eqb dquote "}") with false by reflexivity.
      destruct Hm as [->| ->]; [left; reflexivity|right].
      rewrite Hbuild. reflexivity.
Qed.

(** [JSON.parse(JSON.stringify(v))] is [v] on serializable values. *)
Theorem parse_stringify v :
  serializable v = true ->
  exists s, stringify v = Normal (Some s) /\ parse s = Normal v.
Proof.
  intros Hs. destruct (serializable_writes v Hs) as (s & Hw & Hrb & _).
  exists s. split; [exact Hw|].
  unfold parse. pose proof (parse_value_enough_fuel s) as Hfuel.
  specialize (Hrb (parse_fuel s) EmptyString eq_refl).
  rewrite append_nil_r in Hrb. destruct Hrb as [Hrb|Hrb]; [congruence|].
  rewrite Hrb. reflexivity.
Qed.

(** *** The platform functions on small inputs *)

(** [{"b":1,"1":2,"b":3}]: the last value of a repeated key stays, at the
    place of the first, and an index key comes before the other keys. *)
Example parse_repeated_and_index_keys :
  parse ("{" ++ q "b" ++ ":1," ++ q "1" ++ ":2, " ++ q "b" ++ ": 3}")
  = Normal (JObject [("1", JNumber (of_Z 2)); ("b", JNumber (of_Z 3))]).
Proof. reflexivity. Qed.

(** Number tokens denote doubles: [1.5] is [3 * 2 ^ -1], [1e3] and
    [1000.0] are the same number, [-0] is negative zero, an integer beyond
    2^53 is rounded to a double and a number beyond the largest double is
    infinite. *)
Example parse_numbers :
  parse "[0, -7, 1.5, 1e3, 1000.0, -0, 9007199254740991, 9007199254740993, 1e999]"
  = Normal (JArray [ JNumber (Zero false); JNumber (of_Z (-7));
                     JNumber (Finite false 6755399441055744 (-52));
                     JNumber (of_Z 1000); JNumber (of_Z 1000);
                     JNumber (Zero true);
                     JNumber (of_Z 9007199254740991);
                     JNumber (of_Z 9007199254740992);
                     JNumber (Infinity false) ]).
Proof. vm_compute. reflexivity. Qed.

(** [Number::toString]: the shortest digits that read as the number,
    plain up to 21 integer digits and 6 leading zeros of the fraction. *)
Example toString_numbers :
  map Number.toString
    [ of_decimal false 1 (-1); of_decimal false 25 (-1);
      of_decimal false 30000000000000004 (-17); of_Z (-2000);
      of_decimal false 1 21; of_decimal false 1 20;
      of_Z 123456789012345678901; of_decimal false 1 (-6);
      of_decimal false 1 (-7); of_decimal true 15 (-8);
      of_decimal false 17976931348623157 292; of_decimal false 1 23;
      Zero true; NaN; Infinity true ]
  = [ "0.1"; "2.5"; "0.30000000000000004"; "-2000"; "1e+21";
      "100000000000000000000"; "123456789012345680000"; "0.000001"; "1e-7";
      "-1.5e-7"; "1.7976931348623157e+308"; "1e+23"; "0"; "NaN";
      "-Infinity" ].
Proof. vm_compute. reflexivity. Qed.

(** What [JSON.stringify] writes for a number that is not finite, and for
    negative zero, does not read as that number. *)
Example stringify_numbers_not_read_back :
  stringify (JArray [JNumber NaN; JNumber (Infinity false); JNumber (Zero true)])
  = Normal (Some "[null,null,0]") /\
  parse "[null,null,0]" = Normal (JArray [JNull; JNull; JNumber (Zero false)]).
Proof. split; reflexivity. Qed.

Example parse_rejects :
  Forall (fun text => exists e, parse text = Throw e)
    [ EmptyString; "{"; "[1,]"; "01"; "nul"; "1 2"; "+1"; ".5"; "{a:1}";
      q "\x" ].
Proof. repeat constructor; eexists; reflexivity. Qed.

(** Escapes: [\u00e9] is the two bytes of U+00E9, and a surrogate pair
    is one code point. *)
Example parse_escapes :
  parse (q "\u00e9\n\ud83d\ude00")
  = Normal (JString (utf8_encode 233 ++ String (ascii_of_N 10) EmptyString
                       ++ utf8_encode 128512)).
Proof. reflexivity. Qed.

Example stringify_skips_undefined :
  stringify (JObject [("a", JUndefined); ("b", JArray [JUndefined; JNull])])
  = Normal (Some ("{" ++ q "b" ++ ":[null,null]}")).
Proof. reflexivity. Qed.

Example stringify_throws_on_bigint :
  stringify (JObject [("n", JBigInt 1)])
  = Throw (TypeError "Do not know how to serialize a BigInt").
Proof. reflexivity. Qed.

End JSONFacts.

(** ** Percent-encoding *)

Module URIFacts.

Import Js Chars URI.

Example decodeURIComponent_decodes :
  decodeURIComponent "a%20b%C3%A9+%2F" = Normal ("a b" ++ utf8_encode 233 ++ "+/").
Proof. reflexivity. Qed.

Example decodeURIComponent_rejects :
  Forall (fun s => decodeURIComponent s = Throw URIError)
    [ "%"; "%2"; "%zz"; "100%"; "%C3"; "%C3x"; "%80"; "%C0%80"; "%E0%80%80";
      "%ED%A0%80"; "%F4%90%80%80"; "%FF" ].
Proof. repeat constructor. Qed.

Example urlencoded_serialize_pairs :
  urlencoded_serialize [("a b", "x&y=z"); ("k", EmptyString); ("t*", "~")]
  = "a+b=x%26y%3Dz&k=&t*=%7E".
Proof. reflexivity. Qed.

(** Decoding then encoding normalises a value that was already encoded. *)
Example decode_then_encode :
  match decodeURIComponent "a%20b" with
  | Normal d => urlencode d
  | Throw _ => EmptyString
  end = "a+b".
Proof. reflexivity. Qed.

End URIFacts.

(** ** The structured-error parser and the timeout race *)

Module ErrorsFacts.

Import Js Chars JSON URI Errors Client Examples.

Lemma APIErrorCode_value_in_table (c : APIErrorCode) :
  mem_string (APIErrorCode_value c) apiErrorCodes = true.
Proof. destruct c; reflexivity. Qed.

Lemma mem_apiErrorCodes (s : string) :
  mem_string s apiErrorCodes = true <-> exists c, s = APIErrorCode_value c.
Proof.
  split.
  - unfold mem_string. intros H. apply existsb_exists in H.
    destruct H as (x & Hin & Heq). apply String.eqb_eq in Heq. subst x.
    unfold apiErrorCodes in Hin. apply in_map_iff in Hin.
    destruct Hin as (c & Hc & _). eauto.
  - intros (c & ->). apply APIErrorCode_value_in_table.
Qed.

Lemma isAPIErrorCode_member (c : APIErrorCode) :
  isAPIErrorCode (JString (APIErrorCode_value c)) = true.
Proof.
  unfold isAPIErrorCode, has_property.
  now rewrite APIErrorCode_value_in_table.
Qed.

Lemma typeof_string v :
  String.eqb (typeof v) "string" = true <-> exists s, v = JString s.
Proof.
  split.
  - destruct v; try discriminate. eauto.
  - intros (s & ->). reflexivity.
Qed.

(** A match, from what the body parses to. *)
Lemma parseAPIErrorResponseBody_match text fields c m :
  JSON.parse text = Normal (JObject fields) ->
  lookup_field "message" fields = Some (JString m) ->
  lookup_field "code" fields = Some (JString c) ->
  has_property apiErrorCodes c = true ->
  parseAPIErrorResponseBody (JString text)
  = Some {| parsed_fields := fields; parsed_code := c; parsed_message := m |}.
Proof.
  intros Hp Hm Hc Hin. unfold parseAPIErrorResponseBody.
  rewrite Hp. unfold get. rewrite Hm, Hc. simpl. rewrite Hin. reflexivity.
Qed.

(** When the parser finds no match, in the code's own terms. *)
Lemma parseAPIErrorResponseBody_none body :
  parseAPIErrorResponseBody body = None <->
  match body with
  | JString text =>
      match JSON.parse text with
      | Throw _ => True
      | Normal parsed =>
          isObject parsed = false
          \/ String.eqb (typeof (get parsed "message")) "string" = false
          \/ isAPIErrorCode (get parsed "code") = false
      end
  | _ => True
  end.
Proof.
  destruct body as [| | | | |text| |]; try (simpl; tauto).
  unfold parseAPIErrorResponseBody.
  destruct (JSON.parse text) as [parsed|e]; [|tauto].
  destruct (isObject parsed) eqn:Ho; cbn [negb orb]; [|tauto].
  destruct (String.eqb (typeof (get parsed "message")) "string") eqn:Hm;
    cbn [negb orb]; [|tauto].
  destruct (isAPIErrorCode (get parsed "code")) eqn:Hc; cbn [negb orb]; [|tauto].
  destruct parsed; try discriminate Ho.
  apply typeof_string in Hm. destruct Hm as (m & Hm). rewrite Hm.
  destruct (get (JObject fields) "code") eqn:Hcode; try discriminate Hc.
  split; [discriminate|]. intros [H|[H|H]]; discriminate H.
Qed.

(** The membership test of the parser: the eleven codes, and the names
    every object inherits. *)
Lemma isAPIErrorCode_true v :
  isAPIErrorCode v = true <->
  exists c, v = JString c /\
    ((exists code, c = APIErrorCode_value code) \/ In c Object_prototype_keys).
Proof.
  split.
  - destruct v; try discriminate. cbn [isAPIErrorCode]. unfold has_property.
    intros H. exists s. split; [reflexivity|].
    apply orb_true_iff in H. destruct H as [H|H].
    + left. now apply mem_apiErrorCodes.
    + right. unfold mem_string in H. apply existsb_exists in H.
      destruct H as (x & Hin & Hx). apply String.eqb_eq in Hx. now subst.
  - intros (c & -> & [H|H]); cbn [isAPIErrorCode]; unfold has_property;
      apply orb_true_iff.
    + left. now apply mem_apiErrorCodes.
    + right. unfold mem_string. apply existsb_exists. exists c.
      split; [assumption|apply String.eqb_refl].
Qed.

(** An array has no string [message]: a test [isObject] that lets arrays
    through leaves the parser as it is. *)
Lemma array_has_no_message items :
  String.eqb (typeof (get (JArray items) "message")) "string" = false.
Proof. reflexivity. Qed.



Lemma timer_delay_positive timeoutMS : 1 <= timer_delay timeoutMS.
Proof.
  unfold timer_delay. destruct (Z.leb_spec 1 timeoutMS); cbn [andb]; [|lia].
  destruct (timeoutMS <=? TIMEOUT_MAX)%Z; lia.
Qed.



Lemma rejectAfterTimeout_settles_before {A} ms (s : settlement thrown A)
    (timeoutMS : Z) :
  ms <= timer_delay timeoutMS ->
  rejectAfterTimeout (SettlesAt ms s) timeoutMS = mkRace (Some s) None.
Proof.
  intros H. unfold rejectAfterTimeout, schedule, armed. cbn [timer].
  apply Z.leb_le in H. rewrite H. destruct s; reflexivity.
Qed.

Lemma await_settles_before {A} ms (s : settlement thrown A) (timeoutMS : Z) :
  ms <= timer_delay timeoutMS ->
  await (rejectAfterTimeout (SettlesAt ms s) timeoutMS) = Settled s.
Proof. intros H. now rewrite rejectAfterTimeout_settles_before. Qed.

Lemma await_timer_first {A} (p : timed A) (timeoutMS : Z) :
  (forall ms s, p = SettlesAt ms s -> timer_delay timeoutMS < ms) ->
  await (rejectAfterTimeout p timeoutMS)
  = Settled (Rejected (ClientError new_RequestTimeoutError)).
Proof.
  destruct p as [|ms s]; intros H; [reflexivity|].
  specialize (H ms s eq_refl). apply Z.leb_gt in H.
  unfold rejectAfterTimeout, schedule, armed. cbn [timer]. rewrite H.
  destruct s; reflexivity.
Qed.


End ErrorsFacts.

(** ** The request operation *)

Module ClientFacts.

Import Js Chars JSON URI Errors Client Notions Examples.

Section WithPlatform.

Variable new_URL : string -> completion Error URL.

Lemma rethrow_id (x : promise thrown value) : rethrow x = x.
Proof.
  destruct x as [|[v|e]]; try reflexivity.
  simpl. destruct (isClientError e); reflexivity.
Qed.

Lemma request_built c p w :
  build_request new_URL c p = Normal w ->
  request new_URL c p = attempt c w.
Proof. intros H. unfold request. rewrite H. apply rethrow_id. Qed.

Lemma request_not_built c p e :
  build_request new_URL c p = Throw e ->
  request new_URL c p = Settled (Rejected (Foreign e)).
Proof. intros H. unfold request. now rewrite H. Qed.

(** What the call does with a response the transport delivers. *)
Lemma attempt_delivered c w r :
  delivers c w r ->
  attempt c w
  = match text r with
    | Pending => Pending
    | Settled (Rejected e) => Settled (Rejected e)
    | Settled (Fulfilled responseText) =>
        if negb (ok r) then
          Settled (Rejected (ClientError (buildRequestError r responseText)))
        else
          match JSON.parse responseText with
          | Throw e => Settled (Rejected (Foreign e))
          | Normal responseJson => Settled (Fulfilled responseJson)
          end
    end.
Proof.
  unfold delivers, attempt. intros (ms & -> & Hms).
  rewrite (ErrorsFacts.await_settles_before _ _ _ Hms). reflexivity.
Qed.

(** The outcome of the [try] block, by what the transport does. *)
Lemma attempt_cases c w :
  match c_fetch c (wire_url w) (wire_init w) with
  | FetchThrows e => attempt c w = Settled (Rejected e)
  | FetchPromise NeverSettles =>
      attempt c w = Settled (Rejected (ClientError new_RequestTimeoutError))
  | FetchPromise (SettlesAt ms s) =>
      if (ms <=? timer_delay (c_timeoutMs c))%Z then
        match s with
        | Rejected e =>
            attempt c w = Settled (Rejected e) /\
            settles_before_timer c w (Rejected e)
        | Fulfilled r => delivers c w r
        end
      else
        attempt c w = Settled (Rejected (ClientError new_RequestTimeoutError)) /\
        timer_delay (c_timeoutMs c) < ms
  end.
Proof.
  unfold attempt, delivers, settles_before_timer.
  destruct (c_fetch c (wire_url w) (wire_init w)) as [e|[|ms s]];
    try reflexivity.
  destruct (Z.leb_spec ms (timer_delay (c_timeoutMs c))) as [Hms|Hms].
  - destruct s as [r|e].
    + exists ms. now split.
    + rewrite (ErrorsFacts.await_settles_before _ _ _ Hms).
      split; [reflexivity|]. exists ms. now split.
  - split; [|exact Hms]. rewrite ErrorsFacts.await_timer_first; [reflexivity|].
    intros ms' s' H; inversion H; subst. exact Hms.
Qed.

(** C1. A response that is not ok and whose body text parses to an object
    with a string [message] and a [code] among the eleven API error codes
    makes the call reject with an [APIResponseError] that carries that
    code and message and the status, headers and body text of the
    response. *)
Theorem request_rejects_with_APIResponseError
    c p w response bodyText fields (code : APIErrorCode) msg :
  build_request new_URL c p = Normal w ->
  delivers c w response ->
  ok response = false ->
  text response = Settled (Fulfilled bodyText) ->
  JSON.parse bodyText = Normal (JObject fields) ->
  lookup_field "message" fields = Some (JString msg) ->
  lookup_field "code" fields = Some (JString (APIErrorCode_value code)) ->
  request new_URL c p
  = Settled (Rejected (ClientError (APIResponseError
      {| Errors.code := APIErrorCode_value code;
         err_status := status response;
         message := msg;
         err_headers := headers response;
         Errors.body := bodyText |}))).
Proof.
  intros Hb Hd Hok Ht Hp Hm Hc.
  rewrite (request_built _ _ _ Hb), (attempt_delivered _ _ _ Hd), Ht, Hok.
  cbn [negb]. unfold buildRequestError.
  rewrite (ErrorsFacts.parseAPIErrorResponseBody_match _ _ _ _ Hp Hm Hc).
  - reflexivity.
  - unfold has_property. now rewrite ErrorsFacts.APIErrorCode_value_in_table.
Qed.

(** X14. A response that is not ok and in whose body text
    [parseAPIErrorResponseBody] finds no structured error makes the call
    reject with an [UnknownHTTPResponseError] with code [response_error],
    the status, headers and body text of the response, and the message
    made from the decimal status. *)
Theorem request_rejects_with_UnknownHTTPResponseError
    c p w response bodyText :
  build_request new_URL c p = Normal w ->
  delivers c w response ->
  ok response = false ->
  text response = Settled (Fulfilled bodyText) ->
  parseAPIErrorResponseBody (JString bodyText) = None ->
  request new_URL c p
  = Settled (Rejected (ClientError (UnknownHTTPResponseError
      {| Errors.code := "response_error";
         err_status := status response;
         message :=
           "Request failed with status: " ++ string_of_Z (status response);
         err_headers := headers response;
         Errors.body := bodyText |}))).
Proof.
  intros Hb Hd Hok Ht Hp.
  rewrite (request_built _ _ _ Hb), (attempt_delivered _ _ _ Hd), Ht, Hok.
  cbn [negb]. unfold buildRequestError. rewrite Hp. reflexivity.
Qed.

Lemma enumerated_code_inherited c :
  In c Object_prototype_keys -> enumerated_code c = None.
Proof.
  intros H. repeat (destruct H as [<-|H]; [reflexivity|]). destruct H.
Qed.

(** C3 fails on the code.  A response that is not ok and whose body parses
    to a mapping with a string [message] and a [code] that names a property
    every object inherits ([toString], [constructor], ...) gives no
    structured-error match in the words of the specification, as that code
    is none of the eleven; yet the call rejects with an [APIResponseError]
    that carries it, and not with the [UnknownHTTPResponseError] of the
    claim. *)
Theorem request_misclassifies_inherited_code
    c p w response bodyText fields inherited msg :
  build_request new_URL c p = Normal w ->
  delivers c w response ->
  ok response = false ->
  text response = Settled (Fulfilled bodyText) ->
  JSON.parse bodyText = Normal (JObject fields) ->
  lookup_field "message" fields = Some (JString msg) ->
  lookup_field "code" fields = Some (JString inherited) ->
  In inherited Object_prototype_keys ->
  structured_error_match bodyText = None /\
  request new_URL c p
  = Settled (Rejected (ClientError (APIResponseError
      {| Errors.code := inherited;
         err_status := status response;
         message := msg;
         err_headers := headers response;
         Errors.body := bodyText |}))) /\
  request new_URL c p
  <> Settled (Rejected (ClientError (UnknownHTTPResponseError
       {| Errors.code := "response_error";
          err_status := status response;
          message :=
            "Request failed with status: " ++ string_of_Z (status response);
          err_headers := headers response;
          Errors.body := bodyText |}))).
Proof.
  intros Hb Hd Hok Ht Hp Hm Hc Hin.
  assert (Hreq : request new_URL c p
    = Settled (Rejected (ClientError (APIResponseError
        {| Errors.code := inherited;
           err_status := status response;
           message := msg;
           err_headers := headers response;
           Errors.body := bodyText |})))).
  { rewrite (request_built _ _ _ Hb), (attempt_delivered _ _ _ Hd), Ht, Hok.
    cbn [negb]. unfold buildRequestError.
    rewrite (ErrorsFacts.parseAPIErrorResponseBody_match _ _ _ _ Hp Hm Hc).
    - reflexivity.
    - unfold has_property, mem_string. apply orb_true_iff. right.
      apply existsb_exists. exists inherited.
      split; [exact Hin|apply String.eqb_refl]. }
  split; [|split].
  - unfold structured_error_match. rewrite Hp, Hm, Hc.
    now rewrite (enumerated_code_inherited _ Hin).
  - exact Hreq.
  - rewrite Hreq. discriminate.
Qed.


(** *** The request builder *)

Lemma append_pairs_app ps qs u :
  append_pairs (ps ++ qs)%list u = append_pairs qs (append_pairs ps u).
Proof. unfold append_pairs. apply fold_left_app. Qed.

Lemma append_array_pairs key vals : forall u,
  append_array key vals u
  = (let* ds := decode_all vals in
     Normal (append_pairs (map (fun d => (key, d)) ds) u)).
Proof.
  induction vals as [|val vals IH]; intros u; [reflexivity|].
  cbn [append_array decode_all]. destruct (decodeURIComponent val) as [d|e];
    [|reflexivity].
  cbn [bind]. rewrite IH. destruct (decode_all vals); reflexivity.
Qed.

Lemma append_entry_pairs u entry :
  append_entry u entry
  = (let* ps := entry_pairs entry in Normal (append_pairs ps u)).
Proof.
  destruct entry as [key [|s|n|vals]]; try reflexivity.
  unfold append_entry, entry_pairs. cbn [fst snd].
  rewrite append_array_pairs. destruct (decode_all vals); reflexivity.
Qed.

(** The loop over the entries appends the pairs the specification lists,
    in order, and fails where the first of them fails. *)
Lemma append_entries_pairs entries : forall u,
  append_entries entries u
  = (let* ps := query_pairs entries in Normal (append_pairs ps u)).
Proof.
  induction entries as [|entry entries IH]; intros u; [reflexivity|].
  cbn [append_entries query_pairs]. rewrite append_entry_pairs.
  destruct (entry_pairs entry) as [ps|e]; [|reflexivity].
  cbn [bind]. rewrite IH.
  destruct (query_pairs entries) as [qs|e]; [|reflexivity].
  cbn [bind]. now rewrite append_pairs_app.
Qed.

Lemma urlencoded_serialize_nonempty l :
  l <> [] -> String.eqb (urlencoded_serialize l) EmptyString = false.
Proof.
  destruct l as [|[k v] l]; [congruence|]. intros _.
  apply String.eqb_neq.
  assert (H : forall a b, a ++ String "=" b <> EmptyString)
    by (intros [|x a] b; discriminate).
  destruct l as [|kv l]; cbn [urlencoded_serialize]; apply H.
Qed.

Lemma append_pairs_fields ps : forall u,
  url_searchParams (append_pairs ps u) = (url_searchParams u ++ ps)%list /\
  url_prefix (append_pairs ps u) = url_prefix u /\
  url_fragment (append_pairs ps u) = url_fragment u /\
  (ps <> [] ->
   url_query (append_pairs ps u)
   = Some (urlencoded_serialize (url_searchParams u ++ ps)%list)).
Proof.
  induction ps as [|[k v] ps IH]; intros u.
  - cbn. rewrite app_nil_r. repeat split. congruence.
  - cbn [append_pairs fold_left fst snd].
    destruct (IH (searchParams_append k v u)) as (Hl & Hp & Hf & Hq).
    fold (append_pairs ps (searchParams_append k v u)).
    cbn [searchParams_append url_searchParams url_prefix url_fragment] in *.
    rewrite <- app_assoc in Hl. cbn [app] in Hl.
    repeat split; try assumption.
    intros _. destruct ps as [|kv ps].
    + cbn. rewrite urlencoded_serialize_nonempty; [reflexivity|].
      destruct (url_searchParams u); discriminate.
    + rewrite Hq by discriminate. cbn [url_searchParams].
      rewrite <- app_assoc. reflexivity.
Qed.

Lemma decode_all_length vals ds :
  decode_all vals = Normal ds -> List.length ds = List.length vals.
Proof.
  revert ds. induction vals as [|val vals IH]; intros ds; cbn [decode_all].
  - intros H; inversion H; reflexivity.
  - destruct (decodeURIComponent val) as [d|e]; [|discriminate].
    cbn [bind]. destruct (decode_all vals) as [ds'|e]; [|discriminate].
    cbn [bind]. intros H; inversion H; subst. cbn. f_equal. now apply IH.
Qed.

Lemma decode_all_throw vals e :
  decode_all vals = Throw e ->
  exists val, In val vals /\ decodeURIComponent val = Throw e.
Proof.
  induction vals as [|val vals IH]; cbn [decode_all]; [discriminate|].
  destruct (decodeURIComponent val) as [d|e'] eqn:Hd.
  - cbn [bind]. destruct (decode_all vals) as [ds|e'']; [discriminate|].
    cbn [bind]. intros H; inversion H; subst.
    destruct (IH eq_refl) as (v & Hin & Hv). exists v. split; [now right|assumption].
  - cbn [bind]. intros H; inversion H; subst. exists val. split; [now left|assumption].
Qed.

Lemma query_pairs_throw entries e :
  query_pairs entries = Throw e ->
  exists key vals val,
    In (key, QArray vals) entries /\ In val vals /\
    decodeURIComponent val = Throw e.
Proof.
  induction entries as [|[key v] entries IH]; cbn [query_pairs]; [discriminate|].
  destruct (entry_pairs (key, v)) as [ps|e'] eqn:Hp.
  - cbn [bind]. destruct (query_pairs entries) as [qs|e'']; [discriminate|].
    cbn [bind]. intros H; inversion H; subst.
    destruct (IH eq_refl) as (k & vs & x & Hin & Hx & Hd).
    exists k, vs, x. split; [now right|]. split; assumption.
  - cbn [bind]. intros H; inversion H; subst.
    destruct v as [|s|n|vals]; try discriminate Hp.
    unfold entry_pairs in Hp. cbn [fst snd] in Hp.
    destruct (decode_all vals) as [ds|e'] eqn:Hd; [discriminate|].
    inversion Hp; subst.
    destruct (decode_all_throw _ _ Hd) as (x & Hx & Hdx).
    exists key, vals, x. split; [now left|]. split; assumption.
Qed.

Lemma append_query_throw q u e :
  append_query q u = Throw e -> decoding_fails q e.
Proof.
  destruct q as [[entries|pairs]|]; cbn [append_query Object_entries];
    try discriminate.
  rewrite append_entries_pairs.
  destruct (query_pairs entries) as [ps|e'] eqn:Hq; [discriminate|].
  cbn [bind]. intros H; inversion H; subst.
  destruct (query_pairs_throw _ _ Hq) as (k & vs & x & Hin & Hx & Hd).
  exists entries, k, vs, x. repeat split; assumption.
Qed.

(** C10. A query that is a [URLSearchParams] instance adds nothing: the
    loop over its enumerable properties leaves the URL as it is, and the
    request handed to the transport is the one of the same call with no
    query at all. *)
Theorem URLSearchParams_query_ignored c p pairs :
  (forall url, append_query (Some (QURLSearchParams pairs)) url = Normal url) /\
  assemble_url new_URL c (with_query p (Some (QURLSearchParams pairs)))
  = assemble_url new_URL c (with_query p None) /\
  build_request new_URL c (with_query p (Some (QURLSearchParams pairs)))
  = build_request new_URL c (with_query p None).
Proof. repeat split. Qed.

(** Where the builder can fail. *)
Lemma build_request_throw c p e :
  build_request new_URL c p = Throw e <->
  bodyAsJsonString (body p) = Throw e \/
  (exists b, bodyAsJsonString (body p) = Normal b) /\
  (new_URL (c_prefixUrl c ++ path p) = Throw e \/
   exists u, new_URL (c_prefixUrl c ++ path p) = Normal u /\
             append_query (query p) u = Throw e).
Proof.
  unfold build_request, assemble_url.
  destruct (bodyAsJsonString (body p)) as [b|e0]; cbn [bind].
  - destruct (new_URL (c_prefixUrl c ++ path p)) as [u|e1]; cbn [bind].
    + destruct (append_query (query p) u) as [u'|e2] eqn:Hq; cbn [bind].
      * split; [discriminate|].
        intros [H|[_ [H|(u0 & Hu & H)]]]; try discriminate H.
        inversion Hu; subst. congruence.
      * split.
        -- intros H. right. split; [eauto|]. right. exists u. split; congruence.
        -- intros [H|[_ [H|(u0 & Hu & H)]]]; try discriminate H.
           inversion Hu; subst. congruence.
    + split.
      * intros H. right. split; [eauto|]. left. congruence.
      * intros [H|[_ [H|(u0 & Hu & H)]]]; try discriminate; congruence.
  - split.
    + intros H. left. congruence.
    + intros [H|[(b & Hb) _]]; [congruence|discriminate].
Qed.

Lemma build_request_throw_step c p e :
  build_request new_URL c p = Throw e ->
  bodyAsJsonString (body p) = Throw e \/
  new_URL (c_prefixUrl c ++ path p) = Throw e \/
  decoding_fails (query p) e.
Proof.
  intros H. apply build_request_throw in H.
  destruct H as [H|[_ [H|(u & _ & H)]]]; [now left|now right; left|].
  right; right. eapply append_query_throw; eassumption.
Qed.

(** The builder does not look at the transport. *)
Lemma build_request_same_configuration c1 c2 p :
  same_configuration c1 c2 ->
  build_request new_URL c1 p = build_request new_URL c2 p.
Proof.
  intros (Ha & Hp & _ & Hg & Hu).
  unfold build_request, assemble_url, build_headers.
  now rewrite Ha, Hp, Hg, Hu.
Qed.

(** C6 (amended). The builder is a function of the descriptor and of the
    configuration, the transport apart.  It fails exactly when the
    serialization of the body, the construction of the URL or the
    percent-decoding of an element of an array value of the query fails,
    and the error is the one that step threw; a serialization error always
    comes out as it is. *)
Theorem build_request_fails_only c p :
  (forall e, build_request new_URL c p = Throw e ->
     bodyAsJsonString (body p) = Throw e \/
     new_URL (c_prefixUrl c ++ path p) = Throw e \/
     decoding_fails (query p) e) /\
  (forall e, bodyAsJsonString (body p) = Throw e ->
     build_request new_URL c p = Throw e) /\
  (forall c', same_configuration c c' ->
     build_request new_URL c p = build_request new_URL c' p).
Proof.
  split; [|split].
  - intros e H. now apply build_request_throw_step.
  - intros e H. apply build_request_throw. now left.
  - intros c' H. now apply build_request_same_configuration.
Qed.


(** *** The pairs of one key *)

Lemma entries_for_app key l1 l2 :
  entries_for key (l1 ++ l2)%list
  = (entries_for key l1 ++ entries_for key l2)%list.
Proof. unfold entries_for. apply List.filter_app. Qed.

Lemma entries_for_same key ps :
  Forall (fun kv : string * string => fst kv = key) ps ->
  entries_for key ps = ps.
Proof.
  induction 1 as [|kv ps Hk _ IH]; [reflexivity|].
  unfold entries_for in *. cbn [List.filter].
  rewrite Hk, String.eqb_refl, IH. reflexivity.
Qed.

Lemma entries_for_other key k' ps :
  k' <> key ->
  Forall (fun kv : string * string => fst kv = k') ps ->
  entries_for key ps = [].
Proof.
  intros Hne. induction 1 as [|kv ps Hk _ IH]; [reflexivity|].
  unfold entries_for in *. cbn [List.filter].
  rewrite Hk. apply String.eqb_neq in Hne. rewrite Hne. exact IH.
Qed.

Lemma entry_pairs_keys entry ps :
  entry_pairs entry = Normal ps ->
  Forall (fun kv : string * string => fst kv = fst entry) ps.
Proof.
  destruct entry as [key [|s|n|vals]]; unfold entry_pairs; cbn [fst snd];
    intros H.
  - inversion H. constructor.
  - inversion H. repeat constructor.
  - inversion H. repeat constructor.
  - destruct (decode_all vals) as [ds|e]; [|discriminate].
    inversion H. clear. induction ds; constructor; [reflexivity|assumption].
Qed.

Lemma query_pairs_absent_key key entries : forall ps,
  ~ In key (map fst entries) ->
  query_pairs entries = Normal ps ->
  entries_for key ps = [].
Proof.
  induction entries as [|entry entries IH]; intros ps Hnin; cbn [query_pairs].
  - intros H; inversion H. reflexivity.
  - destruct (entry_pairs entry) as [ps1|e] eqn:H1; [|discriminate].
    cbn [bind]. destruct (query_pairs entries) as [ps2|e]; [|discriminate].
    cbn [bind]. intros H; inversion H; subst.
    rewrite entries_for_app, (IH ps2), app_nil_r; [|simpl in Hnin; tauto|reflexivity].
    apply (entries_for_other key (fst entry)); [simpl in Hnin; tauto|].
    now apply entry_pairs_keys.
Qed.

(** With one value per key, the pairs of a key are those of its entry. *)
Lemma query_pairs_entries_for key v entries : forall ps,
  List.NoDup (map fst entries) ->
  In (key, v) entries ->
  query_pairs entries = Normal ps ->
  entry_pairs (key, v) = Normal (entries_for key ps).
Proof.
  induction entries as [|entry entries IH]; intros ps Hnd Hin; [destruct Hin|].
  cbn [query_pairs]. cbn [map] in Hnd. inversion Hnd as [|k l Hnin Hnd']; subst.
  destruct (entry_pairs entry) as [ps1|e] eqn:H1; [|discriminate].
  cbn [bind]. destruct (query_pairs entries) as [ps2|e] eqn:H2; [|discriminate].
  cbn [bind]. intros H; inversion H; subst. rewrite entries_for_app.
  destruct Hin as [->|Hin].
  - rewrite (query_pairs_absent_key key entries ps2 Hnin H2), app_nil_r.
    rewrite (entries_for_same key ps1); [assumption|].
    now apply entry_pairs_keys in H1.
  - assert (Hne : fst entry <> key).
    { intros Heq. apply Hnin. rewrite Heq.
      change key with (fst (key, v)). now apply in_map. }
    rewrite (entries_for_other key (fst entry) ps1 Hne);
      [|now apply entry_pairs_keys].
    cbn [app]. now apply IH.
Qed.

Lemma assemble_url_record c p u0 entries u :
  new_URL (c_prefixUrl c ++ path p) = Normal u0 ->
  query p = Some (QRecord entries) ->
  assemble_url new_URL c p = Normal u ->
  exists ps, query_pairs entries = Normal ps /\ u = append_pairs ps u0.
Proof.
  unfold assemble_url. intros -> ->. cbn [bind append_query Object_entries].
  rewrite append_entries_pairs.
  destruct (query_pairs entries) as [ps|e]; [|discriminate].
  cbn [bind]. intros H; inversion H. eauto.
Qed.

Lemma build_request_url c p w :
  build_request new_URL c p = Normal w ->
  exists u, assemble_url new_URL c p = Normal u /\ wire_url w = toString u.
Proof.
  unfold build_request.
  destruct (bodyAsJsonString (body p)) as [b|e]; [|discriminate].
  cbn [bind]. destruct (assemble_url new_URL c p) as [u|e]; [|discriminate].
  cbn [bind]. intros H; inversion H. eauto.
Qed.

(** C7 (amended). In the URL assembled for a query record, the pairs of a
    key whose value is an array are the pairs the base URL and the path
    already carry for that key, followed by one pair per element of the
    array, in array order, each holding the element decoded from
    percent-encoding; the query string is then the form-urlencoded
    serialization of the whole list.  A key whose value is undefined adds
    no pair. *)
Theorem query_array_entries c p u0 entries u :
  new_URL (c_prefixUrl c ++ path p) = Normal u0 ->
  query p = Some (QRecord entries) ->
  List.NoDup (map fst entries) ->
  assemble_url new_URL c p = Normal u ->
  (forall key vals, In (key, QArray vals) entries ->
     exists decoded,
       decode_all vals = Normal decoded /\
       List.length decoded = List.length vals /\
       entries_for key (url_searchParams u)
       = (entries_for key (url_searchParams u0)
            ++ map (fun d => (key, d)) decoded)%list /\
       (decoded <> [] ->
        url_query u = Some (urlencoded_serialize (url_searchParams u)))) /\
  (forall key, In (key, QUndefined) entries ->
     entries_for key (url_searchParams u)
     = entries_for key (url_searchParams u0)) /\
  (forall w, build_request new_URL c p = Normal w -> wire_url w = toString u).
Proof.
  intros Hu0 Hq Hnd Hu.
  destruct (assemble_url_record _ _ _ _ _ Hu0 Hq Hu) as (ps & Hps & ->).
  destruct (append_pairs_fields ps u0) as (Hl & _ & _ & Hquery).
  split; [|split].
  - intros key vals Hin.
    pose proof (query_pairs_entries_for _ _ _ _ Hnd Hin Hps) as He.
    unfold entry_pairs in He. cbn [fst snd] in He.
    destruct (decode_all vals) as [decoded|e] eqn:Hd; [|discriminate].
    cbn [bind] in He. inversion He as [Hmine].
    exists decoded. split; [reflexivity|].
    split; [now apply decode_all_length|].
    rewrite Hl, entries_for_app, <- Hmine. split; [reflexivity|].
    intros Hne. rewrite Hquery; [reflexivity|].
    intros ->. cbn in Hmine. destruct decoded; [congruence|discriminate].
  - intros key Hin.
    pose proof (query_pairs_entries_for _ _ _ _ Hnd Hin Hps) as He.
    unfold entry_pairs in He. cbn [fst snd] in He. inversion He as [Hmine].
    rewrite Hl, entries_for_app, <- Hmine. now rewrite app_nil_r.
  - intros w Hw. destruct (build_request_url _ _ _ Hw) as (u' & Hu' & ->).
    congruence.
Qed.

(** *** Body and headers *)

Lemma stringify_object fields :
  (exists s, stringify (JObject fields) = Normal (Some s)) \/
  (exists e, stringify (JObject fields) = Throw e).
Proof.
  unfold stringify. rewrite JSONFacts.SerializeJSONProperty_object.
  destruct (serialize_members fields) as [parts|e]; cbn [bind]; eauto.
Qed.

Lemma build_request_init c p w :
  build_request new_URL c p = Normal w ->
  exists b,
    bodyAsJsonString (body p) = Normal b /\
    init_body (wire_init w) = b /\
    init_headers (wire_init w) = build_headers c b /\
    init_method (wire_init w) = toUpperCase (Method_value (method p)) /\
    init_agent (wire_init w) = c_agent c.
Proof.
  unfold build_request.
  destruct (bodyAsJsonString (body p)) as [b|e]; [|discriminate].
  cbn [bind]. destruct (assemble_url new_URL c p) as [u|e]; [|discriminate].
  cbn [bind]. intros H; inversion H. exists b. repeat split.
Qed.

(** C8 (amended). For a call whose body is absent or an empty mapping, no
    body is handed to the transport and the headers are the auth material
    of the client with the user agent: the builder adds no content-type,
    so the header is there only if the auth material carries one.  For a
    call with a non-empty body, the body handed over is its JSON
    serialization, the content-type header is exactly application/json,
    and, the body being made of JSON-serializable values (null, booleans,
    strings, finite numbers other than negative zero, arrays and mappings
    of such), parsing the text gives the body back. *)
Theorem body_and_content_type c p w :
  build_request new_URL c p = Normal w ->
  match body p with
  | None | Some [] =>
      init_body (wire_init w) = None /\
      init_headers (wire_init w)
      = <["user-agent" := c_userAgent c]> (or_default (c_auth c) ∅) /\
      init_headers (wire_init w) !! "content-type"
      = or_default (c_auth c) ∅ !! "content-type"
  | Some fields =>
      exists s,
        stringify (JObject fields) = Normal (Some s) /\
        init_body (wire_init w) = Some s /\
        init_headers (wire_init w) !! "content-type" = Some "application/json" /\
        (serializable (JObject fields) = true ->
         JSON.parse s = Normal (JObject fields))
  end.
Proof.
  intros H. destruct (build_request_init _ _ _ H) as (b & Hb & Hbody & Hh & _).
  assert (Hnone : b = None ->
    init_body (wire_init w) = None /\
    init_headers (wire_init w)
    = <["user-agent" := c_userAgent c]> (or_default (c_auth c) ∅) /\
    init_headers (wire_init w) !! "content-type"
    = or_default (c_auth c) ∅ !! "content-type").
  { intros Hbn. rewrite Hbody, Hh, Hbn. unfold build_headers.
    repeat split. now rewrite lookup_insert_ne. }
  destruct (body p) as [[|kv fields]|].
  - apply Hnone. cbn in Hb. congruence.
  - cbn [bodyAsJsonString List.length Nat.eqb] in Hb.
    destruct (stringify_object (kv :: fields)) as [(s & Hs)|(e & He)];
      [|congruence].
    exists s. rewrite Hs in Hb. inversion Hb as [Hbs].
    rewrite Hbody, Hh, <- Hbs. unfold build_headers.
    split; [exact Hs|]. split; [reflexivity|].
    split; [apply lookup_insert_eq|].
    intros Hser. destruct (JSONFacts.parse_stringify _ Hser) as (s' & Hs' & Hp).
    congruence.
  - apply Hnone. cbn in Hb. congruence.
Qed.

End WithPlatform.

(** *** The properties at concrete calls *)

(** The transport of the examples answers after 120 ms, before the timer
    of 60000 ms. *)
Lemma hands_over_delivers auth r w : delivers (client_of auth (hands_over r)) w r.
Proof. exists 120. split; [reflexivity|discriminate]. Qed.

(** A goal about a concrete call: an equation that computes, or a
    response that the transport of the example hands over in time. *)
Ltac computed := first [ reflexivity | apply hands_over_delivers ].

(** C1 at the response 404 with body
    [{"code":"object_not_found","message":"not found"}]. *)
Lemma request_rejects_with_APIResponseError_witness :
  request URL_ref
    (client_of (Some access_keys)
       (hands_over (response_of false 404 not_found_text)))
    serviceRates
  = Settled (Rejected (ClientError (APIResponseError
      {| Errors.code := "object_not_found";
         err_status := 404;
         message := "not found";
         err_headers := [("content-type", "application/json")];
         Errors.body := not_found_text |}))).
Proof.
  eapply (request_rejects_with_APIResponseError URL_ref _ _ _
            (response_of false 404 not_found_text) not_found_text _
            ObjectNotFound "not found"); computed.
Defined.



(** The same for a negative [timeoutMs], which no promise settles within,
    and a transport that has answered already. *)
Example request_negative_timeoutMs :
  settles_within (c_timeoutMs (client_with_timeoutMs (-1) (slow_transport 0)))
    (SettlesAt 0 (Fulfilled (response_of true 200 ok_true_text))) = false /\
  request URL_ref (client_with_timeoutMs (-1) (slow_transport 0)) serviceRates
  = Settled (Fulfilled (JObject [("ok", JBool true)])).
Proof. repeat split. Qed.

(** The race itself, for a promise that fulfils after the timer fired and
    for one that rejects before it. *)
Example rejectAfterTimeout_late_response (r : SupportedResponse) :
  await (rejectAfterTimeout (SettlesAt 60001 (Fulfilled r)) 60000)
  = Settled (Rejected (ClientError (RequestTimeoutError "Request has timed out"))).
Proof. reflexivity. Qed.

Example rejectAfterTimeout_early_rejection (e : thrown) :
  rejectAfterTimeout (A := SupportedResponse) (SettlesAt 59999 (Rejected e))
    60000
  = mkRace (Some (Rejected e)) None.
Proof. reflexivity. Qed.

(** A duration above 2^31 - 1 makes a timer of one millisecond. *)
Example rejectAfterTimeout_overflow (r : SupportedResponse) :
  await (rejectAfterTimeout (SettlesAt 5 (Fulfilled r)) 2147483648)
  = Settled (Rejected (ClientError (RequestTimeoutError "Request has timed out"))).
Proof. reflexivity. Qed.

(** X14 at the response 500 with an empty body. *)
Lemma request_rejects_with_UnknownHTTPResponseError_witness :
  request URL_ref
    (client_of (Some access_keys)
       (hands_over (response_of false 500 EmptyString)))
    serviceRates
  = Settled (Rejected (ClientError (UnknownHTTPResponseError
      {| Errors.code := "response_error";
         err_status := 500;
         message := "Request failed with status: 500";
         err_headers := [("content-type", "application/json")];
         Errors.body := EmptyString |}))).
Proof.
  eapply (request_rejects_with_UnknownHTTPResponseError URL_ref _ _ _
            (response_of false 500 EmptyString) EmptyString); computed.
Defined.

(** A successful response with body [{"ok":true}] resolves with the
    mapping. *)
Example request_resolves :
  request URL_ref
    (client_of None (hands_over (response_of true 200 ok_true_text)))
    serviceRates
  = Settled (Fulfilled (JObject [("ok", JBool true)])).
Proof. reflexivity. Qed.

(** C4 at the body [{"code":"toString","message":"x"}]: the parser
    answers with a match, though [toString] is none of the eleven codes;
    the membership test finds the name on the prototype of the table. *)
Theorem parseAPIErrorResponseBody_inherited_code :
  parseAPIErrorResponseBody (JString toString_text)
  = Some {| parsed_fields :=
              [("code", JString "toString"); ("message", JString "x")];
            parsed_code := "toString";
            parsed_message := "x" |} /\
  mem_string "toString" apiErrorCodes = false /\
  isAPIErrorCode (JString "toString") = true.
Proof. repeat split. Qed.

(** C3 at the response 400 with that body: the call rejects with an
    [APIResponseError] whose code is no API error code. *)
Lemma request_misclassifies_inherited_code_witness :
  structured_error_match toString_text = None /\
  request URL_ref
    (client_of None (hands_over (response_of false 400 toString_text)))
    serviceRates
  = Settled (Rejected (ClientError (APIResponseError
      {| Errors.code := "toString";
         err_status := 400;
         message := "x";
         err_headers := [("content-type", "application/json")];
         Errors.body := toString_text |}))).
Proof.
  refine ((fun H => conj (proj1 H) (proj1 (proj2 H)))
            (request_misclassifies_inherited_code URL_ref
               (client_of None (hands_over (response_of false 400 toString_text)))
               serviceRates _ (response_of false 400 toString_text)
               toString_text _ "toString" "x"
               eq_refl (hands_over_delivers _ _ _) eq_refl eq_refl
               eq_refl eq_refl eq_refl _)).
  cbn. tauto.
Defined.



(** C6 as stated fails: the builder throws a [URIError] for an array
    element that does not decode, and a [TypeError] for a path on a
    client with no base URL, and the serialization of the body fails in
    neither call. *)
Lemma build_request_throws_without_serialization :
  build_request URL_ref (client_of None (FetchPromise NeverSettles))
    (call "/x" (Some malformed_query)) = Throw URIError /\
  bodyAsJsonString (body (call "/x" (Some malformed_query))) = Normal None /\
  build_request URL_ref
    (constructor (constant_fetch (FetchPromise NeverSettles)) "1.0.0" None)
    (call "/serviceRates" None) = Throw (TypeError "Invalid URL") /\
  ~ (forall e,
       build_request URL_ref (client_of None (FetchPromise NeverSettles))
         (call "/x" (Some malformed_query)) = Throw e ->
       bodyAsJsonString (body (call "/x" (Some malformed_query))) = Throw e).
Proof.
  repeat split. intros H. specialize (H URIError eq_refl). discriminate H.
Qed.

(** C6 at that query: the failure of the builder is the failure of the
    decoding of an element of the array. *)
Lemma build_request_fails_only_witness :
  decoding_fails (Some malformed_query) URIError.
Proof.
  destruct (proj1 (build_request_fails_only URL_ref
                     (client_of None (FetchPromise NeverSettles))
                     (call "/x" (Some malformed_query)))
              URIError eq_refl) as [H|[H|H]];
    [discriminate H|discriminate H|exact H].
Defined.

(** C7 at a path with no query of its own. *)
Lemma query_array_entries_witness :
  exists u decoded,
    assemble_url URL_ref (client_of None (FetchPromise NeverSettles))
      (call "/p" (Some tags_query)) = Normal u /\
    decode_all ["a%20b"; "c"] = Normal decoded /\
    entries_for "tag" (url_searchParams u)
    = map (fun d => ("tag", d)) decoded /\
    entries_for "skip" (url_searchParams u) = [].
Proof.
  pose (c := client_of None (FetchPromise NeverSettles)).
  pose (p := call "/p" (Some tags_query)).
  pose (u0 := mkURL "https://api.example.com/p" None [] None).
  pose (u := append_pairs [("tag", "a b"); ("tag", "c"); ("limit", "7")] u0).
  assert (Hnd : List.NoDup (map fst [ ("tag", QArray ["a%20b"; "c"]);
                                      ("skip", QUndefined);
                                      ("limit", QNumber (Number.of_Z 7)) ])).
  { repeat constructor; cbn; intuition discriminate. }
  destruct (query_array_entries URL_ref c p u0 _ u eq_refl eq_refl Hnd eq_refl)
    as (Harr & Hundef & _).
  destruct (Harr "tag" ["a%20b"; "c"] (or_introl eq_refl))
    as (decoded & Hd & _ & He & _).
  exists u, decoded. split; [reflexivity|]. split; [exact Hd|].
  split; [exact He|]. exact (Hundef "skip" (or_intror (or_introl eq_refl))).
Defined.

(** C7 as stated fails when the path carries a query: with the array
    [["a", "b"]] under [tag], the URL holds three pairs for [tag]. *)
Lemma query_array_after_path_query :
  exists u,
    assemble_url URL_ref (client_of None (FetchPromise NeverSettles))
      (call "/p?tag=z" (Some (QRecord [("tag", QArray ["a"; "b"])])))
    = Normal u /\
    toString u = "https://api.example.com/p?tag=z&tag=a&tag=b" /\
    entries_for "tag" (url_searchParams u)
    = [("tag", "z"); ("tag", "a"); ("tag", "b")] /\
    List.length (entries_for "tag" (url_searchParams u))
    <> List.length ["a"; "b"].
Proof.
  eexists. split; [reflexivity|]. split; [reflexivity|].
  split; [reflexivity|]. cbn. discriminate.
Qed.

(** C8 at a call whose body holds numbers that are no integers. *)
Lemma body_and_content_type_witness :
  exists w s,
    build_request URL_ref (client_of (Some access_keys) (FetchPromise NeverSettles))
      parcel = Normal w /\
    init_body (wire_init w) = Some s /\
    init_headers (wire_init w) !! "content-type" = Some "application/json" /\
    JSON.parse s = Normal (JObject parcel_body).
Proof.
  pose (c := client_of (Some access_keys) (FetchPromise NeverSettles)).
  destruct (build_request URL_ref c parcel) as [w|e] eqn:Hb;
    [|vm_compute in Hb; discriminate Hb].
  destruct (body_and_content_type URL_ref c parcel w Hb)
    as (s & _ & Hbody & Hct & Hrt).
  exists w, s. split; [exact Hb|]. split; [exact Hbody|].
  split; [exact Hct|]. apply Hrt. vm_compute. reflexivity.
Defined.

(** The text handed over for that body. *)
Example parcel_text :
  json_text (JObject parcel_body)
  = "{" ++ q "weight" ++ ":2.5," ++ q "insured" ++ ":true," ++ q "size"
      ++ ":[12.5,0.1,-3e+21]," ++ q "note" ++ ":null}".
Proof. vm_compute. reflexivity. Qed.

(** C8 as stated fails for a client whose auth material holds a
    content-type: a call with no body goes out with that header. *)
Lemma content_type_from_auth :
  exists w,
    build_request URL_ref
      (client_of (Some (<["content-type" := "text/plain"]> ∅))
         (FetchPromise NeverSettles))
      (call "/x" None) = Normal w /\
    init_body (wire_init w) = None /\
    init_headers (wire_init w) !! "content-type" = Some "text/plain".
Proof. eexists. repeat split. Qed.

End ClientFacts.

(** ** Calls in sequence *)

Module SessionFacts.

Import Js Chars JSON URI Errors Client Notions Examples Session.

Section WithPlatform.

Variable new_URL : string -> completion Error URL.

Lemma new_object_fresh properties (st : store) :
  st !! (new_object properties st).1 = None.
Proof.
  unfold new_object. cbn [fst]. apply not_elem_of_dom. apply is_fresh.
Qed.

(** The headers object is new, holds what the builder puts into it, and
    no other object changes. *)
Lemma make_headers_spec c b (st : store) :
  st !! (make_headers c b st).1 = None /\
  get_object (make_headers c b st).1 (make_headers c b st).2
  = build_headers
      {| c_auth :=
           match o_auth c with
           | Some a => Some (get_object a st)
           | None => None
           end;
         c_prefixUrl := o_prefixUrl c;
         c_timeoutMs := o_timeoutMs c;
         c_fetch := fun _ _ => FetchPromise NeverSettles;
         c_agent := o_agent c;
         c_userAgent := o_userAgent c |} b /\
  forall a, is_Some (st !! a) -> (make_headers c b st).2 !! a = st !! a.
Proof.
  unfold make_headers, new_object. cbv beta iota zeta.
  set (spread := match o_auth c with
                 | Some a => get_object a st
                 | None => ∅
                 end).
  set (h := fresh (dom st : gset ref)).
  assert (Hfresh : st !! h = None) by (apply not_elem_of_dom, is_fresh).
  assert (Hspread : or_default
                      match o_auth c with
                      | Some a => Some (get_object a st)
                      | None => None
                      end ∅ = spread).
  { subst spread. destruct (o_auth c); reflexivity. }
  unfold build_headers. cbn [c_auth c_userAgent]. rewrite Hspread.
  destruct b as [text|]; cbn [fst snd]; (split; [exact Hfresh|]); split.
  - unfold set_property, get_object.
    now rewrite !lookup_insert_eq.
  - intros a [x Ha]. unfold set_property.
    rewrite !lookup_insert_ne by congruence. reflexivity.
  - unfold get_object. now rewrite lookup_insert_eq.
  - intros a [x Ha]. rewrite lookup_insert_ne by congruence. reflexivity.
Qed.

(** The builder sees of the client what [view] keeps of it, the transport
    apart. *)
Lemma view_same_configuration c st st' :
  (forall a, o_auth c = Some a -> objects st' !! a = objects st !! a) ->
  same_configuration (view c st) (view c st').
Proof.
  intros H. unfold same_configuration, view. cbn. repeat split.
  destruct (o_auth c) as [a|]; [|reflexivity].
  unfold get_object. now rewrite (H a eq_refl).
Qed.

(** One call as a step: its outcome is the outcome of [request] on the
    client as the call sees it; the request is added to those handed to
    the transport; the objects there were are as before. *)
Lemma request_step c p st w :
  build_request new_URL (view c st) p = Normal w ->
  (request new_URL c p st).1 = Client.request new_URL (view c st) p /\
  handed (request new_URL c p st).2 = (handed st ++ [w])%list /\
  forall a, is_Some (objects st !! a) ->
    objects (request new_URL c p st).2 !! a = objects st !! a.
Proof.
  intros Hb. unfold Client.request. rewrite Hb.
  unfold build_request in Hb. unfold request.
  destruct (bodyAsJsonString (body p)) as [b|e]; [|discriminate Hb].
  cbn [bind] in Hb.
  destruct (assemble_url new_URL (view c st) p) as [url|e];
    [|discriminate Hb].
  cbn [bind] in Hb. injection Hb as <-.
  destruct (make_headers_spec c b (objects st)) as (Hnew & Hh & Hframe).
  destruct (make_headers c b (objects st)) as [h objects1].
  cbn [fst snd] in *. rewrite Hh.
  split; [reflexivity|]. split; [reflexivity|exact Hframe].
Qed.

(** X15. A call whose builder fails rejects with the error of the builder
    and leaves no trace: no object is made and the transport is handed
    nothing. *)
Theorem failed_build_leaves_no_trace c p st e :
  build_request new_URL (view c st) p = Throw e ->
  request new_URL c p st = (Settled (Rejected (Foreign e)), st).
Proof.
  intros Hb. unfold build_request in Hb. unfold request.
  destruct (bodyAsJsonString (body p)) as [b|e0]; cbn [bind] in Hb.
  - destruct (assemble_url new_URL (view c st) p) as [url|e0];
      cbn [bind] in Hb; [discriminate Hb|]. now injection Hb as <-.
  - now injection Hb as <-.
Qed.

(** What the call makes of a response handed to it is its
    classification. *)
Lemma attempt_classification c w r :
  delivers c w r -> attempt c w = classification r.
Proof.
  intros Hd. rewrite (ClientFacts.attempt_delivered _ _ _ Hd).
  unfold classification, buildRequestError, new_APIResponseError,
    new_UnknownHTTPResponseError.
  destruct (text r) as [|[bodyText|e]]; try reflexivity.
  destruct (ok r); cbn [negb]; [reflexivity|].
  destruct (parseAPIErrorResponseBody (JString bodyText)); reflexivity.
Qed.

(** C9. Two calls with the same descriptor made one after the other on the
    same client, to which the transport hands the same response both
    times, end the same way, and that outcome is the classification of the
    response: the value its text parses to, the rejection of the text
    read or of the parser, or the error of the kind, code, message, status,
    headers and body that the response gives.  The first call leaves
    nothing behind that the second could see: the transport is handed the
    same request again, and the objects the caller owns, the auth object
    among them, are as they were. *)
Theorem identical_calls_same_outcome c p st w r :
  (forall a, o_auth c = Some a -> is_Some (objects st !! a)) ->
  build_request new_URL (view c st) p = Normal w ->
  hands c (handed st) w r ->
  hands c (handed st ++ [w])%list w r ->
  (request_twice new_URL c p st).1.1 = (request_twice new_URL c p st).1.2 /\
  (request_twice new_URL c p st).1.1 = classification r /\
  handed (request_twice new_URL c p st).2 = (handed st ++ [w; w])%list /\
  forall a, is_Some (objects st !! a) ->
    objects (request_twice new_URL c p st).2 !! a = objects st !! a.
Proof.
  intros Hwf Hb H1 H2.
  destruct (request_step c p st w Hb) as (Ho1 & Hh1 & Hf1).
  unfold request_twice.
  destruct (request new_URL c p st) as [first st1]. cbn [fst snd] in *.
  assert (Hb1 : build_request new_URL (view c st1) p = Normal w).
  { rewrite <- Hb. symmetry.
    apply ClientFacts.build_request_same_configuration.
    apply view_same_configuration. intros a Ha. apply Hf1. now apply Hwf. }
  destruct (request_step c p st1 w Hb1) as (Ho2 & Hh2 & Hf2).
  destruct (request new_URL c p st1) as [second st2]. cbn [fst snd] in *.
  assert (Hfirst : first = classification r).
  { rewrite Ho1, (ClientFacts.request_built new_URL _ _ _ Hb).
    apply attempt_classification. exact H1. }
  assert (Hsecond : second = classification r).
  { rewrite Ho2, (ClientFacts.request_built new_URL _ _ _ Hb1).
    apply attempt_classification. unfold delivers, settles_before_timer.
    cbn [view c_fetch c_timeoutMs]. rewrite Hh1. exact H2. }
  split; [congruence|]. split; [exact Hfirst|]. split.
  - rewrite Hh2, Hh1, <- app_assoc. reflexivity.
  - intros a Ha. rewrite Hf2; [now apply Hf1|]. rewrite Hf1; assumption.
Qed.

End WithPlatform.

(** X15 at a query with an array element that does not decode. *)
Lemma failed_build_leaves_no_trace_witness :
  request URL_ref (client_object (response_of true 200 ok_true_text))
    (call "/x" (Some malformed_query)) first_state
  = (Settled (Rejected (Foreign URIError)), first_state).
Proof.
  apply (failed_build_leaves_no_trace URL_ref
           (client_object (response_of true 200 ok_true_text))
           (call "/x" (Some malformed_query)) first_state URIError).
  reflexivity.
Defined.

(** C9 at the call of the README, answered twice with the response 404
    that names a missing object. *)
Lemma identical_calls_same_outcome_witness :
  (request_twice URL_ref (client_object (response_of false 404 not_found_text))
     serviceRates first_state).1
  = (Settled (Rejected (ClientError (APIResponseError
       {| Errors.code := "object_not_found";
          err_status := 404;
          message := "not found";
          err_headers := [("content-type", "application/json")];
          Errors.body := not_found_text |}))),
     Settled (Rejected (ClientError (APIResponseError
       {| Errors.code := "object_not_found";
          err_status := 404;
          message := "not found";
          err_headers := [("content-type", "application/json")];
          Errors.body := not_found_text |})))) /\
  objects (request_twice URL_ref
             (client_object (response_of false 404 not_found_text))
             serviceRates first_state).2 !! 1%positive
  = Some access_keys.
Proof.
  destruct (build_request URL_ref
              (view (client_object (response_of false 404 not_found_text))
                 first_state) serviceRates) as [w|e] eqn:Hb;
    [|vm_compute in Hb; discriminate Hb].
  destruct (identical_calls_same_outcome URL_ref
              (client_object (response_of false 404 not_found_text))
              serviceRates first_state w
              (response_of false 404 not_found_text))
    as (Hsame & Hfirst & _ & Hframe).
  - intros a Ha. injection Ha as <-. now eexists.
  - exact Hb.
  - exists 120. split; [reflexivity|discriminate].
  - exists 80. split; [|discriminate].
    unfold client_object, steady. cbn [o_fetch first_state handed].
    reflexivity.
  - split.
    + rewrite (surjective_pairing (request_twice _ _ _ _).1).
      rewrite <- Hsame, Hfirst. reflexivity.
    + rewrite Hframe; [reflexivity|now eexists].
Defined.

End SessionFacts.

(** ** More on the call: success, hanging, headers, scalar query values *)

Module CallFacts.

Import Js Chars JSON URI Errors Client Notions Examples Shapes.

Section WithPlatform.

Variable new_URL : string -> completion Error URL.

(** *** The path of a response that is ok *)

(** X1. A response that is ok resolves the call with what its body text
    parses to; when the text is no JSON, the call rejects with the error
    of the parser as it is, not with an error of the taxonomy. *)
Theorem request_classifies_ok_response c p w r responseText :
  build_request new_URL c p = Normal w ->
  delivers c w r ->
  ok r = true ->
  text r = Settled (Fulfilled responseText) ->
  request new_URL c p
  = match JSON.parse responseText with
    | Normal responseJson => Settled (Fulfilled responseJson)
    | Throw e => Settled (Rejected (Foreign e))
    end /\
  (forall e, JSON.parse responseText = Throw e ->
     isClientError (Foreign e) = false).
Proof.
  intros Hb Hd Hok Ht. split; [|reflexivity].
  rewrite (ClientFacts.request_built new_URL _ _ _ Hb),
    (ClientFacts.attempt_delivered _ _ _ Hd), Ht, Hok.
  reflexivity.
Qed.

(** The outcomes of the [try] block, by what the transport does. *)
(** The transport delivers a response, or the [try] block rejects. *)
Lemma attempt_delivered_or_settled c w :
  (exists r, delivers c w r) \/ (exists e, attempt c w = Settled (Rejected e)).
Proof.
  pose proof (ClientFacts.attempt_cases c w) as Hc.
  destruct (c_fetch c (wire_url w) (wire_init w)) as [e|[|ms s]]; eauto.
  destruct (ms <=? timer_delay (c_timeoutMs c))%Z.
  - destruct s as [r|e]; [eauto|]. destruct Hc as [Hc _]. eauto.
  - destruct Hc as [Hc _]. eauto.
Qed.

(** X2. A call resolves only with the parsed body of a response that the
    transport delivered before the timer fired and that is ok. *)
Theorem request_resolves_only_from_ok_response c p v :
  request new_URL c p = Settled (Fulfilled v) ->
  exists w r responseText,
    build_request new_URL c p = Normal w /\ delivers c w r /\
    ok r = true /\ text r = Settled (Fulfilled responseText) /\
    JSON.parse responseText = Normal v.
Proof.
  intros H. destruct (build_request new_URL c p) as [w|e0] eqn:Hb.
  2:{ rewrite (ClientFacts.request_not_built new_URL _ _ _ Hb) in H.
      discriminate H. }
  rewrite (ClientFacts.request_built new_URL _ _ _ Hb) in H.
  destruct (attempt_delivered_or_settled c w) as [(r & Hc)|(e & Hc)];
    [|rewrite Hc in H; discriminate H].
  rewrite (ClientFacts.attempt_delivered _ _ _ Hc) in H.
  destruct (text r) as [|[responseText|e]] eqn:Ht; try discriminate H.
  destruct (ok r) eqn:Hok; cbn [negb] in H; [|discriminate H].
  destruct (JSON.parse responseText) as [v'|e] eqn:Hp; [|discriminate H].
  inversion H; subst. exists w, r, responseText. repeat split; assumption.
Qed.

(** X3. The call stays pending exactly when the transport delivered a
    response whose text is never read to the end: the timer covers the
    call of the transport, not the reading of the body. *)
Theorem request_pending_iff c p :
  request new_URL c p = Pending <->
  exists w r,
    build_request new_URL c p = Normal w /\ delivers c w r /\
    text r = Pending.
Proof.
  split.
  - intros H. destruct (build_request new_URL c p) as [w|e0] eqn:Hb.
    2:{ rewrite (ClientFacts.request_not_built new_URL _ _ _ Hb) in H.
        discriminate H. }
    rewrite (ClientFacts.request_built new_URL _ _ _ Hb) in H.
    destruct (attempt_delivered_or_settled c w) as [(r & Hc)|(e & Hc)];
      [|rewrite Hc in H; discriminate H].
    rewrite (ClientFacts.attempt_delivered _ _ _ Hc) in H.
    destruct (text r) as [|[responseText|e]] eqn:Ht; try discriminate H.
    + exists w, r. repeat split; assumption.
    + destruct (ok r); cbn [negb] in H; [|discriminate H].
      destruct (JSON.parse responseText); discriminate H.
  - intros (w & r & Hb & Hd & Ht).
    rewrite (ClientFacts.request_built new_URL _ _ _ Hb),
      (ClientFacts.attempt_delivered _ _ _ Hd), Ht.
    reflexivity.
Qed.

(** X4. When the server answers ok with the very text it was sent, the
    call resolves with the body it was given, for a non-empty body of
    JSON-serializable values (null, booleans, strings, finite numbers
    other than negative zero, arrays and mappings of such). *)
Theorem request_echo c p w fields r s :
  body p = Some fields ->
  fields <> [] ->
  serializable (JObject fields) = true ->
  build_request new_URL c p = Normal w ->
  init_body (wire_init w) = Some s ->
  delivers c w r ->
  ok r = true ->
  text r = Settled (Fulfilled s) ->
  request new_URL c p = Settled (Fulfilled (JObject fields)).
Proof.
  intros Hbody Hne Hser Hb Hs Hd Hok Ht.
  destruct (ClientFacts.build_request_init new_URL _ _ _ Hb)
    as (b & Hbs & Hib & _).
  rewrite Hbody in Hbs. destruct fields as [|kv fields]; [congruence|].
  cbn [bodyAsJsonString List.length Nat.eqb] in Hbs.
  destruct (JSONFacts.parse_stringify _ Hser) as (s' & Hs' & Hp).
  assert (s' = s) by congruence. subst s'.
  rewrite (ClientFacts.request_built new_URL _ _ _ Hb),
    (ClientFacts.attempt_delivered _ _ _ Hd), Ht, Hok.
  cbn [negb]. now rewrite Hp.
Qed.

(** *** Headers *)

(** X5. In the headers handed to the transport, the user agent is always
    the one of the client, whatever the auth material says; the content
    type is forced when a body goes out; every other header is the one of
    the auth material, and nothing else is added. *)
Theorem headers_precedence c p w :
  build_request new_URL c p = Normal w ->
  init_headers (wire_init w) !! "user-agent" = Some (c_userAgent c) /\
  init_headers (wire_init w) !! "content-type"
  = match init_body (wire_init w) with
    | Some _ => Some "application/json"
    | None => or_default (c_auth c) ∅ !! "content-type"
    end /\
  (forall k, k <> "user-agent" -> k <> "content-type" ->
     init_headers (wire_init w) !! k = or_default (c_auth c) ∅ !! k).
Proof.
  intros Hb.
  destruct (ClientFacts.build_request_init new_URL _ _ _ Hb)
    as (b & _ & Hib & Hh & _).
  rewrite Hh, Hib. unfold build_headers.
  destruct b as [s|]; repeat split.
  - rewrite lookup_insert_ne by discriminate. apply lookup_insert_eq.
  - apply lookup_insert_eq.
  - intros k Hua Hct. rewrite !lookup_insert_ne by congruence. reflexivity.
  - apply lookup_insert_eq.
  - now rewrite lookup_insert_ne.
  - intros k Hua Hct. rewrite lookup_insert_ne by congruence. reflexivity.
Qed.

(** *** The loop over the query *)

(** X6. The loop over a query record appends to the pairs of the URL, in
    the order of the entries, the pairs of each entry; the part of the
    URL before the query and the fragment stay; when no pair is appended
    the URL is the parsed one, untouched, and otherwise its query is the
    serialization of all its pairs. *)
Theorem assemble_url_appends c p u0 entries u :
  new_URL (c_prefixUrl c ++ path p) = Normal u0 ->
  query p = Some (QRecord entries) ->
  assemble_url new_URL c p = Normal u ->
  exists ps,
    query_pairs entries = Normal ps /\
    url_searchParams u = (url_searchParams u0 ++ ps)%list /\
    url_prefix u = url_prefix u0 /\
    url_fragment u = url_fragment u0 /\
    (ps = [] -> u = u0) /\
    (ps <> [] ->
     url_query u = Some (urlencoded_serialize (url_searchParams u0 ++ ps)%list)).
Proof.
  intros Hu0 Hq Hu.
  destruct (ClientFacts.assemble_url_record new_URL _ _ _ _ _ Hu0 Hq Hu)
    as (ps & Hps & ->).
  destruct (ClientFacts.append_pairs_fields ps u0) as (Hl & Hp & Hf & Hquery).
  exists ps. repeat split; try assumption.
  intros ->. reflexivity.
Qed.

(** X7. A string value of the query is appended as it is, with no
    decoding (unlike the elements of an array), and a number as the text
    that [String] gives for it ([1e+21], [0.5], [NaN]): each adds one pair
    under its key, after the pairs the URL already has for that key. *)
Theorem query_scalar_entries c p u0 entries u :
  new_URL (c_prefixUrl c ++ path p) = Normal u0 ->
  query p = Some (QRecord entries) ->
  List.NoDup (map fst entries) ->
  assemble_url new_URL c p = Normal u ->
  (forall key s, In (key, QString s) entries ->
     entries_for key (url_searchParams u)
     = (entries_for key (url_searchParams u0) ++ [(key, s)])%list) /\
  (forall key n, In (key, QNumber n) entries ->
     entries_for key (url_searchParams u)
     = (entries_for key (url_searchParams u0)
          ++ [(key, Number.toString n)])%list).
Proof.
  intros Hu0 Hq Hnd Hu.
  destruct (ClientFacts.assemble_url_record new_URL _ _ _ _ _ Hu0 Hq Hu)
    as (ps & Hps & ->).
  destruct (ClientFacts.append_pairs_fields ps u0) as (Hl & _).
  split; intros key x Hin;
    pose proof (ClientFacts.query_pairs_entries_for new_URL _ _ _ _ Hnd Hin Hps)
      as He;
    unfold entry_pairs in He; cbn [fst snd] in He; inversion He as [Hmine];
    rewrite Hl, ClientFacts.entries_for_app, <- Hmine; reflexivity.
Qed.

Lemma decode_no_percent s :
  no_percent s = true -> decode Idle s = Some s.
Proof.
  induction s as [|ch s IH]; [reflexivity|].
  cbn [no_percent decode]. intros H. apply andb_true_iff in H.
  destruct H as [Hc Hs]. apply negb_true_iff in Hc. rewrite Hc.
  now rewrite (IH Hs).
Qed.

Lemma decode_all_no_percent vals :
  forallb no_percent vals = true -> decode_all vals = Normal vals.
Proof.
  induction vals as [|val vals IH]; [reflexivity|].
  cbn [forallb decode_all]. intros H. apply andb_true_iff in H.
  destruct H as [Hv Hr]. unfold decodeURIComponent.
  rewrite (decode_no_percent _ Hv). cbn [bind]. now rewrite (IH Hr).
Qed.

(** X8. The elements of an array value that hold no percent sign are
    appended as they are, one pair each, in order: the decoding changes
    nothing and cannot fail. *)
Theorem append_array_plain key vals u :
  forallb no_percent vals = true ->
  append_array key vals u
  = Normal (append_pairs (map (fun val => (key, val)) vals) u).
Proof.
  intros H. rewrite ClientFacts.append_array_pairs.
  now rewrite (decode_all_no_percent _ H).
Qed.

Lemma query_pairs_hollow entries :
  forallb (fun entry => adds_nothing (snd entry)) entries = true ->
  query_pairs entries = Normal [].
Proof.
  induction entries as [|[key v] entries IH]; [reflexivity|].
  cbn [forallb snd query_pairs]. intros H. apply andb_true_iff in H.
  destruct H as [Hv Hr]. rewrite (IH Hr).
  destruct v as [|s|n|[|val vals]]; try discriminate Hv; reflexivity.
Qed.

(** X9. A query record that holds no value (no entry, or only absent
    values and arrays with no element) leaves the request as it is with
    no query at all: the URL is not even serialized anew. *)
Theorem hollow_query_ignored c p entries :
  query p = Some (QRecord entries) ->
  forallb (fun entry => adds_nothing (snd entry)) entries = true ->
  assemble_url new_URL c p = new_URL (c_prefixUrl c ++ path p) /\
  build_request new_URL c p = build_request new_URL c (with_query p None).
Proof.
  intros Hq Hh.
  assert (Ha : assemble_url new_URL c p
               = assemble_url new_URL c (with_query p None)).
  { unfold assemble_url. cbn [with_query path query]. rewrite Hq.
    destruct (new_URL (c_prefixUrl c ++ path p)) as [u0|e]; [|reflexivity].
    cbn [bind append_query Object_entries].
    rewrite ClientFacts.append_entries_pairs, (query_pairs_hollow _ Hh).
    reflexivity. }
  split.
  - rewrite Ha. unfold assemble_url. cbn [with_query path query append_query].
    destruct (new_URL (c_prefixUrl c ++ path p)); reflexivity.
  - unfold build_request. rewrite Ha. reflexivity.
Qed.

(** X13. The auth of the descriptor never reaches the transport and
    changes nothing in the outcome: the call reads the path, the method,
    the query and the body of its argument, and takes the auth headers
    from the client alone. *)
Theorem descriptor_auth_ignored c p a :
  build_request new_URL c (with_auth p a) = build_request new_URL c p /\
  request new_URL c (with_auth p a) = request new_URL c p.
Proof. split; reflexivity. Qed.

(** X12. An error of the taxonomy that the call rejects with is the
    timeout error, raised because the timer fired before the promise of
    the transport settled; or the error built from a delivered response
    that is not ok and from its body text; or an error of the taxonomy
    that the transport or the reading of the text raised itself. *)
Theorem taxonomy_rejection_origin c p e :
  request new_URL c p = Settled (Rejected (ClientError e)) ->
  exists w,
    build_request new_URL c p = Normal w /\
    ((e = new_RequestTimeoutError /\
      exists pr, c_fetch c (wire_url w) (wire_init w) = FetchPromise pr /\
                 forall ms s, pr = SettlesAt ms s ->
                   timer_delay (c_timeoutMs c) < ms) \/
     (exists r responseText,
        delivers c w r /\ ok r = false /\
        text r = Settled (Fulfilled responseText) /\
        e = buildRequestError r responseText) \/
     transport_fails c w (ClientError e) \/
     (exists r, delivers c w r /\ text r = Settled (Rejected (ClientError e)))).
Proof.
  intros H. destruct (build_request new_URL c p) as [w|e0] eqn:Hb.
  2:{ rewrite (ClientFacts.request_not_built new_URL _ _ _ Hb) in H.
      discriminate H. }
  rewrite (ClientFacts.request_built new_URL _ _ _ Hb) in H.
  exists w. split; [reflexivity|].
  pose proof (ClientFacts.attempt_cases c w) as Hc. unfold transport_fails.
  destruct (c_fetch c (wire_url w) (wire_init w)) as [e1|[|ms s]] eqn:Hf.
  - rewrite Hc in H. inversion H; subst. right; right; left. now left.
  - rewrite Hc in H. inversion H; subst. left. split; [reflexivity|].
    eexists. split; [reflexivity|discriminate].
  - destruct (ms <=? timer_delay (c_timeoutMs c))%Z.
    2:{ destruct Hc as [Hc Hms]. rewrite Hc in H. inversion H; subst. left.
        split; [reflexivity|]. eexists. split; [reflexivity|].
        intros ms' s' Heq; inversion Heq; subst. exact Hms. }
    destruct s as [r|e1].
    + rewrite (ClientFacts.attempt_delivered _ _ _ Hc) in H.
      destruct (text r) as [|[responseText|e1]] eqn:Ht; try discriminate H.
      * destruct (ok r) eqn:Hok; cbn [negb] in H.
        -- destruct (JSON.parse responseText); discriminate H.
        -- inversion H; subst. right; left. exists r, responseText.
           repeat split; assumption.
      * inversion H; subst. right; right; right. exists r. now split.
    + destruct Hc as [Hc Hs]. rewrite Hc in H. inversion H; subst.
      right; right; left. now right.
Qed.

End WithPlatform.

(** *** The type guards of [errors.ts] *)

Lemma has_property_cons k x l :
  has_property (x :: l) k = has_property [x] k || has_property l k.
Proof.
  unfold has_property, mem_string. cbn [existsb].
  destruct (String.eqb k x), (existsb (String.eqb k) l),
    (existsb (String.eqb k) Object_prototype_keys); reflexivity.
Qed.

Lemma has_property_cons_r k x l :
  has_property l k = true -> has_property (x :: l) k = true.
Proof. intros H. rewrite has_property_cons, H. apply orb_true_r. Qed.

(** What a match of the parser says about the body. *)
Lemma parseAPIErrorResponseBody_some_inv body b :
  parseAPIErrorResponseBody body = Some b ->
  exists text,
    body = JString text /\
    JSON.parse text = Normal (JObject (parsed_fields b)) /\
    lookup_field "message" (parsed_fields b)
    = Some (JString (parsed_message b)) /\
    lookup_field "code" (parsed_fields b) = Some (JString (parsed_code b)) /\
    has_property apiErrorCodes (parsed_code b) = true.
Proof.
  destruct body as [| | | | |text| |]; try discriminate.
  unfold parseAPIErrorResponseBody.
  destruct (JSON.parse text) as [parsed|e] eqn:Hp; [|discriminate].
  destruct (isObject parsed) eqn:Ho; cbn [negb orb]; [|discriminate].
  destruct (String.eqb (typeof (get parsed "message")) "string") eqn:Hm;
    cbn [negb orb]; [|discriminate].
  destruct (isAPIErrorCode (get parsed "code")) eqn:Hc;
    cbn [negb orb]; [|discriminate].
  destruct parsed as [| | | | | | |fields]; try discriminate Ho.
  unfold get in *.
  destruct (lookup_field "message" fields) as [vm|] eqn:Hlm;
    [|discriminate Hm].
  destruct vm as [| | | | |m| |]; try discriminate Hm.
  destruct (lookup_field "code" fields) as [vc|] eqn:Hlc; [|discriminate Hc].
  destruct vc as [| | | | |cd| |]; try discriminate Hc.
  intros H; inversion H; subst; cbn.
  exists text. split; [reflexivity|]. split; [exact Hp|].
  split; [exact Hlm|]. split; [exact Hlc|]. exact Hc.
Qed.

(** X11. The parser answers with a match exactly when its argument is a
    string that parses to an object whose [message] is a string and whose
    [code] is a string that the [in] test finds in the table of the API
    error codes, one of the eleven codes or a name the table inherits; the
    match holds the object, that code and that message. *)
Theorem parseAPIErrorResponseBody_some_iff body b :
  parseAPIErrorResponseBody body = Some b <->
  exists text,
    body = JString text /\
    JSON.parse text = Normal (JObject (parsed_fields b)) /\
    lookup_field "message" (parsed_fields b)
    = Some (JString (parsed_message b)) /\
    lookup_field "code" (parsed_fields b) = Some (JString (parsed_code b)) /\
    ((exists code, parsed_code b = APIErrorCode_value code) \/
     In (parsed_code b) Object_prototype_keys).
Proof.
  split.
  - intros H. destruct (parseAPIErrorResponseBody_some_inv _ _ H)
      as (text & Hb & Hp & Hm & Hc & Hin).
    exists text. repeat split; try assumption.
    assert (Hi : isAPIErrorCode (JString (parsed_code b)) = true) by exact Hin.
    apply ErrorsFacts.isAPIErrorCode_true in Hi.
    destruct Hi as (c & Hc' & Hor). inversion Hc'; subst c. exact Hor.
  - intros (text & -> & Hp & Hm & Hc & Hor).
    rewrite (ErrorsFacts.parseAPIErrorResponseBody_match _ _ _ _ Hp Hm Hc).
    + destruct b; reflexivity.
    + change (isAPIErrorCode (JString (parsed_code b)) = true).
      apply ErrorsFacts.isAPIErrorCode_true. eauto.
Qed.

(** X10. [isHTTPResponseError] holds exactly when one of the guards of the
    two classes of response errors holds.  An error built from a response
    passes it, and passes the guard of [APIResponseError] exactly when the
    parser found a match in the body; without a match it passes the guard
    of [UnknownHTTPResponseError].  A timeout error passes none of the
    three. *)
Theorem guards_of_response_errors :
  (forall error,
     isHTTPResponseError error
     = isUnknownHTTPResponseError error || isAPIResponseError error) /\
  (forall r bodyText,
     let error := ClientError (buildRequestError r bodyText) in
     isHTTPResponseError error = true /\
     isAPIResponseError error
     = match parseAPIErrorResponseBody (JString bodyText) with
       | Some _ => true
       | None => false
       end /\
     (parseAPIErrorResponseBody (JString bodyText) = None ->
      isUnknownHTTPResponseError error = true)) /\
  (forall msg,
     let error := ClientError (RequestTimeoutError msg) in
     isClientError error = true /\
     isHTTPResponseError error = false /\
     isUnknownHTTPResponseError error = false /\
     isAPIResponseError error = false).
Proof.
  split; [|split].
  - intros [e|e]; [|reflexivity].
    unfold isHTTPResponseError, isUnknownHTTPResponseError, isAPIResponseError,
      isClientErrorWithCode, httpResponseErrorCodes.
    rewrite has_property_cons.
    destruct (has_property _ _ || has_property _ _); reflexivity.
  - intros r bodyText. cbv zeta. unfold buildRequestError.
    destruct (parseAPIErrorResponseBody (JString bodyText)) as [b|] eqn:Hp.
    + destruct (parseAPIErrorResponseBody_some_inv _ _ Hp)
        as (_ & _ & _ & _ & _ & Hin).
      unfold isHTTPResponseError, isAPIResponseError, isClientErrorWithCode,
        httpResponseErrorCodes.
      cbn [new_APIResponseError error_code code].
      rewrite (has_property_cons_r _ _ _ Hin), Hin.
      repeat split. discriminate.
    + repeat split.
  - intros msg. repeat split.
Qed.

(** *** The properties at concrete calls *)

(** X1 at the response 200 with body [{"ok":true}]. *)
Lemma request_classifies_ok_response_witness :
  request URL_ref
    (client_of None (hands_over (response_of true 200 ok_true_text)))
    serviceRates
  = Settled (Fulfilled (JObject [("ok", JBool true)])).
Proof.
  exact (proj1 (request_classifies_ok_response URL_ref
                  (client_of None
                     (hands_over (response_of true 200 ok_true_text)))
                  serviceRates _ (response_of true 200 ok_true_text)
                  ok_true_text eq_refl
                  (ClientFacts.hands_over_delivers _ _ _) eq_refl eq_refl)).
Defined.

(** X2 at the same call. *)
Lemma request_resolves_only_from_ok_response_witness :
  exists w r responseText,
    build_request URL_ref
      (client_of None (hands_over (response_of true 200 ok_true_text)))
      serviceRates = Normal w /\
    delivers
      (client_of None (hands_over (response_of true 200 ok_true_text))) w r /\
    ok r = true /\ text r = Settled (Fulfilled responseText) /\
    JSON.parse responseText = Normal (JObject [("ok", JBool true)]).
Proof.
  exact (request_resolves_only_from_ok_response URL_ref
           (client_of None (hands_over (response_of true 200 ok_true_text)))
           serviceRates (JObject [("ok", JBool true)]) eq_refl).
Defined.

(** X4 at a call whose body holds numbers that are no integers, answered
    with its own body. *)
Lemma request_echo_witness :
  request URL_ref
    (client_of (Some access_keys)
       (hands_over (response_of true 200 (json_text (JObject parcel_body)))))
    parcel
  = Settled (Fulfilled (JObject parcel_body)).
Proof.
  eapply (request_echo URL_ref _ parcel _ parcel_body
            (response_of true 200 (json_text (JObject parcel_body)))
            (json_text (JObject parcel_body)));
    [reflexivity|discriminate|vm_compute; reflexivity|vm_compute; reflexivity
    |vm_compute; reflexivity|apply ClientFacts.hands_over_delivers
    |reflexivity|reflexivity].
Defined.

(** X5 at a client whose auth material names a user agent of its own. *)
Lemma headers_precedence_witness :
  exists w,
    build_request URL_ref
      (client_of (Some (<["user-agent" := "curl"]> access_keys))
         (FetchPromise NeverSettles))
      serviceRates = Normal w /\
    init_headers (wire_init w) !! "user-agent" = Some "anteraja-client/1.0.0" /\
    init_headers (wire_init w) !! "access-key-id" = Some "id".
Proof.
  pose (c := client_of (Some (<["user-agent" := "curl"]> access_keys))
               (FetchPromise NeverSettles)).
  destruct (build_request URL_ref c serviceRates) as [w|e] eqn:Hb;
    [|discriminate Hb].
  destruct (headers_precedence URL_ref c serviceRates w Hb) as (Hua & _ & Hk).
  exists w. split; [exact Hb|]. split; [exact Hua|].
  rewrite (Hk "access-key-id") by discriminate. reflexivity.
Defined.

(** X6 and X7 at a query with a string and a number. *)
Lemma assemble_url_appends_witness :
  exists u,
    assemble_url URL_ref (client_of None (FetchPromise NeverSettles))
      (call "/p#top" (Some scalar_query)) = Normal u /\
    url_searchParams u = [("q", "a%20b"); ("limit", "7")] /\
    url_fragment u = Some "top" /\
    toString u = "https://api.example.com/p?q=a%2520b&limit=7#top".
Proof.
  pose (c := client_of None (FetchPromise NeverSettles)).
  pose (p := call "/p#top" (Some scalar_query)).
  pose (u0 := mkURL "https://api.example.com/p" None [] (Some "top")).
  pose (u := append_pairs [("q", "a%20b"); ("limit", "7")] u0).
  destruct (assemble_url_appends URL_ref c p u0 _ u eq_refl eq_refl eq_refl)
    as (ps & Hps & Hl & _ & Hf & _).
  exists u. split; [reflexivity|].
  vm_compute in Hps. injection Hps as <-.
  split; [exact Hl|]. split; [exact Hf|].
  reflexivity.
Defined.

Lemma query_scalar_entries_witness :
  exists u,
    assemble_url URL_ref (client_of None (FetchPromise NeverSettles))
      (call "/p?limit=1" (Some scalar_query)) = Normal u /\
    entries_for "q" (url_searchParams u) = [("q", "a%20b")] /\
    entries_for "limit" (url_searchParams u) = [("limit", "1"); ("limit", "7")].
Proof.
  pose (c := client_of None (FetchPromise NeverSettles)).
  pose (p := call "/p?limit=1" (Some scalar_query)).
  pose (u0 := mkURL "https://api.example.com/p" (Some "limit=1")
                [("limit", "1")] None).
  pose (u := append_pairs [("q", "a%20b"); ("limit", "7")] u0).
  assert (Hnd : List.NoDup (map fst [ ("q", QString "a%20b");
                                      ("limit", QNumber (Number.of_Z 7)) ])).
  { repeat constructor; cbn; intuition discriminate. }
  destruct (query_scalar_entries URL_ref c p u0 _ u eq_refl eq_refl Hnd eq_refl)
    as (Hstr & Hnum).
  exists u. split; [reflexivity|]. split.
  - exact (Hstr "q" "a%20b" (or_introl eq_refl)).
  - exact (Hnum "limit" (Number.of_Z 7) (or_intror (or_introl eq_refl))).
Defined.

(** X8 at an array of plain words. *)
Lemma append_array_plain_witness :
  append_array "tag" ["red"; "dark blue"]
    (mkURL "https://api.example.com/p" None [] None)
  = Normal (mkURL "https://api.example.com/p" (Some "tag=red&tag=dark+blue")
              [("tag", "red"); ("tag", "dark blue")] None).
Proof.
  exact (append_array_plain "tag" ["red"; "dark blue"]
           (mkURL "https://api.example.com/p" None [] None) eq_refl).
Defined.

(** X9 at a query with an absent value and an array with no element, on a
    path with a query of its own. *)
Lemma hollow_query_ignored_witness :
  build_request URL_ref (client_of None (FetchPromise NeverSettles))
    (call "/p?a b" (Some hollow_query))
  = build_request URL_ref (client_of None (FetchPromise NeverSettles))
      (with_query (call "/p?a b" (Some hollow_query)) None).
Proof.
  exact (proj2 (hollow_query_ignored URL_ref
                  (client_of None (FetchPromise NeverSettles))
                  (call "/p?a b" (Some hollow_query)) _ eq_refl eq_refl)).
Defined.

(** X12 at the response 404 with the body of an API error. *)
Lemma taxonomy_rejection_origin_witness :
  exists w,
    build_request URL_ref
      (client_of None (hands_over (response_of false 404 not_found_text)))
      serviceRates = Normal w.
Proof.
  destruct (taxonomy_rejection_origin URL_ref
              (client_of None
                 (hands_over (response_of false 404 not_found_text)))
              serviceRates
              (buildRequestError (response_of false 404 not_found_text)
                 not_found_text) eq_refl) as (w & Hb & _).
  exists w. exact Hb.
Defined.

End CallFacts.
